(** * Line-follower firmware (firmware.ino): control subsystem

    A shallow embedding of [arduino/firmware/firmware.ino] and the
    verification of the properties its specification states.

    The firmware targets an Arduino Mega 2560 (AVR): [float] is IEEE-754
    binary32, [int] is 16 bits, [unsigned long] is 32 bits.  Floats are
    modelled bit-exactly with the Standard Library's [SpecFloat] at
    precision 24 and maximal exponent 128, round-to-nearest-even. *)

From Stdlib Require Import ZArith QArith Bool Ascii String Lia.
From Stdlib Require Import SpecFloat.
From stdpp Require Import base list.

Local Open Scope Z_scope.

(** ** IEEE-754 binary32 *)

Module F32.

Definition prec : Z := 24.
Definition emax : Z := 128.

Definition float32 : Type := spec_float.

Definition add : float32 -> float32 -> float32 := SFadd prec emax.
Definition sub : float32 -> float32 -> float32 := SFsub prec emax.
Definition mul : float32 -> float32 -> float32 := SFmul prec emax.
Definition div : float32 -> float32 -> float32 := SFdiv prec emax.
Definition ltb : float32 -> float32 -> bool := SFltb.
Definition leb : float32 -> float32 -> bool := SFleb.
Definition eqb : float32 -> float32 -> bool := SFeqb.

(** Conversion of an integer to [float] (C's usual arithmetic conversion). *)
Definition of_Z (z : Z) : float32 := binary_normalize prec emax z 0 false.

(** The binary32 value nearest to the decimal [(-1)^neg * m * 10^e10]:
    what a decimal literal of the source denotes, and what a correctly
    rounded decimal-to-float conversion returns. *)
Definition of_dec (neg : bool) (m : Z) (e10 : Z) : float32 :=
  match m with
  | Zpos p =>
      if 0 <=? e10
      then binary_round prec emax neg (p * Z.to_pos (10 ^ e10)) 0
      else SFdiv prec emax (S754_finite neg p 0)
                           (S754_finite false (Z.to_pos (10 ^ (- e10))) 0)
  | _ => S754_zero neg
  end.

Definition is_nan (x : float32) : bool :=
  match x with S754_nan => true | _ => false end.

Definition is_finite (x : float32) : bool :=
  match x with S754_zero _ | S754_finite _ _ _ => true | _ => false end.

Definition is_zero (x : float32) : bool :=
  match x with S754_zero _ => true | _ => false end.

(** The rational a finite float denotes (0 for infinities and NaN). *)
Definition to_Q (x : float32) : Q :=
  match x with
  | S754_finite s m e =>
      let v := if 0 <=? e then inject_Z (Zpos m * 2 ^ e)
               else Qmake (Zpos m) (Z.to_pos (2 ^ (- e))) in
      if s then Qopp v else v
  | _ => 0%Q
  end.


End F32.

Import F32.

(** Literals of the source.  [centi n] is the literal with the decimal
    digits [n] after [0.], as in [0.35f]. *)
Definition centi (n : Z) : float32 := of_dec false n (-2).
Definition f0_0 : float32 := S754_zero false.          (* 0.0f  *)
Definition f1_0 : float32 := of_dec false 1 0.         (* 1.0f  *)
Definition f0_5 : float32 := of_dec false 5 (-1).      (* 0.5f  *)
Definition f1e6 : float32 := of_dec false 1 6.         (* 1e6f  *)
Definition f1023 : float32 := of_dec false 1023 0.     (* 1023.0f *)
Definition f0_01 : float32 := centi 1.     (* 0.01f *)
Definition f3_5 : float32 := of_dec false 35 (-1).     (* 3.5f  *)
Definition f0_010 : float32 := of_dec false 10 (-3).   (* 0.010f *)

(** ** Utility *)

Definition clampf (x lo hi : float32) : float32 :=
  if ltb x lo then lo
  else if ltb hi x then hi
  else x.

(** ** Characters and C strings *)

Definition NUL : ascii := "000"%char.
Definition NL : ascii := "010"%char.

Definition char_code (c : ascii) : Z := Z.of_N (N_of_ascii c).

(** [isspace] and [isdigit] of the C locale. *)
Definition isspace (c : ascii) : bool :=
  let n := char_code c in (n =? 32) || ((9 <=? n) && (n <=? 13)).

Definition isdigit (c : ascii) : bool :=
  let n := char_code c in (48 <=? n) && (n <=? 57).

Definition digit_val (c : ascii) : Z := char_code c - 48.

Definition to_lower (c : ascii) : ascii :=
  let n := char_code c in
  if (65 <=? n) && (n <=? 90) then ascii_of_N (Z.to_N (n + 32)) else c.

(** The string a [char] array holds: the bytes before the first NUL. *)
Fixpoint c_str (b : list ascii) : list ascii :=
  match b with
  | [] => []
  | c :: b' => if Ascii.eqb c NUL then [] else c :: c_str b'
  end.

(** ** [sscanf(buf, "L,%f,%d", &lk, &v)]

    The C library is not part of the firmware; this is the behaviour of
    [sscanf] for the one format string the firmware uses.  A literal of the
    format must match the next input character.  [%f] and [%d] skip white
    space and then take the longest input that is a prefix of a valid item,
    failing when what was taken is not itself valid (scanf cannot give back
    more than one character).  [%f] takes an optionally signed decimal number
    with optional fraction and exponent, or [inf], [infinity] or [nan] in any
    letter case, and converts with correct rounding; hexadecimal floats are
    not taken (avr-libc).  [%d] takes an optionally signed decimal integer and
    stores it in a 16-bit [int].  The result is the number of items stored. *)

Module Scanf.

Fixpoint skip_space (s : list ascii) : list ascii :=
  match s with
  | c :: s' => if isspace c then skip_space s' else s
  | [] => []
  end.

Definition scan_sign (s : list ascii) : bool * list ascii :=
  match s with
  | c :: s' =>
      if Ascii.eqb c "-" then (true, s')
      else if Ascii.eqb c "+" then (false, s')
      else (false, s)
  | [] => (false, [])
  end.

(** Digits are accumulated into [acc]; [cnt] counts them. *)
Fixpoint scan_digits (acc cnt : Z) (s : list ascii) : Z * Z * list ascii :=
  match s with
  | c :: s' =>
      if isdigit c then scan_digits (10 * acc + digit_val c) (cnt + 1) s'
      else (acc, cnt, s)
  | [] => (acc, cnt, [])
  end.

(** Match the letters [kw] (given in lower case) in any letter case. *)
Fixpoint strip_kw (kw s : list ascii) : option (list ascii) :=
  match kw with
  | [] => Some s
  | k :: kw' =>
      match s with
      | c :: s' => if Ascii.eqb (to_lower c) k then strip_kw kw' s' else None
      | [] => None
      end
  end.

Definition scan_exponent (s : list ascii) : option (Z * list ascii) :=
  match s with
  | c :: s1 =>
      if Ascii.eqb (to_lower c) "e" then
        let '(neg, s2) := scan_sign s1 in
        let '(ev, n, s3) := scan_digits 0 0 s2 in
        if n =? 0 then None else Some (if neg : bool then - ev else ev, s3)
      else Some (0, s)
  | [] => Some (0, [])
  end.

Definition scan_decimal (neg : bool) (s : list ascii)
  : option (float32 * list ascii) :=
  let '(ip, ni, s1) := scan_digits 0 0 s in
  let '(m, nf, s2) :=
    match s1 with
    | c :: s1' => if Ascii.eqb c "." then scan_digits ip 0 s1' else (ip, 0, s1)
    | [] => (ip, 0, s1)
    end in
  if ni + nf =? 0 then None
  else match scan_exponent s2 with
       | Some (ex, s3) => Some (of_dec neg m (ex - nf), s3)
       | None => None
       end.

Definition scan_float (s : list ascii) : option (float32 * list ascii) :=
  let '(neg, s1) := scan_sign s in
  match s1 with
  | c :: s2 =>
      if Ascii.eqb (to_lower c) "i" then
        match strip_kw ["n"; "f"]%char s2 with
        | Some (d :: s4) =>
            if Ascii.eqb (to_lower d) "i" then
              match strip_kw ["n"; "i"; "t"; "y"]%char s4 with
              | Some s5 => Some (S754_infinity neg, s5)
              | None => None
              end
            else Some (S754_infinity neg, d :: s4)
        | Some [] => Some (S754_infinity neg, [])
        | None => None
        end
      else if Ascii.eqb (to_lower c) "n" then
        match strip_kw ["a"; "n"]%char s2 with
        | Some s3 => Some (S754_nan, s3)
        | None => None
        end
      else scan_decimal neg s1
  | [] => None
  end.

(** Conversion to the 16-bit two's complement [int] of the target. *)
Definition to_int16 (z : Z) : Z := (z + 32768) mod 65536 - 32768.

Definition scan_int (s : list ascii) : option (Z * list ascii) :=
  let '(neg, s1) := scan_sign s in
  let '(n, cnt, s2) := scan_digits 0 0 s1 in
  if cnt =? 0 then None
  else Some (to_int16 (if neg then - n else n), s2).

Definition lit (c : ascii) (s : list ascii) : option (list ascii) :=
  match s with
  | c' :: s' => if Ascii.eqb c' c then Some s' else None
  | [] => None
  end.

(** Returns the item count and the contents of [lk] and [v] afterwards
    ([lk0] and [v0] are their contents before the call).  Before the first
    item is stored C returns 0 or EOF; both are rendered as 0 here, the
    firmware only tests the count against 2. *)
Definition sscanf_L_f_d (s : list ascii) (lk0 : float32) (v0 : Z)
  : Z * float32 * Z :=
  match lit "L" s with
  | None => (0, lk0, v0)
  | Some s1 =>
  match lit "," s1 with
  | None => (0, lk0, v0)
  | Some s2 =>
  match scan_float (skip_space s2) with
  | None => (0, lk0, v0)
  | Some (lk, s3) =>
  match lit "," s3 with
  | None => (1, lk, v0)
  | Some s4 =>
  match scan_int (skip_space s4) with
  | None => (1, lk, v0)
  | Some (v, _) => (2, lk, v)
  end end end end end.

End Scanf.

Import Scanf.

Definition str (s : string) : list ascii := list_ascii_of_string s.

(** ** Program state

    The globals of the sketch, grouped as its comments group them, and the
    two [static] locals of [readVisionSerial]. *)

(** Feature state from Pi. *)
Record Vision := mkVision {
  lastLk : float32;          (* 0..1 *)
  lastValid : bool;
  lastVisionMs : Z           (* unsigned long *)
}.

(** [static char buf[40]; static int idx]. *)
Record RxBuf := mkRxBuf {
  buf : list ascii;
  idx : nat
}.

(** Control loop. *)
Record Control := mkControl {
  lastControlUs : Z;         (* unsigned long *)
  Kp : float32;
  Ki : float32;
  Kd : float32;
  integ : float32;
  prevE : float32;
  baseSpeed : float32
}.

Record State := mkState {
  vision : Vision;
  rx : RxBuf;
  ctl : Control
}.

Definition BUF_SIZE : nat := 40.
Definition CONTROL_DT_US : Z := 5000.
Definition BASE_MIN : float32 := centi 20.   (* 0.20f *)
Definition BASE_MAX : float32 := centi 70.   (* 0.70f *)

(** Values of the globals at reset. *)
Definition init_state : State :=
  {| vision := {| lastLk := f0_0; lastValid := false; lastVisionMs := 0 |};
     rx := {| buf := replicate BUF_SIZE NUL; idx := 0 |};
     ctl := {| lastControlUs := 0;
               Kp := centi 55; Ki := f0_0; Kd := centi 12;
               integ := f0_0; prevE := f0_0;
               baseSpeed := centi 35 |} |}.

(** Arithmetic of [unsigned long] (32 bits). *)
Definition u32 (z : Z) : Z := z mod 2 ^ 32.

Definition set_vision (v : Vision) (st : State) : State :=
  {| vision := v; rx := rx st; ctl := ctl st |}.
Definition set_rx (r : RxBuf) (st : State) : State :=
  {| vision := vision st; rx := r; ctl := ctl st |}.
Definition set_ctl (c : Control) (st : State) : State :=
  {| vision := vision st; rx := rx st; ctl := c |}.

(** ** readVisionSerial *)

Definition char_at (b : list ascii) (i : nat) : ascii := default NUL (b !! i).

(** One iteration of the [while] loop, for the byte [c] that [Serial.read]
    returned; [now] is what [millis()] returns during it. *)
Definition rx_byte (now : Z) (c : ascii) (st : State) : State :=
  let r := rx st in
  if Ascii.eqb c NL then
    let b := <[idx r := NUL]> (buf r) in
    let st1 := set_rx {| buf := b; idx := 0 |} st in
    if Ascii.eqb (char_at b 0) "L" && Ascii.eqb (char_at b 1) "," then
      let '(n, lk, v) := sscanf_L_f_d (c_str b) f0_0 0 in
      if n =? 2 then
        set_vision {| lastLk := clampf lk f0_0 f1_0;
                      lastValid := negb (v =? 0);
                      lastVisionMs := now |} st1
      else st1
    else st1
  else
    if (idx r <? BUF_SIZE - 1)%nat then
      set_rx {| buf := <[idx r := c]> (buf r); idx := S (idx r) |} st
    else
      set_rx {| buf := buf r; idx := 0 |} st.    (* overflow reset *)

(** [avail] are the bytes [Serial] has available during the call. *)
Definition readVisionSerial (now : Z) (avail : list ascii) (st : State) : State :=
  foldl (λ st c, rx_byte now c st) st avail.

(** ** computeIrError *)

Section IrSensor.
(** [analogRead(IR_PINS[i])] for [i] in 0..7, each in 0..1023. *)
Variable analogRead : Z -> Z.

(** The [for] loop, with [n] iterations left. *)
Fixpoint ir_loop (n : nat) (i : Z) (sum wsum : float32) : float32 * float32 :=
  match n with
  | O => (sum, wsum)
  | S n' =>
      let raw := analogRead i in
      let v := div (of_Z raw) f1023 in
      ir_loop n' (i + 1) (add sum v) (add wsum (mul v (of_Z i)))
  end.

(** [None] is the [false] return (line lost); [Some e] is [true] with
    [e_out = e]. *)
Definition computeIrError : option float32 :=
  let '(sum, wsum) := ir_loop 8 0 f0_0 f0_0 in
  if ltb sum f0_01 then None
  else
    let pos := div wsum sum in
    let center := f3_5 in
    let err_idx := sub pos center in
    let spacing := f0_010 in
    Some (mul err_idx spacing).
End IrSensor.

(** ** updateScheduler *)

Definition visionFresh (now : Z) (st : State) : bool :=
  u32 (now - lastVisionMs (vision st)) <? 200.

Definition useVision (now : Z) (st : State) : bool :=
  visionFresh now st && lastValid (vision st).

Definition effectiveLk (now : Z) (st : State) : float32 :=
  if useVision now st then lastLk (vision st) else f0_0.

Definition set_gains (bs kp ki kd : float32) (c : Control) : Control :=
  {| lastControlUs := lastControlUs c;
     Kp := kp; Ki := ki; Kd := kd;
     integ := integ c; prevE := prevE c;
     baseSpeed := bs |}.

Definition set_baseSpeed (bs : float32) (c : Control) : Control :=
  set_gains bs (Kp c) (Ki c) (Kd c) c.

(** [now] is what [millis()] returns. *)
Definition updateScheduler (now : Z) (st : State) : State :=
  let lk := effectiveLk now st in
  if negb (useVision now st) then
    set_ctl (set_gains (centi 30)
                       (centi 70) f0_0 (centi 10) (ctl st)) st
  else
    let c :=
      if ltb lk (centi 35) then
        set_gains (centi 25)
                  (centi 85) f0_0 (centi 10) (ctl st)
      else if ltb lk (centi 70) then
        set_gains (centi 40)
                  (centi 60) f0_0 (centi 12) (ctl st)
      else
        set_gains (centi 60)
                  (centi 45) f0_0 (centi 16) (ctl st) in
    set_ctl (set_baseSpeed (clampf (baseSpeed c) BASE_MIN BASE_MAX) c) st.

(** ** loop *)

(** What [outputMotors] is given.  [MOTOR_DRIVER_PRESENT] is [false], so the
    pair is printed ("CMD left=... right=...") and no pin is driven. *)
Record MotorCommand := mkCmd { left : float32; right : float32 }.

(** What one call of [loop] reads from the board. *)
Record Env := mkEnv {
  serial : list ascii;     (* bytes available to readVisionSerial *)
  millis_rx : Z;           (* millis() during readVisionSerial *)
  micros : Z;              (* micros() *)
  millis_sched : Z;        (* millis() in updateScheduler *)
  analog : Z -> Z          (* analogRead(IR_PINS[i]) *)
}.

(** The branch on [hasLine]: the new control state and the correction [u]. *)
Definition pid_step (hasLine : option float32) (dt : float32) (c : Control)
  : Control * float32 :=
  match hasLine with
  | None =>
      ({| lastControlUs := lastControlUs c;
          Kp := Kp c; Ki := Ki c; Kd := Kd c;
          integ := f0_0; prevE := f0_0;
          baseSpeed := mul (baseSpeed c) f0_5 |}, f0_0)
  | Some e =>
      let integ' := add (integ c) (mul e dt) in
      let de := div (sub e (prevE c)) dt in
      ({| lastControlUs := lastControlUs c;
          Kp := Kp c; Ki := Ki c; Kd := Kd c;
          integ := integ'; prevE := e;
          baseSpeed := baseSpeed c |},
       add (add (mul (Kp c) e) (mul (Ki c) integ')) (mul (Kd c) de))
  end.

(** The wheel commands from the base speed and the correction. *)
Definition mix (bs u : float32) : MotorCommand :=
  let l := sub bs u in
  let r := add bs u in
  {| left := clampf l (SFopp f1_0) f1_0;
     right := clampf r (SFopp f1_0) f1_0 |}.

Definition set_lastControlUs (t : Z) (c : Control) : Control :=
  {| lastControlUs := t;
     Kp := Kp c; Ki := Ki c; Kd := Kd c;
     integ := integ c; prevE := prevE c;
     baseSpeed := baseSpeed c |}.

(** One call of [loop]: the new state and what was sent to [outputMotors],
    if anything. *)
Definition loop (env : Env) (st : State) : State * option MotorCommand :=
  let st1 := readVisionSerial (millis_rx env) (serial env) st in
  let nowUs := micros env in
  if u32 (nowUs - lastControlUs (ctl st1)) <? CONTROL_DT_US then (st1, None)
  else
    let dt := div (of_Z (u32 (nowUs - lastControlUs (ctl st1)))) f1e6 in
    let st2 := set_ctl (set_lastControlUs nowUs (ctl st1)) st1 in
    let st3 := updateScheduler (millis_sched env) st2 in
    let hasLine := computeIrError (analog env) in
    let '(c, u) := pid_step hasLine dt (ctl st3) in
    (set_ctl c st3, Some (mix (baseSpeed c) u)).

(** ** Motor output

    The pins, and what the sketch does to the board as a list of events in
    the order of the calls. *)

Definition STBY : Z := 8.
Definition AIN1 : Z := 7.
Definition AIN2 : Z := 6.
Definition PWMA : Z := 5.
Definition BIN1 : Z := 4.
Definition BIN2 : Z := 3.
Definition PWMB : Z := 9.

(** Set false if motors are not connected; commands will print instead. *)
Definition MOTOR_DRIVER_PRESENT : bool := false.

Inductive Level := LOW | HIGH.

Inductive Event :=
  | SerialBegin (baud : Z)
  | PinModeOutput (pin : Z)
  | DigitalWrite (pin : Z) (v : Level)
  | AnalogWrite (pin : Z) (duty : Z)
  | SerialPrint (s : string)
  | SerialPrintFloat (x : float32) (digits : Z)
  | SerialPrintlnFloat (x : float32) (digits : Z).

(** [(int)x] for a [float] [x]: the fraction is discarded; the conversion is
    undefined ([None]) when [x] is not a number, is infinite, or has an
    integral part outside the 16-bit [int]. *)
Definition float_to_int (x : float32) : option Z :=
  match x with
  | S754_zero _ => Some 0
  | S754_finite s m e =>
      let t := if 0 <=? e then Zpos m * 2 ^ e else Zpos m / 2 ^ (- e) in
      let z := if s then - t else t in
      if (-32768 <=? z) && (z <=? 32767) then Some z else None
  | _ => None
  end.

(** The events of one call, or [None] when the conversion of the duty to
    [int] is undefined (it is made before anything is written). *)
Definition setMotor (IN1 IN2 PWM : Z) (cmd : float32) : option (list Event) :=
  let cmd := clampf cmd (SFopp f1_0) f1_0 in
  match float_to_int (mul (SFabs cmd) (of_Z 255)) with
  | None => None
  | Some duty =>
      Some ((if leb (of_Z 0) cmd
             then [DigitalWrite IN1 HIGH; DigitalWrite IN2 LOW]
             else [DigitalWrite IN1 LOW; DigitalWrite IN2 HIGH])
            ++ [AnalogWrite PWM duty])
  end.

(** [outputMotors] for either setting of the configuration constant:
    [present] stands for [MOTOR_DRIVER_PRESENT]. *)
Definition outputMotors_cfg (present : bool) (l r : float32)
  : option (list Event) :=
  if negb present then
    Some [SerialPrint "CMD left="; SerialPrintFloat l 3;
          SerialPrint " right="; SerialPrintlnFloat r 3]
  else
    match setMotor AIN1 AIN2 PWMA l with
    | None => None
    | Some a =>
        match setMotor BIN1 BIN2 PWMB r with
        | None => None
        | Some b => Some (DigitalWrite STBY HIGH :: a ++ b)
        end
    end.

Definition outputMotors : float32 -> float32 -> option (list Event) :=
  outputMotors_cfg MOTOR_DRIVER_PRESENT.

Definition setup : list Event :=
  [SerialBegin 115200;
   PinModeOutput STBY;
   PinModeOutput AIN1; PinModeOutput AIN2; PinModeOutput PWMA;
   PinModeOutput BIN1; PinModeOutput BIN2; PinModeOutput PWMB;
   DigitalWrite STBY HIGH].

(** The output of one call of [loop]. *)
Definition loop_events (env : Env) (st : State) : option (list Event) :=
  match snd (loop env st) with
  | None => Some []
  | Some c => outputMotors (left c) (right c)
  end.

(** ** Notions the properties are stated with *)

(** The control tick runs in this call of [loop]. *)
Definition tick_due (env : Env) (st : State) : bool :=
  negb (u32 (micros env - lastControlUs (ctl st)) <? CONTROL_DT_US).

(** [dt] of the tick. *)
Definition tick_dt (env : Env) (st : State) : float32 :=
  div (of_Z (u32 (micros env - lastControlUs (ctl st)))) f1e6.

(** The state in which the PID step of a tick starts: serial input read,
    tick time recorded, gains scheduled. *)
Definition scheduled_state (env : Env) (st : State) : State :=
  let st1 := readVisionSerial (millis_rx env) (serial env) st in
  updateScheduler (millis_sched env)
    (set_ctl (set_lastControlUs (micros env) (ctl st1)) st1).

Definition scheduled (env : Env) (st : State) : Control :=
  ctl (scheduled_state env st).

(** Sensor readings: no line under any sensor, and a line under the two
    middle sensors. *)
Definition all_dark : Z -> Z := λ _, 0.
Definition centred : Z -> Z := λ i, if (i =? 3) || (i =? 4) then 1023 else 0.

(** Running [loop] once per element of [envs]. *)
Definition run (envs : list Env) (st : State) : State :=
  foldl (λ st env, fst (loop env st)) st envs.

(** The analog inputs are 10-bit conversions. *)
Definition board_ok (env : Env) : Prop :=
  forall i, 0 <= analog env i <= 1023.

(** States the firmware can be in: after any number of calls of [loop] from
    reset, whatever bytes and clock values the board supplies. *)
Inductive reachable : State -> Prop :=
  | reach_init : reachable init_state
  | reach_loop env st :
      board_ok env -> reachable st -> reachable (fst (loop env st)).

(** The magnitude of a float is at most [2^k]. *)
Definition bounded_by (k : Z) (x : float32) : Prop :=
  match x with
  | S754_zero _ => True
  | S754_finite _ m e => Zpos m <= 2 ^ (k - e)
  | _ => False
  end.

(** The magnitude of a float is at least [2^k]. *)
Definition at_least (k : Z) (x : float32) : Prop :=
  match x with
  | S754_finite _ m e => 2 ^ (k - e) <= Zpos m
  | _ => False
  end.

(** The text in the buffer when the newline of the line [l] arrives: the
    bytes after the last overflow reset. *)
Definition buffered (l : list ascii) : list ascii :=
  drop (length l - length l mod (BUF_SIZE))%nat l.

(** The test the newline branch makes on the buffered text [t]: the two
    prefix characters, then the two converted fields. *)
Definition has_prefix (t : list ascii) : bool :=
  match t with
  | c0 :: c1 :: _ => Ascii.eqb c0 "L" && Ascii.eqb c1 ","
  | _ => false
  end.

Definition accepted (t : list ascii) : option (float32 * Z) :=
  if has_prefix t
  then match sscanf_L_f_d (c_str t) f0_0 0 with
       | (2, lk, v) => Some (lk, v)
       | _ => None
       end
  else None.

(** A line is malformed when it has the wrong prefix or its fields do not
    convert. *)
Definition malformed (t : list ascii) : Prop := accepted t = None.

(** The sample a successfully parsed line [(lk, v)] leaves. *)
Definition sample_of (now : Z) (lk : float32) (v : Z) : Vision :=
  {| lastLk := clampf lk f0_0 f1_0; lastValid := negb (v =? 0); lastVisionMs := now |}.

Definition ingest (now : Z) (t : list ascii) (vs : Vision) : Vision :=
  match accepted t with
  | Some (lk, v) => sample_of now lk v
  | None => vs
  end.

(** The receive buffer is well formed: 40 bytes, write index inside. *)
Definition rx_ok (st : State) : Prop :=
  length (buf (rx st)) = BUF_SIZE /\ (idx (rx st) < BUF_SIZE)%nat.


(** A state whose vision sample has lookahead 0.80 and the given stamp. *)
Definition stamped (t : Z) (valid : bool) : State :=
  set_vision {| lastLk := centi 80; lastValid := valid; lastVisionMs := t |}
             init_state.

(** The three bands of the scheduler. *)
Definition band_low (c : Control) : Prop :=
  baseSpeed c = centi 25 /\ Kp c = centi 85 /\ Ki c = f0_0 /\ Kd c = centi 10.
Definition band_mid (c : Control) : Prop :=
  baseSpeed c = centi 40 /\ Kp c = centi 60 /\ Ki c = f0_0 /\ Kd c = centi 12.
Definition band_high (c : Control) : Prop :=
  baseSpeed c = centi 60 /\ Kp c = centi 45 /\ Ki c = f0_0 /\ Kd c = centi 16.

(** A line longer than the buffer whose last 7 bytes are a message. *)
Definition overlong_example : list ascii :=
  replicate 40 "x"%char ++ str "L,0.5,1".

(** Three calls of [loop], 5 ms apart, with no vision input: the first
    sees the line, the next two do not. *)
Definition tick_tracked : Env := mkEnv [] 5 5000 5 centred.
Definition tick_lost_1 : Env := mkEnv [] 10 10000 10 all_dark.

(** ** Further notions *)

(** Lines as they travel on the serial link: each followed by a newline. *)
Definition frame (ls : list (list ascii)) : list ascii :=
  flat_map (λ l, l ++ [NL]) ls.

(** The stored lookahead is a number in 0..1, as the comment at its
    declaration says, or it is not a number at all. *)
Definition lk_in_unit_or_nan (v : Vision) : Prop :=
  is_nan (lastLk v) = true
  \/ (leb f0_0 (lastLk v) = true /\ leb (lastLk v) f1_0 = true).

(** The safe-mode profile. *)
Definition safe_mode (c : Control) : Prop :=
  baseSpeed c = centi 30 /\ Kp c = centi 70 /\ Ki c = f0_0 /\ Kd c = centi 10.

(** The gain sets and base speeds the firmware ever holds: the values at
    reset, the four profiles of [updateScheduler], and the halves of the
    four scheduled speeds. *)
Definition gain_sets : list (float32 * float32 * float32) :=
  [(centi 55, f0_0, centi 12);
   (centi 70, f0_0, centi 10); (centi 85, f0_0, centi 10);
   (centi 60, f0_0, centi 12); (centi 45, f0_0, centi 16)].

Definition base_speeds : list float32 :=
  [centi 35; centi 30; centi 25; centi 40; centi 60;
   centi 15; of_dec false 125 (-3); centi 20].

(** A call of [loop] that receives one line and runs the tick. *)
Definition tick_with_line (l : string) : Env :=
  mkEnv (str l ++ [NL]) 5 5000 5 centred.

(** Sensor readings with the line under sensor [i] only, at reading [r]. *)
Definition single_lit (i r : Z) : Z -> Z := λ j, if j =? i then r else 0.

(** The lateral error of sensor position [i] in metres:
    [(i - 3.5) * 0.010], as a rational. *)
Definition nominal_error (i : Z) : Q := (2 * i - 7) # 200.

(** The integers [0 .. n-1]. *)
Definition upto (n : nat) : list Z := map Z.of_nat (seq 0 n).

(** The check on the result [o] of [computeIrError] for one lit sensor:
    lost up to reading 10, and from 11 on a finite error within 10^-8 of
    the nominal one. *)
Definition sensor_check (i r : Z) (o : option float32) : bool :=
  match o with
  | None => r <=? 10
  | Some e =>
      (11 <=? r) && is_finite e
      && Qle_bool (nominal_error i - (1 # 100000000)) (to_Q e)
      && Qle_bool (to_Q e) (nominal_error i + (1 # 100000000))
  end.

(** The pins an event list writes to, and the pins it makes outputs. *)
Definition written_pins (evs : list Event) : list Z :=
  flat_map (λ ev, match ev with
                  | DigitalWrite p _ | AnalogWrite p _ => [p]
                  | _ => []
                  end) evs.

Definition output_pins (evs : list Event) : list Z :=
  flat_map (λ ev, match ev with PinModeOutput p => [p] | _ => [] end) evs.

(** The magnitude of a float is at most the integer [Y], on a float whose
    exponent is not positive. *)
Definition magnitude_le (Y : Z) (x : float32) : Prop :=
  match x with
  | S754_zero _ => True
  | S754_finite _ m e => e <= 0 /\ Zpos m <= Y * 2 ^ (- e)
  | _ => False
  end.

(** A float is a binary32 datum: its mantissa and exponent are in the
    canonical form of the format (zeros, infinities and NaN always are). *)
Definition is_binary32 (x : float32) : Prop := valid_binary prec emax x = true.

(** Every float of the state is a binary32 datum. *)
Definition state_binary32 (st : State) : Prop :=
  is_binary32 (lastLk (vision st))
  /\ is_binary32 (Kp (ctl st)) /\ is_binary32 (Ki (ctl st))
  /\ is_binary32 (Kd (ctl st))
  /\ is_binary32 (integ (ctl st)) /\ is_binary32 (prevE (ctl st))
  /\ is_binary32 (baseSpeed (ctl st)).

(** A float that is zero or a positive finite number. *)
Definition nonneg (x : float32) : Prop :=
  match x with
  | S754_zero _ | S754_finite false _ _ => True
  | _ => False
  end.

(** The sum of the readings of the [n] sensors from [i] on. *)
Fixpoint total (analogRead : Z -> Z) (n : nat) (i : Z) : Z :=
  match n with
  | O => 0
  | S n' => analogRead i + total analogRead n' (i + 1)
  end.

(** Exhaustive check that the line is reported lost: [sum] is the
    accumulator of [computeIrError] so far, [n] sensors are still to be
    read, and their readings total at most [budget]. *)
Fixpoint lost_check (n budget : nat) (sum : float32) : bool :=
  match n with
  | O => ltb sum f0_01
  | S n' =>
      forallb (λ r, lost_check n' (budget - r)
                      (add sum (div (of_Z (Z.of_nat r)) f1023)))
              (seq 0 (S budget))
  end.

(** * Properties *)

(** ** Comparison and clamping of floats *)

Section FloatOrder.
Implicit Types x y lo hi : float32.

Lemma compare_antisym x y :
  SFcompare y x = option_map CompOpp (SFcompare x y).
Proof.
  destruct x as [sx|sx| |sx mx ex], y as [sy|sy| |sy my ey]; simpl;
    try reflexivity; try (destruct sx; reflexivity); try (destruct sy; reflexivity);
    try (destruct sx, sy; reflexivity).
  destruct sx, sy; simpl; try reflexivity;
    rewrite (Z.compare_antisym ex ey);
    destruct (ex ?= ey); simpl; try reflexivity;
    rewrite (Pos.compare_cont_antisym mx my Eq); reflexivity.
Qed.

Lemma compare_refl x : is_nan x = false -> SFcompare x x = Some Eq.
Proof.
  destruct x as [s|s| |s m e]; simpl; intros H; try discriminate;
    try (destruct s; reflexivity).
  rewrite Z.compare_refl.
  change (Pos.compare_cont Eq m m) with (Pos.compare m m).
  rewrite Pos.compare_refl. destruct s; reflexivity.
Qed.

Lemma compare_some x y :
  is_nan x = false -> is_nan y = false -> exists c, SFcompare x y = Some c.
Proof.
  destruct x, y; simpl; intros Hx Hy; try discriminate; eauto.
Qed.

Lemma leb_refl x : is_nan x = false -> leb x x = true.
Proof. intros H. unfold leb, SFleb. now rewrite compare_refl. Qed.

Lemma ltb_false_leb x y :
  is_nan x = false -> is_nan y = false -> ltb x y = false -> leb y x = true.
Proof.
  intros Hx Hy. unfold ltb, leb, SFltb, SFleb.
  rewrite (compare_antisym x y).
  destruct (compare_some x y Hx Hy) as [c ->].
  destruct c; simpl; congruence.
Qed.

Lemma leb_ltb_false x y : leb y x = true -> ltb x y = false.
Proof.
  unfold ltb, leb, SFltb, SFleb. rewrite (compare_antisym x y).
  destruct (SFcompare x y) as [[]|]; simpl; congruence.
Qed.

Lemma leb_not_nan x y : leb x y = true -> is_nan x = false /\ is_nan y = false.
Proof.
  unfold leb, SFleb. destruct x, y; simpl; try discriminate; auto.
Qed.

Lemma clampf_nan lo hi : clampf S754_nan lo hi = S754_nan.
Proof. destruct lo, hi; reflexivity. Qed.

(** [clampf] returns one of its three arguments. *)
Lemma clampf_cases x lo hi :
  (ltb x lo = true /\ clampf x lo hi = lo)
  \/ (ltb x lo = false /\ ltb hi x = true /\ clampf x lo hi = hi)
  \/ (ltb x lo = false /\ ltb hi x = false /\ clampf x lo hi = x).
Proof.
  unfold clampf. destruct (ltb x lo), (ltb hi x); auto.
Qed.

(** On a number, [clampf] lands in the interval. *)
Lemma clampf_range x lo hi :
  is_nan x = false -> leb lo hi = true ->
  leb lo (clampf x lo hi) = true /\ leb (clampf x lo hi) hi = true.
Proof.
  intros Hx Hlh. destruct (leb_not_nan _ _ Hlh) as [Hlo Hhi].
  destruct (clampf_cases x lo hi) as [[_ ->]|[(_ & _ & ->)|(H1 & H2 & ->)]].
  - split; [now apply leb_refl | exact Hlh].
  - split; [exact Hlh | now apply leb_refl].
  - split; now apply ltb_false_leb.
Qed.

(** Inside the interval [clampf] changes nothing. *)
Lemma clampf_inside x lo hi :
  leb lo x = true -> leb x hi = true -> clampf x lo hi = x.
Proof.
  intros H1 H2. unfold clampf.
  now rewrite (leb_ltb_false _ _ H1), (leb_ltb_false _ _ H2).
Qed.
End FloatOrder.

(** ** Magnitude of float results *)

Section Pow2.

Lemma pow2_pos k : 0 <= k -> 0 < 2 ^ k.
Proof. intros. apply Z.pow_pos_nonneg; lia. Qed.

Lemma pow2_neg k : k < 0 -> 2 ^ k = 0.
Proof. intros. apply Z.pow_neg_r. lia. Qed.

Lemma pow2_nonneg k : 0 <= 2 ^ k.
Proof. apply Z.pow_nonneg. lia. Qed.

Lemma pow2_split a b : 0 <= a -> 0 <= b -> 2 ^ (a + b) = 2 ^ a * 2 ^ b.
Proof. intros. now apply Z.pow_add_r. Qed.

Lemma pow2_mono a b : 0 <= a <= b -> 2 ^ a <= 2 ^ b.
Proof. intros. apply Z.pow_le_mono_r; lia. Qed.

Lemma pow2_mono_any a b : a <= b -> 2 ^ a <= 2 ^ b.
Proof.
  intros H. destruct (Z.lt_ge_cases a 0) as [Ha|Ha].
  - rewrite (pow2_neg a Ha). apply pow2_nonneg.
  - apply pow2_mono. lia.
Qed.

(** From [m >= 1] and [m <= 2^j] (or [m < 2^j]) the exponent is not negative. *)
Lemma pow2_exp_nonneg m j : 0 < m -> m <= 2 ^ j -> 0 <= j.
Proof.
  intros Hm H. destruct (Z.lt_ge_cases j 0) as [Hj|Hj]; [|exact Hj].
  rewrite (pow2_neg j Hj) in H. lia.
Qed.

Lemma pow2_exp_nonneg_lt m j : 0 <= m -> m < 2 ^ j -> 0 <= j.
Proof.
  intros Hm H. destruct (Z.lt_ge_cases j 0) as [Hj|Hj]; [|exact Hj].
  rewrite (pow2_neg j Hj) in H. lia.
Qed.

Lemma div_pow2_lt m a n : 0 <= n -> 0 <= a -> m < 2 ^ (a + n) -> m / 2 ^ n < 2 ^ a.
Proof.
  intros Hn Ha H. apply Z.div_lt_upper_bound; [now apply pow2_pos|].
  rewrite pow2_split in H by assumption. lia.
Qed.

Lemma div_pow2_le m a n : 0 <= n -> 0 <= a -> m <= 2 ^ (a + n) -> m / 2 ^ n <= 2 ^ a.
Proof.
  intros Hn Ha H. rewrite pow2_split in H by assumption.
  apply Z.div_le_upper_bound; [now apply pow2_pos | lia].
Qed.

Lemma digits2_pos_size p : digits2_pos p = Pos.size p.
Proof. induction p; simpl; congruence. Qed.

Lemma digits_gt p : Zpos p < 2 ^ Zpos (digits2_pos p).
Proof.
  rewrite digits2_pos_size. pose proof (Pos.size_gt p) as H.
  apply Pos2Z.pos_lt_pos in H. now rewrite Pos2Z.inj_pow in H.
Qed.

Lemma digits_le p : 2 ^ (Zpos (digits2_pos p) - 1) <= Zpos p.
Proof.
  rewrite digits2_pos_size. pose proof (Pos.size_le p) as H.
  apply Pos2Z.pos_le_pos in H. rewrite Pos2Z.inj_pow in H.
  replace (Zpos (Pos.size p)) with (Zpos (Pos.size p) - 1 + 1) in H by lia.
  rewrite pow2_split in H by lia. change (2 ^ 1) with 2 in H. lia.
Qed.

Lemma Zdigits2_nonneg m : 0 <= Zdigits2 m.
Proof. destruct m; simpl; lia. Qed.

(** [m] has at most [j] binary digits when [m < 2^j]. *)
Lemma Zdigits2_le m j : 0 <= m -> m < 2 ^ j -> Zdigits2 m <= j.
Proof.
  intros Hm H. pose proof (pow2_exp_nonneg_lt m j Hm H) as Hj.
  destruct m as [|p|p]; simpl; [lia| |lia].
  destruct (Z.le_gt_cases (Zpos (digits2_pos p)) j) as [?|Hgt]; [assumption|].
  pose proof (digits_le p). pose proof (pow2_mono j (Zpos (digits2_pos p) - 1)). lia.
Qed.

Lemma Zdigits2_ge m j : 2 ^ j <= m -> 0 <= j -> j + 1 <= Zdigits2 m.
Proof.
  intros H Hj. pose proof (pow2_pos j Hj).
  destruct m as [|p|p]; simpl; try lia.
  pose proof (digits_gt p).
  destruct (Z.le_gt_cases (j + 1) (Zpos (digits2_pos p))) as [?|Hgt]; [assumption|].
  pose proof (pow2_mono (Zpos (digits2_pos p)) j). lia.
Qed.

End Pow2.

Section Shift.

Lemma iter_pos_nat {A} (f : A -> A) (n : positive) (x : A) :
  SpecFloat.iter_pos f n x = Nat.iter (Pos.to_nat n) f x.
Proof.
  revert x. induction n as [n IH|n IH|]; intros x; cbn [SpecFloat.iter_pos].
  - rewrite !IH, Pos2Nat.inj_xI.
    replace (S (2 * Pos.to_nat n))%nat with (Pos.to_nat n + (Pos.to_nat n + 1))%nat by lia.
    now rewrite !Nat.iter_add.
  - rewrite !IH, Pos2Nat.inj_xO.
    replace (2 * Pos.to_nat n)%nat with (Pos.to_nat n + Pos.to_nat n)%nat by lia.
    now rewrite Nat.iter_add.
  - reflexivity.
Qed.

Lemma shr_1_spec mrs :
  0 <= shr_m mrs ->
  shr_m (shr_1 mrs) = shr_m mrs / 2 /\ shr_r (shr_1 mrs) = Z.odd (shr_m mrs).
Proof.
  destruct mrs as [m r s]. simpl. intros Hm.
  destruct m as [|[p|p|]|p]; simpl; try lia; split; try reflexivity.
  - change (Zpos p~1) with (2 * Zpos p + 1).
    apply Z.div_unique with (r := 1); lia.
  - change (Zpos p~0) with (2 * Zpos p).
    apply Z.div_unique with (r := 0); lia.
Qed.

Lemma shr_nat_spec n mrs :
  0 <= shr_m mrs ->
  shr_m (Nat.iter n shr_1 mrs) = shr_m mrs / 2 ^ Z.of_nat n
  /\ (0 < n -> shr_r (Nat.iter n shr_1 mrs)
               = Z.odd (shr_m mrs / 2 ^ (Z.of_nat n - 1)))%nat.
Proof.
  intros Hm. induction n as [|n [IHm IHr]].
  - simpl. rewrite Z.div_1_r. split; [reflexivity | lia].
  - change (Nat.iter (S n) shr_1 mrs) with (shr_1 (Nat.iter n shr_1 mrs)).
    assert (0 <= shr_m (Nat.iter n shr_1 mrs)) as Hpos.
    { rewrite IHm. apply Z.div_pos; [assumption | apply pow2_pos; lia]. }
    destruct (shr_1_spec _ Hpos) as [-> ->]. rewrite IHm.
    replace (Z.of_nat (S n)) with (Z.of_nat n + 1) by lia.
    split.
    + rewrite pow2_split by lia. change (2 ^ 1) with 2.
      rewrite Z.div_div; [reflexivity | | lia].
      pose proof (pow2_pos (Z.of_nat n)); lia.
    + intros _. now replace (Z.of_nat n + 1 - 1) with (Z.of_nat n) by lia.
Qed.

(** [shr] by [n] places: the mantissa is divided by [2^n], the exponent
    raised by [n], and the round bit is the last bit shifted out. *)
Lemma shr_spec mrs e n :
  0 <= shr_m mrs ->
  let r := shr mrs e n in
  shr_m (fst r) = shr_m mrs / 2 ^ Z.max n 0
  /\ snd r = e + Z.max n 0
  /\ (0 < n -> shr_r (fst r) = Z.odd (shr_m mrs / 2 ^ (n - 1))).
Proof.
  intros Hm. destruct n as [|p|p]; cbn [shr fst snd].
  - rewrite Z.div_1_r. repeat split; lia.
  - rewrite iter_pos_nat.
    destruct (shr_nat_spec (Pos.to_nat p) mrs Hm) as [H1 H2].
    rewrite positive_nat_Z in *.
    replace (Z.max (Zpos p) 0) with (Zpos p) by lia.
    repeat split; [exact H1|]. intros _. apply H2. lia.
  - change (Z.max (Zneg p) 0) with 0. rewrite Z.div_1_r. repeat split; lia.
Qed.

Lemma shr_m_of_loc m l : shr_m (shr_record_of_loc m l) = m.
Proof. destruct l as [|[]]; reflexivity. Qed.

Lemma round_nearest_even_range m l :
  m <= round_nearest_even m l <= m + 1.
Proof.
  destruct l as [|[]]; simpl; try lia. destruct (Z.even m); lia.
Qed.

(** Without a round bit the mantissa is rounded down. *)
Lemma round_nearest_even_down mrs :
  shr_r mrs = false ->
  round_nearest_even (shr_m mrs) (loc_of_shr_record mrs) = shr_m mrs.
Proof. destruct mrs as [m [] []]; simpl; congruence. Qed.

End Shift.

Section Rounding32.

Lemma fexp32 x : fexp prec emax x = Z.max (x - 24) (-149).
Proof. reflexivity. Qed.

Lemma bounded_by_mono k k' x : k <= k' -> bounded_by k x -> bounded_by k' x.
Proof.
  intros Hk. destruct x as [| | |s m e]; simpl; trivial.
  intros H. pose proof (pow2_exp_nonneg _ _ (Pos2Z.is_pos m) H).
  pose proof (pow2_mono (k - e) (k' - e)). lia.
Qed.

Lemma bounded_by_finite k x : bounded_by k x -> is_finite x = true.
Proof. destruct x; simpl; trivial; contradiction. Qed.

Lemma shr_fexp_spec m e l :
  0 <= m ->
  let r := shr_fexp prec emax m e l in
  let n := fexp prec emax (Zdigits2 m + e) - e in
  shr_m (fst r) = m / 2 ^ Z.max n 0
  /\ snd r = e + Z.max n 0
  /\ (0 < n -> shr_r (fst r) = Z.odd (m / 2 ^ (n - 1))).
Proof.
  intros Hm. cbv zeta. unfold shr_fexp.
  pose proof (shr_spec (shr_record_of_loc m l) e
                (fexp prec emax (Zdigits2 m + e) - e)) as H.
  rewrite shr_m_of_loc in H. apply H, Hm.
Qed.

(** Rounding a value below [2^k] gives at most [2^k], and no overflow. *)
Lemma round_aux_bound s m e l k :
  0 <= m -> m < 2 ^ (k - e) -> e <= 104 -> -149 <= k <= 127 ->
  bounded_by k (binary_round_aux prec emax s m e l).
Proof.
  intros Hm Hlt He Hk. unfold binary_round_aux.
  pose proof (pow2_exp_nonneg_lt _ _ Hm Hlt) as Hke.
  pose proof (Zdigits2_le _ _ Hm Hlt) as Hd.
  pose proof (shr_fexp_spec m e l Hm) as S1. cbv zeta in S1.
  destruct (shr_fexp prec emax m e l) as [mrs1 e1]. cbn [fst snd] in S1.
  destruct S1 as (Hm1 & He1 & _). rewrite fexp32 in Hm1, He1.
  set (N := Z.max (Z.max (Zdigits2 m + e - 24) (-149) - e) 0) in *.
  assert (0 <= N) as HN by lia.
  assert (e1 <= k /\ e1 <= 104) as [He1k He1m] by lia.
  assert (0 <= shr_m mrs1 < 2 ^ (k - e1)) as Hm1r.
  { rewrite Hm1. split; [apply Z.div_pos; [lia | now apply pow2_pos]|].
    apply div_pow2_lt; [lia | lia |].
    now replace (k - e1 + N) with (k - e) by lia. }
  set (m2 := round_nearest_even (shr_m mrs1) (loc_of_shr_record mrs1)).
  pose proof (round_nearest_even_range (shr_m mrs1) (loc_of_shr_record mrs1)) as Hm2.
  fold m2 in Hm2.
  assert (0 <= m2 <= 2 ^ (k - e1)) as Hm2r by lia.
  assert (Zdigits2 m2 <= k - e1 + 1) as Hd2.
  { apply Zdigits2_le; [lia|]. rewrite pow2_split by lia.
    change (2 ^ 1) with 2. lia. }
  pose proof (shr_fexp_spec m2 e1 loc_Exact (proj1 Hm2r)) as S3. cbv zeta in S3.
  destruct (shr_fexp prec emax m2 e1 loc_Exact) as [mrs3 e3]. cbn [fst snd] in S3.
  destruct S3 as (Hm3 & He3 & _). rewrite fexp32 in Hm3, He3.
  set (N2 := Z.max (Z.max (Zdigits2 m2 + e1 - 24) (-149) - e1) 0) in *.
  assert (0 <= N2) as HN2 by lia.
  assert (e3 <= k /\ e3 <= 104) as [He3k He3m] by lia.
  assert (0 <= shr_m mrs3 <= 2 ^ (k - e3)) as Hm3r.
  { rewrite Hm3. split; [apply Z.div_pos; [lia | now apply pow2_pos]|].
    apply div_pow2_le; [lia | lia |].
    now replace (k - e3 + N2) with (k - e1) by lia. }
  destruct (shr_m mrs3) as [|p|p]; [exact I | | lia].
  change (emax - prec) with 104.
  destruct (Z.leb_spec e3 104) as [_|?]; [|lia].
  simpl. lia.
Qed.

(** A value from [2^K] up to, but less than, [2^K + 2^(K-24)] rounds to
    [2^K] exactly. *)
Lemma round_aux_pow2 s m e K :
  let n := K - 23 - e in
  0 < n -> 2 ^ (23 + n) <= m -> 2 * m < 2 ^ (24 + n) + 2 ^ n ->
  -126 <= K <= 127 ->
  binary_round_aux prec emax s m e loc_Exact = S754_finite s 8388608 (K - 23).
Proof.
  cbv zeta. intros Hn Hlo Hhi HK. unfold binary_round_aux.
  set (n := K - 23 - e) in *.
  pose proof (pow2_pos n ltac:(lia)) as Hpn.
  pose proof (pow2_pos (n - 1) ltac:(lia)) as Hpn1.
  assert (2 ^ n = 2 * 2 ^ (n - 1)) as En.
  { replace n with (1 + (n - 1)) at 1 by lia. now rewrite pow2_split by lia. }
  assert (2 ^ (23 + n) = 8388608 * 2 ^ n) as E23.
  { now rewrite pow2_split by lia. }
  assert (2 ^ (24 + n) = 16777216 * 2 ^ n) as E24.
  { now rewrite pow2_split by lia. }
  assert (0 <= m) as Hm by lia.
  assert (Zdigits2 m = 24 + n) as Hd.
  { apply Z.le_antisymm.
    - apply Zdigits2_le; lia.
    - replace (24 + n) with (23 + n + 1) by lia. apply Zdigits2_ge; lia. }
  pose proof (shr_fexp_spec m e loc_Exact Hm) as S1. cbv zeta in S1.
  destruct (shr_fexp prec emax m e loc_Exact) as [mrs1 e1]. cbn [fst snd] in S1.
  rewrite fexp32, Hd in S1.
  replace (Z.max (24 + n + e - 24) (-149) - e) with n in S1 by lia.
  replace (Z.max n 0) with n in S1 by lia.
  destruct S1 as (Hm1 & He1 & Hr1). specialize (Hr1 Hn).
  assert (m / 2 ^ n = 8388608) as Eq1.
  { symmetry. apply Z.div_unique with (r := m - 8388608 * 2 ^ n); lia. }
  assert (m / 2 ^ (n - 1) = 16777216) as Eq2.
  { symmetry. apply Z.div_unique with (r := m - 16777216 * 2 ^ (n - 1)); lia. }
  rewrite Eq1 in Hm1. rewrite Eq2 in Hr1. change (Z.odd 16777216) with false in Hr1.
  rewrite (round_nearest_even_down mrs1 Hr1), Hm1.
  assert (e1 = K - 23) as -> by lia.
  unfold shr_fexp. rewrite fexp32. change (Zdigits2 8388608) with 24.
  replace (Z.max (24 + (K - 23) - 24) (-149) - (K - 23)) with 0 by lia.
  cbn [shr shr_record_of_loc shr_m].
  change (emax - prec) with 104.
  destruct (Z.leb_spec (K - 23) 104) as [_|?]; [reflexivity | lia].
Qed.

End Rounding32.

Section Arith32.
Implicit Types x y : float32.

Lemma iter_xO m d : Zpos (Pos.iter xO m d) = Zpos m * 2 ^ Zpos d.
Proof.
  induction d as [|d IH] using Pos.peano_ind.
  - cbn [Pos.iter]. rewrite Pos2Z.inj_xO. change (2 ^ 1) with 2. lia.
  - rewrite Pos.iter_succ, Pos2Z.inj_xO, IH, Pos2Z.inj_succ, Z.pow_succ_r; lia.
Qed.

Lemma shl_align_spec mx ex ex' :
  snd (shl_align mx ex ex') = Z.min ex ex'
  /\ Zpos (fst (shl_align mx ex ex')) = Zpos mx * 2 ^ (ex - Z.min ex ex').
Proof.
  unfold shl_align. destruct (ex' - ex) as [|d|d] eqn:E; cbn [fst snd].
  - replace (Z.min ex ex') with ex by lia. rewrite Z.sub_diag. lia.
  - replace (Z.min ex ex') with ex by lia. rewrite Z.sub_diag. lia.
  - replace (Z.min ex ex') with ex' by lia.
    replace (ex - ex') with (Zpos d) by lia. split; [reflexivity | apply iter_xO].
Qed.

Lemma binary_round_bound s m e k :
  Zpos m < 2 ^ (k - e) -> -149 <= k <= 127 ->
  bounded_by k (binary_round prec emax s m e).
Proof.
  intros Hlt Hk. unfold binary_round.
  pose proof (pow2_exp_nonneg_lt _ _ (Pos2Z.pos_is_nonneg m) Hlt) as Hke.
  pose proof (Zdigits2_le _ _ (Pos2Z.pos_is_nonneg m) Hlt) as Hd.
  cbn [Zdigits2] in Hd.
  destruct (shl_align_spec m e (fexp prec emax (Zpos (digits2_pos m) + e)))
    as [Hez Hmz].
  destruct (shl_align m e _) as [mz ez]. cbn [fst snd] in *.
  rewrite fexp32 in Hez, Hmz.
  apply round_aux_bound; [lia | | lia | exact Hk].
  rewrite Hmz, <- Hez.
  replace (k - ez) with (k - e + (e - ez)) by lia.
  rewrite pow2_split by lia.
  pose proof (pow2_pos (e - ez) ltac:(lia)). nia.
Qed.

Lemma binary_round_pow2 s m e K :
  e <= K - 24 -> 2 ^ (K - e) <= Zpos m ->
  2 * Zpos m < 2 ^ (K - e + 1) + 2 ^ (K - 23 - e) ->
  -126 <= K <= 127 ->
  binary_round prec emax s m e = S754_finite s 8388608 (K - 23).
Proof.
  intros He Hlo Hhi HK. unfold binary_round.
  assert (2 ^ (K - 23 - e) <= 2 ^ (K - e + 1)) as Hsmall
    by (apply pow2_mono; lia).
  assert (Zpos (digits2_pos m) = K - e + 1) as Hd.
  { apply Z.le_antisymm.
    - apply (Zdigits2_le (Zpos m)); lia.
    - apply (Zdigits2_ge (Zpos m)); lia. }
  destruct (shl_align_spec m e (fexp prec emax (Zpos (digits2_pos m) + e)))
    as [Hez Hmz].
  destruct (shl_align m e _) as [mz ez]. cbn [fst snd] in *.
  rewrite fexp32, Hd in Hez, Hmz.
  replace (Z.min e (Z.max (K - e + 1 + e - 24) (-149))) with e in Hez, Hmz by lia.
  rewrite Z.sub_diag, Z.mul_1_r in Hmz. subst ez. rewrite Hmz.
  apply round_aux_pow2; try lia.
  - now replace (23 + (K - 23 - e)) with (K - e) by lia.
  - now replace (24 + (K - 23 - e)) with (K - e + 1) by lia.
Qed.

Lemma normalize_bound z e k b :
  Z.abs z < 2 ^ (k - e) -> -149 <= k <= 127 ->
  bounded_by k (binary_normalize prec emax z e b).
Proof.
  intros H Hk. destruct z as [|p|p]; cbn [binary_normalize];
    [exact I | |]; apply binary_round_bound; assumption.
Qed.

(** The sum of a value of at most [2^K] and one of at most [2^(K-26)]
    rounds to at most [2^K]. *)
Lemma normalize_absorb z e K b :
  e <= K - 26 -> Z.abs z <= 2 ^ (K - e) + 2 ^ (K - 26 - e) ->
  -126 <= K <= 127 ->
  bounded_by K (binary_normalize prec emax z e b).
Proof.
  intros He Hz HK.
  destruct (Z.lt_ge_cases (Z.abs z) (2 ^ (K - e))) as [Hlt|Hge].
  { apply normalize_bound; [exact Hlt | lia]. }
  pose proof (pow2_pos (K - 26 - e) ltac:(lia)) as Hp.
  assert (2 ^ (K - 23 - e) = 8 * 2 ^ (K - 26 - e)) as E1.
  { replace (K - 23 - e) with (3 + (K - 26 - e)) by lia.
    now rewrite pow2_split by lia. }
  assert (2 ^ (K - e + 1) = 2 * 2 ^ (K - e)) as E2.
  { replace (K - e + 1) with (1 + (K - e)) by lia.
    now rewrite pow2_split by lia. }
  assert (bounded_by K (S754_finite (Z.ltb z 0) 8388608 (K - 23))) as Hres.
  { simpl. replace (K - (K - 23)) with 23 by lia. reflexivity. }
  destruct z as [|p|p]; cbn [binary_normalize].
  - exact I.
  - rewrite (binary_round_pow2 false p e K); [exact Hres | lia | exact Hge | | exact HK].
    change (Z.abs (Zpos p)) with (Zpos p) in Hz. lia.
  - rewrite (binary_round_pow2 true p e K); [exact Hres | lia | exact Hge | | exact HK].
    change (Z.abs (Zneg p)) with (Zpos p) in Hz. lia.
Qed.

Lemma aligned_bound m e ez k :
  ez <= e -> Zpos m <= 2 ^ (k - e) ->
  Zpos (fst (shl_align m e ez)) <= 2 ^ (k - ez).
Proof.
  intros Hez Hm. destruct (shl_align_spec m e ez) as [_ ->].
  replace (Z.min e ez) with ez by lia.
  pose proof (pow2_exp_nonneg _ _ (Pos2Z.is_pos m) Hm) as Hke.
  replace (k - ez) with (k - e + (e - ez)) by lia.
  rewrite pow2_split by lia.
  pose proof (pow2_pos (e - ez) ltac:(lia)). nia.
Qed.

Lemma cond_Zopp_abs b z : Z.abs (cond_Zopp b z) = Z.abs z.
Proof. destruct b; simpl; lia. Qed.

Lemma add_bound a x y :
  bounded_by a x -> bounded_by a y -> -151 <= a <= 125 ->
  bounded_by (a + 2) (add x y).
Proof.
  intros Hx Hy Ha.
  assert (a <= a + 2) as Hle by lia.
  destruct x as [sx| | |sx mx ex], y as [sy| | |sy my ey];
    try contradiction; unfold add, SFadd.
  - destruct sx, sy; exact I.
  - now apply (bounded_by_mono a).
  - now apply (bounded_by_mono a).
  - simpl in Hx, Hy.
    pose proof (aligned_bound mx ex (Z.min ex ey) a ltac:(lia) Hx) as HX.
    pose proof (aligned_bound my ey (Z.min ex ey) a ltac:(lia) Hy) as HY.
    set (X := Zpos (fst (shl_align mx ex (Z.min ex ey)))) in *.
    set (Y := Zpos (fst (shl_align my ey (Z.min ex ey)))) in *.
    pose proof (pow2_exp_nonneg _ _ (Pos2Z.is_pos _) HX) as Hk.
    apply normalize_bound; [|lia].
    replace (a + 2 - Z.min ex ey) with (2 + (a - Z.min ex ey)) by lia.
    rewrite pow2_split by lia. change (2 ^ 2) with 4.
    pose proof (cond_Zopp_abs sx X). pose proof (cond_Zopp_abs sy Y).
    assert (0 < X) by (subst X; lia). assert (0 < Y) by (subst Y; lia).
    lia.
Qed.

Lemma sub_bound a x y :
  bounded_by a x -> bounded_by a y -> -151 <= a <= 125 ->
  bounded_by (a + 2) (sub x y).
Proof.
  intros Hx Hy Ha.
  assert (a <= a + 2) as Hle by lia.
  destruct x as [sx| | |sx mx ex], y as [sy| | |sy my ey];
    try contradiction; unfold sub, SFsub.
  - destruct sx, sy; exact I.
  - now apply (bounded_by_mono a).
  - now apply (bounded_by_mono a).
  - simpl in Hx, Hy.
    pose proof (aligned_bound mx ex (Z.min ex ey) a ltac:(lia) Hx) as HX.
    pose proof (aligned_bound my ey (Z.min ex ey) a ltac:(lia) Hy) as HY.
    set (X := Zpos (fst (shl_align mx ex (Z.min ex ey)))) in *.
    set (Y := Zpos (fst (shl_align my ey (Z.min ex ey)))) in *.
    pose proof (pow2_exp_nonneg _ _ (Pos2Z.is_pos _) HX) as Hk.
    apply normalize_bound; [|lia].
    replace (a + 2 - Z.min ex ey) with (2 + (a - Z.min ex ey)) by lia.
    rewrite pow2_split by lia. change (2 ^ 2) with 4.
    pose proof (cond_Zopp_abs sx X). pose proof (cond_Zopp_abs sy Y).
    assert (0 < X) by (subst X; lia). assert (0 < Y) by (subst Y; lia).
    lia.
Qed.

(** Adding a small term to a value of at most [2^K] leaves it at most
    [2^K]: past a certain size the sum no longer grows. *)
Lemma add_absorb K x y :
  bounded_by K x -> bounded_by (K - 26) y -> -100 <= K <= 127 ->
  bounded_by K (add x y).
Proof.
  intros Hx Hy HK.
  destruct x as [sx| | |sx mx ex], y as [sy| | |sy my ey];
    try contradiction; unfold add, SFadd.
  - destruct sx, sy; exact I.
  - apply (bounded_by_mono (K - 26)); [lia | exact Hy].
  - exact Hx.
  - simpl in Hx, Hy.
    pose proof (pow2_exp_nonneg _ _ (Pos2Z.is_pos _) Hy) as Hey.
    pose proof (aligned_bound mx ex (Z.min ex ey) K ltac:(lia) Hx) as HX.
    pose proof (aligned_bound my ey (Z.min ex ey) (K - 26) ltac:(lia) Hy) as HY.
    set (X := Zpos (fst (shl_align mx ex (Z.min ex ey)))) in *.
    set (Y := Zpos (fst (shl_align my ey (Z.min ex ey)))) in *.
    apply normalize_absorb; [lia | | lia].
    pose proof (cond_Zopp_abs sx X). pose proof (cond_Zopp_abs sy Y).
    assert (0 < X) by (subst X; lia). assert (0 < Y) by (subst Y; lia).
    lia.
Qed.

Lemma mul_bound a b x y :
  bounded_by a x -> bounded_by b y -> -150 <= a + b <= 104 ->
  bounded_by (a + b + 1) (mul x y).
Proof.
  intros Hx Hy Hab.
  destruct x as [sx| | |sx mx ex], y as [sy| | |sy my ey];
    try contradiction; unfold mul, SFmul; try exact I.
  simpl in Hx, Hy.
  pose proof (pow2_exp_nonneg _ _ (Pos2Z.is_pos _) Hx) as Hex.
  pose proof (pow2_exp_nonneg _ _ (Pos2Z.is_pos _) Hy) as Hey.
  apply round_aux_bound; [lia | | lia | lia].
  rewrite Pos2Z.inj_mul.
  replace (a + b + 1 - (ex + ey)) with (1 + ((a - ex) + (b - ey))) by lia.
  rewrite !pow2_split by lia. change (2 ^ 1) with 2.
  pose proof (pow2_pos (a - ex) Hex). pose proof (pow2_pos (b - ey) Hey). nia.
Qed.

Lemma div_bound a b x y :
  bounded_by a x -> at_least b y -> -149 <= a - b + 1 <= 127 ->
  bounded_by (a - b + 1) (div x y).
Proof.
  intros Hx Hy Hk.
  destruct y as [sy| | |sy my ey]; try contradiction.
  destruct x as [sx| | |sx mx ex]; try contradiction;
    unfold div, SFdiv; [exact I|].
  simpl in Hx, Hy.
  pose proof (pow2_exp_nonneg _ _ (Pos2Z.is_pos _) Hx) as Hex.
  unfold SFdiv_core_binary. cbn [Zdigits2]. rewrite fexp32.
  set (d1 := Zpos (digits2_pos mx)). set (d2 := Zpos (digits2_pos my)).
  set (e' := Z.min (Z.max (d1 + ex - (d2 + ey) - 24) (-149)) (ex - ey)).
  set (B := Z.max (b - ey) 0).
  assert (2 ^ B <= Zpos my) as HB.
  { unfold B. destruct (Z.max_spec (b - ey) 0) as [[_ ->]|[_ ->]]; [simpl; lia | exact Hy]. }
  assert (d1 <= a - ex + 1) as Hd1.
  { apply (Zdigits2_le (Zpos mx)); [lia|]. rewrite pow2_split by lia.
    change (2 ^ 1) with 2. lia. }
  assert (B + 1 <= d2) as Hd2 by (apply (Zdigits2_ge (Zpos my)); [exact HB | lia]).
  assert (0 <= ex - ey - e') as Hs by lia.
  set (m' := match ex - ey - e' with
             | 0 => Zpos mx
             | Zpos _ => Z.shiftl (Zpos mx) (ex - ey - e')
             | Zneg _ => 0
             end).
  assert (m' = Zpos mx * 2 ^ (ex - ey - e')) as Hm'.
  { unfold m'. destruct (ex - ey - e') as [|p|p] eqn:E; [lia | | lia].
    apply Z.shiftl_mul_pow2. lia. }
  pose proof (pow2_pos (ex - ey - e') Hs) as Hps.
  pose proof (pow2_pos B ltac:(lia)) as HpB.
  assert (0 <= m') as Hm'0 by nia.
  assert (fst (Z.div_eucl m' (Zpos my)) = m' / Zpos my) as Hq by reflexivity.
  destruct (Z.div_eucl m' (Zpos my)) as [q r]. cbn [fst] in Hq. subst q.
  assert (e' <= a - b + 1 /\ e' <= 104) as [He'k He'm] by lia.
  apply round_aux_bound; [apply Z.div_pos; lia | | exact He'm | exact Hk].
  apply Z.le_lt_trans with (m' / 2 ^ B).
  { apply Z.div_le_compat_l; lia. }
  apply div_pow2_lt; [lia | lia |].
  rewrite Hm'.
  apply Z.le_lt_trans with (2 ^ (a - ex) * 2 ^ (ex - ey - e')); [nia|].
  rewrite <- pow2_split by lia.
  apply Z.lt_le_trans with (2 ^ (a - ex + (ex - ey - e') + 1)).
  { rewrite (pow2_split _ 1) by lia. change (2 ^ 1) with 2.
    pose proof (pow2_pos (a - ex + (ex - ey - e')) ltac:(lia)). lia. }
  apply pow2_mono. lia.
Qed.

Lemma of_Z_bound z k :
  Z.abs z < 2 ^ k -> 0 <= k <= 127 -> bounded_by k (of_Z z).
Proof.
  intros H Hk. unfold of_Z. apply normalize_bound; [|lia].
  now rewrite Z.sub_0_r.
Qed.

(** A number that is not below 0.01f is at least [2^-30]. *)
Lemma not_below_threshold x :
  is_finite x = true -> ltb x f0_01 = false -> at_least (-30) x.
Proof.
  change f0_01 with (S754_finite false 10737418 (-30)).
  unfold ltb, SFltb.
  destruct x as [s| | |s m e]; try discriminate; intros _.
  cbn [SFcompare]. destruct s; cbv iota; [discriminate|].
  destruct (Z.compare_spec e (-30)) as [->|Hlt|Hgt]; [|discriminate|].
  - intros _. simpl. lia.
  - intros _. simpl. rewrite pow2_neg by lia. lia.
Qed.

End Arith32.

Section Lower32.
Implicit Types x y : float32.

Lemma at_least_mono k k' x : k' <= k -> at_least k x -> at_least k' x.
Proof.
  intros Hk. destruct x as [| | |s m e]; simpl; trivial.
  intros H. apply Z.le_trans with (2 ^ (k - e)); [|exact H].
  apply pow2_mono_any. lia.
Qed.

Lemma Zdigits2_pow m : 0 < m -> 2 ^ (Zdigits2 m - 1) <= m < 2 ^ Zdigits2 m.
Proof.
  destruct m as [|p|p]; try lia. intros _. cbn [Zdigits2].
  split; [apply digits_le | apply digits_gt].
Qed.

(** Rounding keeps the leading digit: a value with [d] digits at exponent
    [e], at or above the smallest subnormal, rounds to a nonzero finite
    float of at least [2^(d-1+e)]. *)
Lemma round_aux_leading s m e l K :
  0 < m -> -148 <= Zdigits2 m + e -> m < 2 ^ (K - e) ->
  e <= 104 -> K <= 127 ->
  at_least (Zdigits2 m - 1 + e) (binary_round_aux prec emax s m e l).
Proof.
  intros Hm0 Hsub Hhi He HK.
  assert (0 <= m) as Hm by lia.
  pose proof (pow2_exp_nonneg_lt _ _ Hm Hhi) as HKe.
  pose proof (Zdigits2_le _ _ Hm Hhi) as Hd.
  destruct (Zdigits2_pow m Hm0) as [Hlo _].
  assert (1 <= Zdigits2 m) as Hd1 by (destruct m; simpl in *; lia).
  set (j := Zdigits2 m - 1) in *.
  unfold binary_round_aux.
  pose proof (shr_fexp_spec m e l Hm) as S1. cbv zeta in S1.
  destruct (shr_fexp prec emax m e l) as [mrs1 e1]. cbn [fst snd] in S1.
  destruct S1 as (Hm1 & He1 & _). rewrite fexp32 in Hm1, He1.
  set (N := Z.max (Z.max (Zdigits2 m + e - 24) (-149) - e) 0) in *.
  assert (0 <= N <= j) as HN by lia.
  assert (2 ^ (j - N) <= shr_m mrs1 < 2 ^ (K - e1)) as Hm1r.
  { rewrite Hm1. split.
    - apply Z.div_le_lower_bound; [apply pow2_pos; lia|].
      rewrite <- pow2_split by lia. now replace (N + (j - N)) with j by lia.
    - apply div_pow2_lt; [lia | lia |].
      now replace (K - e1 + N) with (K - e) by lia. }
  pose proof (pow2_pos (j - N) ltac:(lia)) as Hp1.
  assert (shr_m mrs1 < 2 ^ (j + 1 - N)) as Hm1u.
  { rewrite Hm1. apply div_pow2_lt; [lia | lia |].
    replace (j + 1 - N + N) with (Zdigits2 m) by lia.
    now destruct (Zdigits2_pow m Hm0). }
  set (m2 := round_nearest_even (shr_m mrs1) (loc_of_shr_record mrs1)).
  pose proof (round_nearest_even_range (shr_m mrs1) (loc_of_shr_record mrs1)) as Hm2.
  fold m2 in Hm2.
  assert (2 ^ (j - N) <= m2 <= 2 ^ (j + 1 - N)) as Hm2r by lia.
  assert (0 < m2) as Hm20 by lia.
  destruct (Zdigits2_pow m2 Hm20) as [Hd2lo Hd2hi].
  assert (j - N + 1 <= Zdigits2 m2 <= j - N + 2) as Hd2.
  { split; [apply Zdigits2_ge; lia|].
    apply Zdigits2_le; [lia|].
    replace (j - N + 2) with (1 + (j + 1 - N)) by lia.
    rewrite pow2_split by lia. change (2 ^ 1) with 2.
    pose proof (pow2_pos (j + 1 - N) ltac:(lia)). lia. }
  pose proof (shr_fexp_spec m2 e1 loc_Exact ltac:(lia)) as S3. cbv zeta in S3.
  destruct (shr_fexp prec emax m2 e1 loc_Exact) as [mrs3 e3]. cbn [fst snd] in S3.
  destruct S3 as (Hm3 & He3 & _). rewrite fexp32 in Hm3, He3.
  set (N2 := Z.max (Z.max (Zdigits2 m2 + e1 - 24) (-149) - e1) 0) in *.
  assert (0 <= N2 <= j - N) as HN2 by lia.
  assert (Zdigits2 m2 <= K - e1 + 1) as Hd2K.
  { apply Zdigits2_le; [lia|]. rewrite pow2_split by lia.
    change (2 ^ 1) with 2. lia. }
  assert (e3 <= 104) as He3m by lia.
  assert (2 ^ (j - N - N2) <= shr_m mrs3) as Hm3r.
  { rewrite Hm3. apply Z.div_le_lower_bound; [apply pow2_pos; lia|].
    rewrite <- pow2_split by lia.
    now replace (N2 + (j - N - N2)) with (j - N) by lia. }
  pose proof (pow2_pos (j - N - N2) ltac:(lia)) as Hp3.
  destruct (shr_m mrs3) as [|p|p]; [lia | | lia].
  change (emax - prec) with 104.
  destruct (Z.leb_spec e3 104) as [_|?]; [|lia].
  simpl. now replace (j + e - e3) with (j - N - N2) by lia.
Qed.

(** Rounding a value of at least [2^(j+e)] and below [2^K], at or above the
    smallest subnormal: the result is a nonzero finite float within the
    same bounds. *)
Lemma round_aux_range s m e l j K :
  0 <= j -> 2 ^ j <= m -> -149 <= j + e -> m < 2 ^ (K - e) ->
  e <= 104 -> K <= 127 ->
  at_least (j + e) (binary_round_aux prec emax s m e l)
  /\ bounded_by K (binary_round_aux prec emax s m e l).
Proof.
  intros Hj Hlo Hsub Hhi He HK.
  pose proof (pow2_pos j Hj) as Hpj.
  assert (0 <= m) as Hm by lia.
  pose proof (pow2_exp_nonneg_lt _ _ Hm Hhi) as HKe.
  assert (j < K - e) as HjK.
  { destruct (Z.lt_ge_cases j (K - e)) as [?|Hge]; [assumption|].
    pose proof (pow2_mono (K - e) j). lia. }
  pose proof (Zdigits2_ge _ _ Hlo Hj) as Hdj.
  split; [|apply round_aux_bound; try assumption; lia].
  apply (at_least_mono (Zdigits2 m - 1 + e)); [lia|].
  apply (round_aux_leading s m e l K); try assumption; lia.
Qed.

Lemma of_Z_range z j K :
  0 <= j -> 2 ^ j <= z -> z < 2 ^ K -> K <= 127 ->
  at_least j (of_Z z) /\ bounded_by K (of_Z z).
Proof.
  intros Hj Hlo Hhi HK. pose proof (pow2_pos j Hj).
  destruct z as [|p|p]; [lia | | lia].
  unfold of_Z. cbn [binary_normalize]. unfold binary_round.
  pose proof (Zdigits2_le (Zpos p) K ltac:(lia) Hhi) as Hd.
  pose proof (Zdigits2_ge (Zpos p) j Hlo Hj) as Hdj. cbn [Zdigits2] in Hd, Hdj.
  destruct (shl_align_spec p 0 (fexp prec emax (Zpos (digits2_pos p) + 0)))
    as [Hez Hmz].
  destruct (shl_align p 0 _) as [mz ez]. cbn [fst snd] in *.
  rewrite fexp32 in Hez, Hmz. rewrite <- Hez in Hmz.
  assert (ez <= 0) as Hez0 by lia.
  pose proof (pow2_pos (0 - ez) ltac:(lia)) as Hpz.
  destruct (round_aux_range false (Zpos mz) ez loc_Exact (j - ez) K) as [H1 H2];
    try lia.
  - rewrite Hmz. replace (j - ez) with (j + (0 - ez)) by lia.
    rewrite pow2_split by lia. nia.
  - rewrite Hmz. replace (K - ez) with (K + (0 - ez)) by lia.
    rewrite pow2_split by lia. nia.
  - split; [|exact H2]. now replace (j - ez + ez) with j in H1 by lia.
Qed.

(** A quotient is at least [2^(a-b-1)] when the dividend is at least [2^a]
    and the divisor at most [2^b]. *)
Lemma div_at_least a b c K x y :
  at_least a x -> bounded_by K x -> at_least c y -> bounded_by b y ->
  -148 <= a - b - 1 -> K - c + 1 <= 127 ->
  at_least (a - b - 1) (div x y).
Proof.
  intros Hxa HxK Hyc Hyb Hlow Hhigh.
  destruct y as [sy| | |sy my ey]; try contradiction.
  destruct x as [sx| | |sx mx ex]; try contradiction.
  unfold div, SFdiv. simpl in Hxa, HxK, Hyc, Hyb.
  pose proof (pow2_exp_nonneg _ _ (Pos2Z.is_pos _) HxK) as HKex.
  pose proof (pow2_exp_nonneg _ _ (Pos2Z.is_pos _) Hyb) as Hbey.
  unfold SFdiv_core_binary. cbn [Zdigits2]. rewrite fexp32.
  set (d1 := Zpos (digits2_pos mx)). set (d2 := Zpos (digits2_pos my)).
  set (e' := Z.min (Z.max (d1 + ex - (d2 + ey) - 24) (-149)) (ex - ey)).
  pose proof (digits_gt mx) as Hmx1. pose proof (digits_le mx) as Hmx2.
  pose proof (digits_gt my) as Hmy1. pose proof (digits_le my) as Hmy2.
  fold d1 in Hmx1, Hmx2. fold d2 in Hmy1, Hmy2.
  assert (0 < d1 /\ 0 < d2) as [Hd1p Hd2p] by (unfold d1, d2; lia).
  (* digit counts against the bounds *)
  assert (a - ex + 1 <= d1) as Hd1a.
  { destruct (Z.lt_ge_cases (a - ex) 0); [lia|].
    apply (Zdigits2_ge (Zpos mx)); assumption. }
  assert (d1 <= K - ex + 1) as Hd1K.
  { apply (Zdigits2_le (Zpos mx)); [lia|]. rewrite pow2_split by lia.
    change (2 ^ 1) with 2. lia. }
  assert (d2 <= b - ey + 1) as Hd2b.
  { apply (Zdigits2_le (Zpos my)); [lia|]. rewrite pow2_split by lia.
    change (2 ^ 1) with 2. lia. }
  assert (c - ey + 1 <= d2) as Hd2c.
  { destruct (Z.lt_ge_cases (c - ey) 0); [lia|].
    apply (Zdigits2_ge (Zpos my)); assumption. }
  assert (0 <= ex - ey - e') as Hs by lia.
  set (m' := match ex - ey - e' with
             | 0 => Zpos mx
             | Zpos _ => Z.shiftl (Zpos mx) (ex - ey - e')
             | Zneg _ => 0
             end).
  assert (m' = Zpos mx * 2 ^ (ex - ey - e')) as Hm'.
  { unfold m'. destruct (ex - ey - e') as [|p|p] eqn:E; [lia | | lia].
    apply Z.shiftl_mul_pow2. lia. }
  pose proof (pow2_pos (ex - ey - e') Hs) as Hps.
  assert (fst (Z.div_eucl m' (Zpos my)) = m' / Zpos my) as Hq by reflexivity.
  destruct (Z.div_eucl m' (Zpos my)) as [q r]. cbn [fst] in Hq. subst q.
  set (j := d1 - 1 + (ex - ey - e') - d2).
  assert (0 <= j) as Hj0 by (unfold j; lia).
  assert (2 ^ j <= m' / Zpos my) as Hqlo.
  { apply Z.div_le_lower_bound; [lia|].
    apply Z.le_trans with (2 ^ d2 * 2 ^ j).
    - pose proof (pow2_pos j Hj0). nia.
    - rewrite <- pow2_split by lia.
      replace (d2 + j) with ((d1 - 1) + (ex - ey - e')) by (unfold j; lia).
      rewrite pow2_split by lia. rewrite Hm'. nia. }
  assert (m' / Zpos my < 2 ^ (K - c + 1 - e')) as Hqhi.
  { apply Z.div_lt_upper_bound; [lia|].
    apply Z.lt_le_trans with (2 ^ (d1 + (ex - ey - e'))).
    - rewrite Hm', pow2_split by lia. nia.
    - apply Z.le_trans with (2 ^ (d2 - 1) * 2 ^ (K - c + 1 - e')).
      + rewrite <- pow2_split by lia. apply pow2_mono. lia.
      + pose proof (pow2_pos (K - c + 1 - e') ltac:(lia)). nia. }
  destruct (round_aux_range (xorb sx sy) (m' / Zpos my) e'
              (new_location (Zpos my) r) j (K - c + 1)) as [H1 _];
    try assumption; try (unfold j; lia).
  destruct (binary_round_aux _ _ _ _ _ _) as [| | |s3 m3 e3]; try contradiction.
  simpl in H1 |- *.
  apply Z.le_trans with (2 ^ (j + e' - e3)); [|exact H1].
  apply pow2_mono_any. unfold j. lia.
Qed.

End Lower32.

(** ** The scanner looks no further than it has to

    Each scanner that stopped at a character of its input returns the same
    result when more text is appended to that input. *)

Section ScanLocal.
Implicit Types (s r x : list ascii) (c : ascii).
















End ScanLocal.

(** ** The receive buffer *)

Section Receiver.
Implicit Types (st : State) (l t : list ascii) (c : ascii).

Lemma init_rx_ok : rx_ok init_state.
Proof. split; vm_compute; lia. Qed.

Lemma readVisionSerial_app now l1 l2 st :
  readVisionSerial now (l1 ++ l2) st
  = readVisionSerial now l2 (readVisionSerial now l1 st).
Proof. apply foldl_app. Qed.

Lemma readVisionSerial_cons now c l st :
  readVisionSerial now (c :: l) st = readVisionSerial now l (rx_byte now c st).
Proof. reflexivity. Qed.

Lemma readVisionSerial_snoc now c l st :
  readVisionSerial now (l ++ [c]) st = rx_byte now c (readVisionSerial now l st).
Proof. apply readVisionSerial_app. Qed.

Lemma rx_byte_ctl now c st : ctl (rx_byte now c st) = ctl st.
Proof.
  unfold rx_byte.
  repeat (case_match; simpl; try reflexivity).
Qed.

Lemma readVisionSerial_ctl now l st : ctl (readVisionSerial now l st) = ctl st.
Proof.
  revert st. induction l as [|c l IH]; intros st; [reflexivity|].
  rewrite readVisionSerial_cons, IH. apply rx_byte_ctl.
Qed.

Lemma rx_byte_ok now c st : rx_ok st -> rx_ok (rx_byte now c st).
Proof.
  intros [Hlen Hidx]. unfold rx_byte, rx_ok, BUF_SIZE in *.
  repeat (case_match; simpl); rewrite ?length_insert;
    try (split; [assumption | lia]).
  split; [assumption|]. apply Nat.ltb_lt in H0. lia.
Qed.

Lemma readVisionSerial_ok now l st : rx_ok st -> rx_ok (readVisionSerial now l st).
Proof.
  revert st. induction l as [|c l IH]; intros st H; [exact H|].
  rewrite readVisionSerial_cons. apply IH, rx_byte_ok, H.
Qed.

Lemma c_str_app_NUL t r : c_str (t ++ NUL :: r) = c_str t.
Proof.
  induction t as [|c t IH]; simpl; [reflexivity|].
  destruct (Ascii.eqb c NUL); [reflexivity | now rewrite IH].
Qed.

Lemma terminated_buf (b : list ascii) (i : nat) :
  (i < length b)%nat -> <[i := NUL]> b = take i b ++ NUL :: drop (S i) b.
Proof.
  revert i. induction b as [|c b IH]; intros i Hi; simpl in Hi; [lia|].
  destruct i as [|i]; simpl; [now rewrite drop_0|].
  f_equal. apply IH. lia.
Qed.

Lemma prefix_test_terminated t r :
  Ascii.eqb (char_at (t ++ NUL :: r) 0) "L"
    && Ascii.eqb (char_at (t ++ NUL :: r) 1) ","
  = has_prefix t.
Proof.
  destruct t as [|c0 [|c1 t]]; simpl; try reflexivity.
  unfold char_at; simpl. now rewrite andb_false_r.
Qed.

(** The newline branch, in terms of the text terminated at [idx]. *)
Lemma rx_newline now st :
  rx_ok st ->
  vision (rx_byte now NL st)
  = ingest now (take (idx (rx st)) (buf (rx st))) (vision st).
Proof.
  intros [Hlen Hidx]. unfold rx_byte, ingest, accepted.
  change (Ascii.eqb NL NL) with true. cbv iota.
  rewrite terminated_buf by lia.
  rewrite prefix_test_terminated, c_str_app_NUL.
  destruct (has_prefix _); [|reflexivity].
  destruct (sscanf_L_f_d _ _ _) as [[n lk] v].
  destruct (Z.eqb_spec n 2) as [->|Hn]; [reflexivity|].
  destruct n as [|[[]|[]|]|]; try reflexivity. contradiction.
Qed.

Lemma rx_newline_idx now st : idx (rx (rx_byte now NL st)) = 0%nat.
Proof.
  unfold rx_byte. change (Ascii.eqb NL NL) with true. cbv iota.
  repeat (case_match; simpl; try reflexivity).
Qed.

(** A byte other than newline never touches the sample. *)
Lemma rx_byte_other_vision now c st :
  c <> NL -> vision (rx_byte now c st) = vision st.
Proof.
  intros Hc. unfold rx_byte.
  destruct (Ascii.eqb_spec c NL) as [->|_]; [contradiction|].
  case_match; reflexivity.
Qed.

Lemma rx_byte_store now c st :
  c <> NL -> (idx (rx st) < BUF_SIZE - 1)%nat ->
  rx (rx_byte now c st)
  = {| buf := <[idx (rx st) := c]> (buf (rx st)); idx := S (idx (rx st)) |}.
Proof.
  intros Hc Hi. unfold rx_byte.
  destruct (Ascii.eqb_spec c NL) as [?|_]; [contradiction|].
  destruct (Nat.ltb_spec (idx (rx st)) (BUF_SIZE - 1)); [reflexivity | lia].
Qed.

Lemma rx_byte_overflow now c st :
  c <> NL -> (BUF_SIZE - 1 <= idx (rx st))%nat ->
  rx (rx_byte now c st) = {| buf := buf (rx st); idx := 0 |}.
Proof.
  intros Hc Hi. unfold rx_byte.
  destruct (Ascii.eqb_spec c NL) as [?|_]; [contradiction|].
  destruct (Nat.ltb_spec (idx (rx st)) (BUF_SIZE - 1)); [lia | reflexivity].
Qed.

Lemma buffered_snoc_store l c :
  (length l mod BUF_SIZE < BUF_SIZE - 1)%nat ->
  (length (l ++ [c]) mod BUF_SIZE = S (length l mod BUF_SIZE))%nat
  /\ buffered (l ++ [c]) = buffered l ++ [c].
Proof.
  unfold buffered, BUF_SIZE. rewrite length_app. simpl length. intros H.
  assert ((length l + 1) mod 40 = S (length l mod 40))%nat as Hm.
  { rewrite Nat.Div0.add_mod, (Nat.mod_small 1) by lia.
    rewrite Nat.mod_small; lia. }
  rewrite Hm. split; [reflexivity|].
  pose proof (Nat.Div0.mod_le (length l) 40).
  rewrite drop_app_le by lia. f_equal. f_equal. lia.
Qed.

Lemma buffered_snoc_overflow l c :
  (BUF_SIZE - 1 <= length l mod BUF_SIZE)%nat ->
  (length (l ++ [c]) mod BUF_SIZE = 0)%nat /\ buffered (l ++ [c]) = [].
Proof.
  unfold buffered, BUF_SIZE. rewrite length_app. simpl length. intros H.
  pose proof (Nat.mod_upper_bound (length l) 40).
  assert (length l mod 40 = 39)%nat as H39 by lia.
  assert ((length l + 1) mod 40 = 0)%nat as Hm.
  { rewrite Nat.Div0.add_mod, H39. reflexivity. }
  rewrite Hm. split; [reflexivity|].
  apply drop_ge. rewrite length_app. simpl. lia.
Qed.

(** The buffer after the bytes of a line, before its newline. *)
Lemma rx_fill now l st :
  NL ∉ l -> rx_ok st -> idx (rx st) = 0%nat ->
  let st' := readVisionSerial now l st in
  vision st' = vision st
  /\ idx (rx st') = (length l mod BUF_SIZE)%nat
  /\ take (idx (rx st')) (buf (rx st')) = buffered l.
Proof.
  intros Hnl Hok H0. induction l as [|c l IH] using rev_ind; cbv zeta.
  - change (readVisionSerial now [] st) with st.
    rewrite H0. repeat split; reflexivity.
  - rewrite readVisionSerial_snoc.
    apply not_elem_of_app in Hnl as [Hl Hc].
    destruct (IH Hl) as (Hv & Hi & Ht); clear IH.
    pose proof (readVisionSerial_ok now l st Hok) as [Hlen Hlt].
    set (s1 := readVisionSerial now l st) in *.
    assert (c <> NL) as Hne by (intros ->; apply Hc; left).
    split; [rewrite rx_byte_other_vision by exact Hne; exact Hv|].
    destruct (Nat.lt_ge_cases (idx (rx s1)) (BUF_SIZE - 1)) as [Hlt39|Hge39].
    + rewrite rx_byte_store by assumption.
      rewrite Hi in Hlt39.
      destruct (buffered_snoc_store l c Hlt39) as [-> ->].
      cbn [idx buf]. split; [now rewrite Hi|].
      rewrite take_S_r with (x := c).
      * rewrite take_insert_ge by lia. now rewrite Ht.
      * apply list_lookup_insert_eq. lia.
    + rewrite rx_byte_overflow by assumption.
      rewrite Hi in Hge39.
      destruct (buffered_snoc_overflow l c Hge39) as [-> ->].
      cbn [idx buf]. split; reflexivity.
Qed.

(** What a whole line does to the sample: only the text buffered since the
    last overflow reset is looked at. *)
Lemma rx_line now l st :
  NL ∉ l -> rx_ok st -> idx (rx st) = 0%nat ->
  vision (readVisionSerial now (l ++ [NL]) st)
  = ingest now (buffered l) (vision st).
Proof.
  intros Hnl Hok H0.
  rewrite readVisionSerial_snoc.
  destruct (rx_fill now l st Hnl Hok H0) as (Hv & _ & Ht).
  rewrite rx_newline by (apply readVisionSerial_ok, Hok).
  now rewrite Ht, Hv.
Qed.

Lemma buffered_short l : (length l < BUF_SIZE)%nat -> buffered l = l.
Proof.
  intros H. unfold buffered. rewrite Nat.mod_small by exact H.
  now rewrite Nat.sub_diag.
Qed.

Lemma buffered_suffix l :
  length (buffered l) = (length l mod BUF_SIZE)%nat
  /\ exists p, l = p ++ buffered l.
Proof.
  unfold buffered, BUF_SIZE.
  pose proof (Nat.Div0.mod_le (length l) 40).
  split; [rewrite length_drop; lia|].
  eexists. symmetry. apply take_drop.
Qed.

(** [millis()] is read in the newline branch only. *)
Lemma readVisionSerial_clock now now' l st :
  NL ∉ l -> readVisionSerial now l st = readVisionSerial now' l st.
Proof.
  revert st. induction l as [|c l IH]; intros st Hnl; [reflexivity|].
  apply not_elem_of_cons in Hnl as [Hc Hl].
  rewrite !readVisionSerial_cons, (IH _ Hl). f_equal.
  unfold rx_byte. destruct (Ascii.eqb_spec c NL) as [->|_]; [|reflexivity].
  contradiction.
Qed.


Lemma rx_line_state now l st :
  rx_ok st ->
  let st' := readVisionSerial now (l ++ [NL]) st in
  ctl st' = ctl st /\ rx_ok st' /\ idx (rx st') = 0%nat.
Proof.
  intros Hok. cbv zeta. split; [apply readVisionSerial_ctl|].
  split; [apply readVisionSerial_ok, Hok|].
  rewrite readVisionSerial_snoc. apply rx_newline_idx.
Qed.

(** A line within the capacity of the buffer is read whole. *)
Lemma rx_short_line now l st :
  NL ∉ l -> rx_ok st -> idx (rx st) = 0%nat -> (length l < BUF_SIZE)%nat ->
  vision (readVisionSerial now (l ++ [NL]) st) = ingest now l (vision st).
Proof.
  intros Hnl Hok H0 Hlen. rewrite rx_line by assumption.
  now rewrite buffered_short.
Qed.
End Receiver.

(** ** Ingestion of vision lines *)

(** A given text holds no newline. *)
Ltac no_newline :=
  let H := fresh in
  intros H; apply list_elem_of_In in H; vm_compute in H;
  repeat destruct H as [H|H]; try discriminate H; exact H.

(** What a line the parser accepts leaves in the sample: the lookahead value
    after [clampf], the validity flag, and the time of the newline. *)
Lemma parsed_line_sample now st l lk v :
  rx_ok st -> idx (rx st) = 0%nat -> NL ∉ l -> (length l < BUF_SIZE)%nat ->
  accepted l = Some (lk, v) ->
  vision (readVisionSerial now (l ++ [NL]) st) = sample_of now lk v.
Proof.
  intros Hok H0 Hnl Hlen Hacc.
  rewrite rx_short_line by assumption. unfold ingest. now rewrite Hacc.
Qed.

(** A number is clamped into [0,1]. *)
Lemma sample_of_range now lk v :
  is_nan lk = false ->
  leb f0_0 (lastLk (sample_of now lk v)) = true
  /\ leb (lastLk (sample_of now lk v)) f1_0 = true.
Proof. intros H. apply clampf_range; [exact H | reflexivity]. Qed.

(** The two lines the specification gives. *)
Lemma example_line_042 now :
  vision (readVisionSerial now (str "L,0.42,1" ++ [NL]) init_state)
  = {| lastLk := centi 42; lastValid := true; lastVisionMs := now |}.
Proof.
  rewrite (parsed_line_sample now init_state _ (centi 42) 1);
    try reflexivity; try apply init_rx_ok; try (vm_compute; lia).
  no_newline.
Qed.

Lemma example_line_15 now :
  vision (readVisionSerial now (str "L,1.5,0" ++ [NL]) init_state)
  = {| lastLk := f1_0; lastValid := false; lastVisionMs := now |}.
Proof.
  rewrite (parsed_line_sample now init_state _ (of_dec false 15 (-1)) 0);
    try reflexivity; try apply init_rx_ok; try (vm_compute; lia).
  no_newline.
Qed.

(** Lines that are malformed, one for each way of being so. *)
Lemma malformed_examples :
  Forall malformed
    (map str [""; "L"; "L,"; "X,0.5,1"; "l,0.5,1"; " L,0.5,1"; "L;0.5;1";
              "L,abc,1"; "L,,1"; "L,-,1"; "L,.,1"; "L,1e,1"; "L,0.5";
              "L,0.5,"; "L,0.5,x"; "L,0.5,-"; "L,0.5 ,1"; "L,infin,1";
              "L,na,1"]%string).
Proof. repeat constructor. Qed.





(** The two lines claim C10 names, evaluated. *)
Lemma example_lines_with_extra now :
  vision (readVisionSerial now (str "L,0.5,1,extra" ++ [NL]) init_state)
  = {| lastLk := f0_5; lastValid := true; lastVisionMs := now |}
  /\ vision (readVisionSerial now (str "L,0.5,1junk" ++ [NL]) init_state)
     = {| lastLk := f0_5; lastValid := true; lastVisionMs := now |}.
Proof.
  split.
  - rewrite (parsed_line_sample now init_state _ f0_5 1);
      try reflexivity; try apply init_rx_ok; try (vm_compute; lia).
    no_newline.
  - rewrite (parsed_line_sample now init_state _ f0_5 1);
      try reflexivity; try apply init_rx_ok; try (vm_compute; lia).
    no_newline.
Qed.

(** C2, as the firmware has it.  When a line is longer than the buffer can
    hold, the write index goes back to 0 at every 40th byte and what was
    buffered is discarded; the bytes after the last such reset are buffered
    as if they began a line.  Nothing changes before the newline; at the
    newline exactly the last [length l mod 40] bytes of the line are looked
    at, and the sample is updated when, and only when, they form an
    acceptable message. *)
Theorem overlong_line_tail_parsed now st l :
  rx_ok st -> idx (rx st) = 0%nat -> NL ∉ l -> (BUF_SIZE <= length l)%nat ->
  vision (readVisionSerial now l st) = vision st
  /\ vision (readVisionSerial now (l ++ [NL]) st)
     = ingest now (buffered l) (vision st)
  /\ length (buffered l) = (length l mod BUF_SIZE)%nat
  /\ (exists p, l = p ++ buffered l)
  /\ idx (rx (readVisionSerial now (l ++ [NL]) st)) = 0%nat.
Proof.
  intros Hok H0 Hnl _.
  destruct (rx_fill now l st Hnl Hok H0) as (Hv & _ & _).
  destruct (buffered_suffix l) as [Hlen Hsuf].
  repeat split; try assumption.
  - now apply rx_line.
  - now apply rx_line_state.
Qed.

Lemma overlong_line_tail_parsed_witness :
  vision (readVisionSerial 7 overlong_example init_state) = vision init_state
  /\ vision (readVisionSerial 7 (overlong_example ++ [NL]) init_state)
     = ingest 7 (buffered overlong_example) (vision init_state)
  /\ length (buffered overlong_example) = (length overlong_example mod BUF_SIZE)%nat
  /\ (exists p, overlong_example = p ++ buffered overlong_example)
  /\ idx (rx (readVisionSerial 7 (overlong_example ++ [NL]) init_state)) = 0%nat.
Proof.
  apply (overlong_line_tail_parsed 7 init_state overlong_example).
  - apply init_rx_ok.
  - reflexivity.
  - no_newline.
  - vm_compute. lia.
Defined.

(** C2 as stated fails: a line of 47 bytes, longer than the buffer, whose
    last 7 bytes read [L,0.5,1], updates the sample when its newline is
    consumed. *)
Lemma overlong_line_updates_sample :
  (BUF_SIZE <= length overlong_example)%nat
  /\ (NL ∉ overlong_example)
  /\ vision init_state
     = {| lastLk := f0_0; lastValid := false; lastVisionMs := 0 |}
  /\ vision (readVisionSerial 1234 (overlong_example ++ [NL]) init_state)
     = {| lastLk := f0_5; lastValid := true; lastVisionMs := 1234 |}
  /\ (vision (readVisionSerial 1234 (overlong_example ++ [NL]) init_state)
      <> vision init_state).
Proof.
  split; [vm_compute; lia|]. split; [no_newline|].
  split; [reflexivity|].
  assert (vision (readVisionSerial 1234 (overlong_example ++ [NL]) init_state)
          = {| lastLk := f0_5; lastValid := true; lastVisionMs := 1234 |}) as ->
    by (vm_compute; reflexivity).
  split; [reflexivity | discriminate].
Qed.

(** C6, where the firmware departs from it.  The line [L,nan,1] converts,
    and [clampf] returns a NaN unchanged because both of its comparisons are
    false: the stored lookahead value is NaN, outside [0,1].  The scheduler
    then finds it neither below 0.35 nor below 0.70 and selects the fastest
    band. *)
Theorem nan_line_escapes_clamp :
  forall now : Z,
    let st := readVisionSerial now (str "L,nan,1" ++ [NL]) init_state in
    accepted (str "L,nan,1") = Some (S754_nan, 1)
    /\ vision st = {| lastLk := S754_nan; lastValid := true; lastVisionMs := now |}
    /\ leb f0_0 (lastLk (vision st)) = false
    /\ leb (lastLk (vision st)) f1_0 = false
    /\ baseSpeed (ctl (updateScheduler now st)) = centi 60.
Proof.
  intros now. cbv zeta.
  assert (vision (readVisionSerial now (str "L,nan,1" ++ [NL]) init_state)
          = {| lastLk := S754_nan; lastValid := true; lastVisionMs := now |}) as Hv.
  { rewrite (parsed_line_sample now init_state _ S754_nan 1);
      try reflexivity; try apply init_rx_ok; try (vm_compute; lia).
    no_newline. }
  split; [reflexivity|]. split; [exact Hv|].
  rewrite Hv. split; [reflexivity|]. split; [reflexivity|].
  unfold updateScheduler, effectiveLk, useVision, visionFresh.
  rewrite Hv. cbn [lastLk lastValid lastVisionMs].
  rewrite Z.sub_diag. change (u32 0 <? 200) with true. reflexivity.
Qed.

(** ** The control tick *)

Lemma u32_age now age :
  0 <= age < 2 ^ 32 -> u32 (now - u32 (now - age)) = age.
Proof.
  intros H. unfold u32. rewrite Zminus_mod_idemp_r.
  replace (now - (now - age)) with age by lia.
  now apply Z.mod_small.
Qed.

(** C4.  Vision is trusted exactly when the last sample is younger than
    200 ms and valid.  With [age] the time in ms since the sample was
    stamped (the clock is a 32-bit counter and the subtraction wraps with
    it): [useVision = (age < 200) && valid]; the lookahead value the
    scheduler uses is the sample's when trusted and 0 otherwise; an age of
    201 ms gives no trust whatever [valid] is, an age of 199 ms with
    [valid] gives trust; and without trust the safe-mode profile is set. *)
Theorem vision_trusted_iff_fresh_and_valid now age st :
  0 <= age < 2 ^ 32 ->
  lastVisionMs (vision st) = u32 (now - age) ->
  useVision now st = (age <? 200) && lastValid (vision st)
  /\ effectiveLk now st
     = (if (age <? 200) && lastValid (vision st) then lastLk (vision st) else f0_0)
  /\ (age = 201 -> useVision now st = false)
  /\ (age = 199 -> lastValid (vision st) = true -> useVision now st = true)
  /\ (0 <= lastVisionMs (vision st) <= now -> now < 2 ^ 32 ->
      useVision now st
      = (now - lastVisionMs (vision st) <? 200) && lastValid (vision st))
  /\ (useVision now st = false ->
      ctl (updateScheduler now st)
      = set_gains (centi 30) (centi 70) f0_0 (centi 10) (ctl st)).
Proof.
  intros Hage Hstamp.
  assert (useVision now st = (age <? 200) && lastValid (vision st)) as Hu.
  { unfold useVision, visionFresh. now rewrite Hstamp, u32_age. }
  split; [exact Hu|]. split; [unfold effectiveLk; now rewrite Hu|].
  split; [intros ->; rewrite Hu; reflexivity|].
  split; [intros -> Hv; rewrite Hu, Hv; reflexivity|].
  split.
  - intros Hr Hn. unfold useVision, visionFresh, u32.
    rewrite Z.mod_small by lia. reflexivity.
  - intros Hno. unfold updateScheduler. now rewrite Hno.
Qed.

Lemma vision_trusted_iff_fresh_and_valid_witness :
  useVision 1000 (stamped 801 true) = true
  /\ useVision 1000 (stamped 799 true) = false
  /\ useVision 100 (stamped (2 ^ 32 - 99) true) = true.
Proof.
  split; [|split].
  - destruct (vision_trusted_iff_fresh_and_valid 1000 199 (stamped 801 true))
      as (_ & _ & _ & H & _); [lia | reflexivity |].
    apply H; reflexivity.
  - destruct (vision_trusted_iff_fresh_and_valid 1000 201 (stamped 799 true))
      as (_ & _ & H & _); [lia | reflexivity |].
    apply H; reflexivity.
  - destruct (vision_trusted_iff_fresh_and_valid 100 199
                (stamped (2 ^ 32 - 99) true))
      as (_ & _ & _ & H & _); [lia | reflexivity |].
    apply H; reflexivity.
Defined.

Lemma scheduler_trusted now st :
  useVision now st = true ->
  let lk := lastLk (vision st) in
  let c := ctl (updateScheduler now st) in
  (ltb lk (centi 35) = true -> band_low c)
  /\ (ltb lk (centi 35) = false -> ltb lk (centi 70) = true -> band_mid c)
  /\ (ltb lk (centi 35) = false -> ltb lk (centi 70) = false -> band_high c).
Proof.
  intros Hu. cbv zeta. unfold updateScheduler, effectiveLk. rewrite Hu.
  cbn [negb].
  destruct (ltb (lastLk (vision st)) (centi 35)) eqn:H35;
    [|destruct (ltb (lastLk (vision st)) (centi 70)) eqn:H70];
    (split; [|split]); intros; try discriminate;
    repeat split; reflexivity.
Qed.

Lemma at_least_70_not_below_35 k :
  leb (centi 70) k = true -> ltb k (centi 35) = false.
Proof.
  unfold leb, ltb, SFleb, SFltb.
  destruct k as [s|s| |s m e]; try (destruct s; (discriminate || reflexivity)).
  - discriminate.
  - destruct s; [discriminate|].
    change (centi 70) with (S754_finite false 11744051 (-24)).
    change (centi 35) with (S754_finite false 11744051 (-25)).
    cbn [SFcompare].
    destruct (Z.compare_spec (-24) e) as [<-|Hlt|Hgt]; [reflexivity| |discriminate].
    intros _. destruct (Z.compare_spec e (-25)) as [->|Hlt'|Hgt']; try lia.
Qed.

(** C3.  Under trust, for every lookahead value in [0,1]: the base speed
    the scheduler leaves is within [BASE_MIN, BASE_MAX]; a value below 0.35
    selects the low band (speed 0.25, the highest Kp), a value from 0.35 up
    to but not including 0.70 the mid band (speed 0.40), a value of 0.70 or
    more the high band (speed 0.60, the lowest Kp and the highest Kd).  The
    value 0.35 itself is in the mid band and 0.70 itself in the high band.
    Across the bands Kp falls (0.85, 0.60, 0.45) and Kd rises (0.10, 0.12,
    0.16). *)
Theorem scheduler_bands now st :
  useVision now st = true ->
  leb f0_0 (lastLk (vision st)) = true ->
  leb (lastLk (vision st)) f1_0 = true ->
  let lk := lastLk (vision st) in
  let c := ctl (updateScheduler now st) in
  (leb BASE_MIN (baseSpeed c) = true /\ leb (baseSpeed c) BASE_MAX = true)
  /\ (ltb lk (centi 35) = true -> band_low c)
  /\ (leb (centi 35) lk = true -> ltb lk (centi 70) = true -> band_mid c)
  /\ (leb (centi 70) lk = true -> band_high c)
  /\ (lk = centi 35 -> band_mid c)
  /\ (lk = centi 70 -> band_high c)
  /\ (band_low c \/ band_mid c \/ band_high c)
  /\ (ltb (centi 45) (centi 60) = true /\ ltb (centi 60) (centi 85) = true)
  /\ (ltb (centi 10) (centi 12) = true /\ ltb (centi 12) (centi 16) = true).
Proof.
  intros Hu H0 H1. cbv zeta.
  destruct (scheduler_trusted now st Hu) as (Hlow & Hmid & Hhigh).
  set (lk := lastLk (vision st)) in *.
  set (c := ctl (updateScheduler now st)) in *.
  assert (band_low c \/ band_mid c \/ band_high c) as Hcases.
  { destruct (ltb lk (centi 35)) eqn:H35; [auto|].
    destruct (ltb lk (centi 70)) eqn:H70; auto. }
  split.
  { destruct Hcases as [(-> & _)|[(-> & _)|(-> & _)]]; split; reflexivity. }
  split; [exact Hlow|].
  split; [intros H35 H70; apply Hmid; [now apply leb_ltb_false | exact H70]|].
  split.
  { intros H70. apply Hhigh; [now apply at_least_70_not_below_35 | now apply leb_ltb_false]. }
  split.
  { intros ->. apply Hmid; reflexivity. }
  split; [intros ->; apply Hhigh; reflexivity|].
  split; [exact Hcases|]. repeat split; reflexivity.
Qed.

Lemma scheduler_bands_witness :
  band_high (ctl (updateScheduler 1000 (stamped 801 true))).
Proof.
  destruct (scheduler_bands 1000 (stamped 801 true) eq_refl eq_refl eq_refl)
    as (_ & _ & _ & H & _).
  apply H. reflexivity.
Defined.

(** [loop] when the tick is not due, and when it is. *)
Lemma loop_idle env st :
  tick_due env st = false ->
  loop env st = (readVisionSerial (millis_rx env) (serial env) st, None).
Proof.
  unfold tick_due, loop. rewrite readVisionSerial_ctl.
  destruct (_ <? CONTROL_DT_US); [reflexivity | discriminate].
Qed.

Lemma loop_tick env st :
  tick_due env st = true ->
  let r := pid_step (computeIrError (analog env)) (tick_dt env st)
                    (scheduled env st) in
  loop env st
  = (set_ctl (fst r) (scheduled_state env st),
     Some (mix (baseSpeed (fst r)) (snd r))).
Proof.
  unfold tick_due, tick_dt, scheduled, scheduled_state, loop.
  rewrite readVisionSerial_ctl.
  destruct (_ <? CONTROL_DT_US); [discriminate|]. intros _. cbv zeta.
  destruct (pid_step _ _ _) as [c u]. reflexivity.
Qed.

(** The scheduler writes the gains and the base speed only. *)
Lemma updateScheduler_pid now st :
  integ (ctl (updateScheduler now st)) = integ (ctl st)
  /\ prevE (ctl (updateScheduler now st)) = prevE (ctl st).
Proof.
  unfold updateScheduler.
  destruct (negb _); [split; reflexivity|].
  destruct (ltb _ _); [split; reflexivity|].
  destruct (ltb _ _); split; reflexivity.
Qed.

Lemma scheduled_pid env st :
  integ (scheduled env st) = integ (ctl st)
  /\ prevE (scheduled env st) = prevE (ctl st).
Proof.
  unfold scheduled, scheduled_state.
  destruct (updateScheduler_pid (millis_sched env)
    (set_ctl (set_lastControlUs (micros env)
       (ctl (readVisionSerial (millis_rx env) (serial env) st)))
       (readVisionSerial (millis_rx env) (serial env) st))) as [-> ->].
  cbn [ctl set_ctl integ prevE set_lastControlUs].
  now rewrite readVisionSerial_ctl.
Qed.

(** Every profile the scheduler can select, safe mode and the three bands. *)
Lemma scheduled_profiles env st :
  let c := scheduled env st in
  Ki c = f0_0
  /\ In (baseSpeed c, Kp c, Kd c)
        [(centi 30, centi 70, centi 10); (centi 25, centi 85, centi 10);
         (centi 40, centi 60, centi 12); (centi 60, centi 45, centi 16)].
Proof.
  cbv zeta. unfold scheduled, scheduled_state, updateScheduler.
  destruct (negb _); [split; [reflexivity | left; reflexivity]|].
  destruct (ltb _ _); [split; [reflexivity | right; left; reflexivity]|].
  destruct (ltb _ _); split; try reflexivity.
  - right; right; left; reflexivity.
  - right; right; right; left; reflexivity.
Qed.

(** C8.  In every call of [loop] the two fields of the PID state go
    together: when the tick is not due both are left as they were; in a tick
    that finds the line both take the PID update; in a tick that finds the
    line lost both are set to zero.  No call zeroes one and not the other. *)
Theorem pid_state_reset_together env st :
  let st' := fst (loop env st) in
  if tick_due env st then
    match computeIrError (analog env) with
    | None => integ (ctl st') = f0_0 /\ prevE (ctl st') = f0_0
    | Some e =>
        integ (ctl st') = add (integ (ctl st)) (mul e (tick_dt env st))
        /\ prevE (ctl st') = e
    end
  else integ (ctl st') = integ (ctl st) /\ prevE (ctl st') = prevE (ctl st).
Proof.
  cbv zeta. destruct (tick_due env st) eqn:Hdue.
  - rewrite (loop_tick env st Hdue). cbn [fst ctl set_ctl].
    destruct (scheduled_pid env st) as [Hi Hp].
    destruct (computeIrError (analog env)) as [e|]; cbn [pid_step fst integ prevE].
    + now rewrite Hi.
    + split; reflexivity.
  - rewrite (loop_idle env st Hdue). cbn [fst].
    now rewrite readVisionSerial_ctl.
Qed.

(** ** Line loss *)





(** ** The integral stays finite *)

Section IntegralBound.

Lemma ir_loop_bound (analogRead : Z -> Z) n i sum wsum a :
  (forall j, 0 <= analogRead j <= 1023) ->
  0 <= i -> i + Z.of_nat n <= 8 ->
  bounded_by a sum -> bounded_by a wsum ->
  6 <= a -> a + 2 * Z.of_nat n <= 127 ->
  bounded_by (a + 2 * Z.of_nat n) (fst (ir_loop analogRead n i sum wsum))
  /\ bounded_by (a + 2 * Z.of_nat n) (snd (ir_loop analogRead n i sum wsum)).
Proof.
  intros Hadc. revert i sum wsum a.
  induction n as [|n IH]; intros i sum wsum a Hi Hin Hs Hw Ha Han.
  - cbn [ir_loop fst snd]. rewrite Z.add_0_r. now split.
  - cbn [ir_loop].
    assert (bounded_by 2 (div (of_Z (analogRead i)) f1023)) as Hv.
    { apply (div_bound 10 9); [|vm_compute; discriminate | lia].
      apply of_Z_bound; [|lia]. specialize (Hadc i). change (2 ^ 10) with 1024. lia. }
    assert (bounded_by 6 (mul (div (of_Z (analogRead i)) f1023) (of_Z i))) as Hvi.
    { apply (mul_bound 2 3); [exact Hv | | lia].
      apply of_Z_bound; [|lia]. change (2 ^ 3) with 8. lia. }
    replace (a + 2 * Z.of_nat (S n)) with (a + 2 + 2 * Z.of_nat n) by lia.
    apply IH; try lia.
    + apply add_bound; [exact Hs | | lia].
      apply (bounded_by_mono 2); [lia | exact Hv].
    + apply add_bound; [exact Hw | | lia].
      apply (bounded_by_mono 6); [lia | exact Hvi].
Qed.

(** The lateral error the sensor reports is a finite number. *)
Lemma computeIrError_bound (analogRead : Z -> Z) e :
  (forall j, 0 <= analogRead j <= 1023) ->
  computeIrError analogRead = Some e -> bounded_by 50 e.
Proof.
  intros Hadc. unfold computeIrError.
  destruct (ir_loop_bound analogRead 8 0 f0_0 f0_0 6 Hadc) as [Hs Hw];
    try lia; try exact I.
  destruct (ir_loop analogRead 8 0 f0_0 f0_0) as [sum wsum]. cbn [fst snd] in *.
  change (6 + 2 * Z.of_nat 8) with 22 in *.
  destruct (ltb sum f0_01) eqn:Hlt; [discriminate|]. intros [= <-].
  pose proof (not_below_threshold sum (bounded_by_finite _ _ Hs) Hlt) as Hge.
  apply (mul_bound 55 (-6)); [| vm_compute; discriminate | lia].
  apply (sub_bound 53); [| vm_compute; discriminate | lia].
  apply (div_bound 22 (-30)); [exact Hw | exact Hge | lia].
Qed.

Lemma u32_range z : 0 <= u32 z < 2 ^ 32.
Proof. unfold u32. apply Z.mod_pos_bound. reflexivity. Qed.

Lemma tick_dt_bound env st : bounded_by 14 (tick_dt env st).
Proof.
  unfold tick_dt. apply (div_bound 32 19); [| vm_compute; discriminate | lia].
  apply of_Z_bound; [|lia].
  pose proof (u32_range (micros env - lastControlUs (ctl st))). lia.
Qed.

End IntegralBound.

(** ** The integral gain *)

Section ZeroTerm.
Implicit Types x y z : float32.

Lemma mul_zero_finite x :
  is_finite x = true -> is_zero (mul f0_0 x) = true.
Proof. destruct x; simpl; trivial; discriminate. Qed.




End ZeroTerm.

Lemma reachable_Ki st : reachable st -> Ki (ctl st) = f0_0.
Proof.
  induction 1 as [|env st _ _ IH]; [reflexivity|].
  destruct (tick_due env st) eqn:Hdue.
  - rewrite (loop_tick env st Hdue). cbn [fst ctl set_ctl].
    destruct (scheduled_profiles env st) as [HKi _].
    destruct (computeIrError (analog env)); cbn [pid_step fst Ki]; exact HKi.
  - rewrite (loop_idle env st Hdue). cbn [fst].
    now rewrite readVisionSerial_ctl.
Qed.

(** In every reachable state the integral is a finite number, of magnitude
    at most [2^91]: each tick adds at most [2^65] to it, which a float of
    that size absorbs without growing. *)
Lemma reachable_integ st : reachable st -> bounded_by 91 (integ (ctl st)).
Proof.
  induction 1 as [|env st Hboard _ IH]; [exact I|].
  destruct (tick_due env st) eqn:Hdue.
  - rewrite (loop_tick env st Hdue). cbn [fst ctl set_ctl].
    destruct (scheduled_pid env st) as [Hi _].
    destruct (computeIrError (analog env)) as [e|] eqn:He;
      cbn [pid_step fst integ]; [|exact I].
    rewrite Hi. apply add_absorb; [exact IH | | lia].
    apply (mul_bound 50 14); [|apply tick_dt_bound | lia].
    now apply (computeIrError_bound (analog env)).
  - rewrite (loop_idle env st Hdue). cbn [fst].
    now rewrite readVisionSerial_ctl.
Qed.


Lemma board_ok_tick_tracked : board_ok tick_tracked.
Proof.
  intros i. cbn [analog tick_tracked]. unfold centred.
  destruct ((i =? 3) || (i =? 4)); lia.
Qed.


(** ** The wheel commands stay in range *)

Lemma tick_dt_at_least env st :
  tick_due env st = true -> at_least (-9) (tick_dt env st).
Proof.
  unfold tick_due, tick_dt, CONTROL_DT_US. intros Hdue.
  pose proof (u32_range (micros env - lastControlUs (ctl st))) as Hr.
  destruct (Z.ltb_spec (u32 (micros env - lastControlUs (ctl st))) 5000)
    as [?|Hge]; [discriminate|].
  assert (at_least 12 (of_Z (u32 (micros env - lastControlUs (ctl st))))
          /\ bounded_by 32 (of_Z (u32 (micros env - lastControlUs (ctl st)))))
    as [Hlo Hhi].
  { apply of_Z_range; [lia | change (2 ^ 12) with 4096; lia | apply Hr | lia]. }
  apply (div_at_least 12 20 19 32); try assumption; try lia;
    vm_compute; discriminate.
Qed.

Lemma reachable_prevE st : reachable st -> bounded_by 50 (prevE (ctl st)).
Proof.
  induction 1 as [|env st Hboard _ IH]; [exact I|].
  destruct (tick_due env st) eqn:Hdue.
  - rewrite (loop_tick env st Hdue). cbn [fst ctl set_ctl].
    destruct (computeIrError (analog env)) as [e|] eqn:He;
      cbn [pid_step fst prevE]; [|exact I].
    now apply (computeIrError_bound (analog env)).
  - rewrite (loop_idle env st Hdue). cbn [fst].
    now rewrite readVisionSerial_ctl.
Qed.

Lemma scheduled_gains_bound env st :
  let c := scheduled env st in
  bounded_by 0 (baseSpeed c) /\ bounded_by 0 (Kp c) /\ bounded_by 0 (Kd c).
Proof.
  cbv zeta. destruct (scheduled_profiles env st) as [_ Hp].
  destruct Hp as [H|[H|[H|[H|[]]]]]; injection H as <- <- <-;
    repeat split; vm_compute; discriminate.
Qed.

(** The correction of a tick is a finite number. *)
Lemma pid_step_bound env st :
  reachable st -> board_ok env -> tick_due env st = true ->
  let r := pid_step (computeIrError (analog env)) (tick_dt env st)
                    (scheduled env st) in
  bounded_by 1 (baseSpeed (fst r)) /\ bounded_by 65 (snd r).
Proof.
  intros Hreach Hboard Hdue. cbv zeta.
  destruct (scheduled_gains_bound env st) as (Hbs & Hkp & Hkd).
  destruct (scheduled_profiles env st) as [HKi _].
  destruct (scheduled_pid env st) as [Hi Hp].
  destruct (computeIrError (analog env)) as [e|] eqn:He;
    cbn [pid_step fst snd baseSpeed].
  - split; [apply (bounded_by_mono 0); [lia | exact Hbs]|].
    pose proof (computeIrError_bound (analog env) e Hboard He) as Hbe.
    pose proof (reachable_integ _ (reach_loop env st Hboard Hreach)) as Hint.
    rewrite (loop_tick env st Hdue), He in Hint.
    cbn [fst ctl set_ctl pid_step integ] in Hint.
    rewrite HKi, Hp.
    apply (add_bound 63); [| |lia].
    + apply (bounded_by_mono 53); [lia|].
      apply (add_bound 51); [| |lia].
      * apply (mul_bound 0 50); [exact Hkp | exact Hbe | lia].
      * pose proof (mul_zero_finite _ (bounded_by_finite _ _ Hint)) as Hz.
        destruct (mul f0_0 _); try discriminate Hz. exact I.
    + apply (mul_bound 0 62); [exact Hkd | | lia].
      apply (div_bound 52 (-9));
        [| now apply tick_dt_at_least | lia].
      apply (sub_bound 50); [exact Hbe | now apply reachable_prevE | lia].
  - split; [|exact I].
    apply (mul_bound 0 0); [exact Hbs | vm_compute; discriminate | lia].
Qed.

Lemma bounded_by_not_nan k x : bounded_by k x -> is_nan x = false.
Proof. destruct x; simpl; trivial; contradiction. Qed.

Lemma mix_range bs u :
  bounded_by 65 bs -> bounded_by 65 u ->
  let m1 := SFopp f1_0 in
  (leb m1 (left (mix bs u)) = true /\ leb (left (mix bs u)) f1_0 = true)
  /\ (leb m1 (right (mix bs u)) = true /\ leb (right (mix bs u)) f1_0 = true).
Proof.
  intros Hbs Hu. cbv zeta. unfold mix. cbn [left right].
  split; apply clampf_range; try reflexivity;
    apply (bounded_by_not_nan 67);
    [apply (sub_bound 65) | apply (add_bound 65)]; assumption || lia.
Qed.

(** In every tick of a reachable execution both wheel commands are numbers
    in [-1,1]. *)
Lemma wheel_commands_in_range env st :
  reachable st -> board_ok env -> tick_due env st = true ->
  exists cmd,
    snd (loop env st) = Some cmd
    /\ leb (SFopp f1_0) (left cmd) = true /\ leb (left cmd) f1_0 = true
    /\ leb (SFopp f1_0) (right cmd) = true /\ leb (right cmd) f1_0 = true.
Proof.
  intros Hreach Hboard Hdue.
  rewrite (loop_tick env st Hdue). cbn [snd].
  destruct (pid_step_bound env st Hreach Hboard Hdue) as [Hbs Hu].
  eexists. split; [reflexivity|].
  destruct (mix_range _ _ (bounded_by_mono 1 65 _ ltac:(lia) Hbs) Hu)
    as [[H1 H2] [H3 H4]].
  repeat split; assumption.
Qed.

(** C7.  The wheel commands are [baseSpeed - u] and [baseSpeed + u], each
    passed through its own clamp to [-1,1]: a side that is within range is
    emitted as it is whether or not the other side saturates, and in every
    tick of a reachable execution both commands are numbers in [-1,1].
    With base speed 0.60 and correction 0.90 the left command is the float
    difference 0.60f - 0.90f (within 1e-7 of -0.30) and the right command
    is 1. *)
Theorem mixer_clamps_each_wheel bs u :
  let m1 := SFopp f1_0 in
  left (mix bs u) = clampf (sub bs u) m1 f1_0
  /\ right (mix bs u) = clampf (add bs u) m1 f1_0
  /\ (is_nan (sub bs u) = false ->
      leb m1 (left (mix bs u)) = true /\ leb (left (mix bs u)) f1_0 = true)
  /\ (is_nan (add bs u) = false ->
      leb m1 (right (mix bs u)) = true /\ leb (right (mix bs u)) f1_0 = true)
  /\ (leb m1 (sub bs u) = true -> leb (sub bs u) f1_0 = true ->
      left (mix bs u) = sub bs u)
  /\ (leb m1 (add bs u) = true -> leb (add bs u) f1_0 = true ->
      right (mix bs u) = add bs u)
  /\ (forall env st, tick_due env st = true ->
      exists c v, snd (loop env st) = Some (mix (baseSpeed c) v))
  /\ (forall env st, reachable st -> board_ok env -> tick_due env st = true ->
      exists cmd,
        snd (loop env st) = Some cmd
        /\ leb m1 (left cmd) = true /\ leb (left cmd) f1_0 = true
        /\ leb m1 (right cmd) = true /\ leb (right cmd) f1_0 = true)
  /\ (bs = centi 60 -> u = centi 90 ->
      mix bs u = {| left := S754_finite true 10066328 (-25); right := f1_0 |}
      /\ (-3 # 10) - (1 # 10000000) < to_Q (left (mix bs u))
         < (-3 # 10) + (1 # 10000000))%Q.
Proof.
  cbv zeta. split; [reflexivity|]. split; [reflexivity|].
  split; [intros H; apply clampf_range; [exact H | reflexivity]|].
  split; [intros H; apply clampf_range; [exact H | reflexivity]|].
  split; [intros H1 H2; now apply clampf_inside|].
  split; [intros H1 H2; now apply clampf_inside|].
  split.
  { intros env st Hdue. rewrite (loop_tick env st Hdue). eauto. }
  split; [exact wheel_commands_in_range|].
  intros -> ->. split; [reflexivity|]. split; reflexivity.
Qed.

Lemma mixer_clamps_each_wheel_witness :
  left (mix (centi 60) (centi 90)) = sub (centi 60) (centi 90)
  /\ right (mix (centi 60) (centi 90)) = f1_0
  /\ right (mix (centi 60) (centi 90)) <> add (centi 60) (centi 90).
Proof.
  destruct (mixer_clamps_each_wheel (centi 60) (centi 90))
    as (_ & _ & _ & _ & Hl & _ & _ & _ & Hex).
  split; [apply Hl; reflexivity|].
  destruct (Hex eq_refl eq_refl) as [-> _].
  split; [reflexivity | discriminate].
Defined.

(** * Further properties of the firmware *)

(** ** The receiver *)

Lemma loop_rx_vision env st :
  rx (fst (loop env st)) = rx (readVisionSerial (millis_rx env) (serial env) st)
  /\ vision (fst (loop env st))
     = vision (readVisionSerial (millis_rx env) (serial env) st).
Proof.
  destruct (tick_due env st) eqn:Hdue.
  - rewrite (loop_tick env st Hdue). cbn [fst rx vision set_ctl].
    unfold scheduled_state, updateScheduler.
    destruct (negb _); [split; reflexivity|].
    split; reflexivity.
  - rewrite (loop_idle env st Hdue). split; reflexivity.
Qed.

(** X1.  The receive buffer is never overrun: in every reachable state,
    whatever bytes the serial link delivered, the buffer has its 40 bytes
    and the write index is at most 39, so that both [buf[idx++] = c] and
    [buf[idx] = 0] write inside the array. *)
Theorem rx_buffer_never_overrun st :
  reachable st ->
  length (buf (rx st)) = 40%nat /\ (idx (rx st) <= 39)%nat.
Proof.
  intros H. assert (rx_ok st) as [H1 H2]; [|unfold BUF_SIZE in *; lia].
  induction H as [|env st _ _ IH]; [apply init_rx_ok|].
  unfold rx_ok. destruct (loop_rx_vision env st) as [-> _].
  now apply readVisionSerial_ok.
Qed.

Lemma rx_buffer_never_overrun_witness :
  length (buf (rx (fst (loop tick_tracked init_state)))) = 40%nat
  /\ (idx (rx (fst (loop tick_tracked init_state))) <= 39)%nat.
Proof.
  apply (rx_buffer_never_overrun (fst (loop tick_tracked init_state))).
  apply reach_loop; [apply board_ok_tick_tracked | apply reach_init].
Defined.

(** X2.  Bytes other than a newline never change the vision sample, and no
    byte at all changes the control state: a partial line, however long,
    is not acted upon. *)
Theorem sample_changes_only_at_newline now l st :
  NL ∉ l ->
  vision (readVisionSerial now l st) = vision st
  /\ ctl (readVisionSerial now l st) = ctl st.
Proof.
  intros Hnl. split; [|apply readVisionSerial_ctl].
  revert st. induction l as [|c l IH]; intros st; [reflexivity|].
  apply not_elem_of_cons in Hnl as [Hc Hl].
  rewrite readVisionSerial_cons, (IH Hl).
  apply rx_byte_other_vision. congruence.
Qed.

Lemma sample_changes_only_at_newline_witness :
  vision (readVisionSerial 7 (str "L,0.5,1") init_state) = vision init_state
  /\ ctl (readVisionSerial 7 (str "L,0.5,1") init_state) = ctl init_state.
Proof.
  apply (sample_changes_only_at_newline 7 (str "L,0.5,1") init_state).
  no_newline.
Defined.

(** X3.  Lines are handled one after the other, each on its own: after a
    sequence of newline-terminated lines the sample is the result of
    ingesting the buffered text of each line in turn, so it is that of the
    last acceptable line, and what earlier lines left in the buffer has no
    effect on later ones. *)
Theorem lines_ingested_in_turn now ls st :
  rx_ok st -> idx (rx st) = 0%nat ->
  Forall (λ l, NL ∉ l) ls ->
  vision (readVisionSerial now (frame ls) st)
  = foldl (λ v l, ingest now (buffered l) v) (vision st) ls
  /\ idx (rx (readVisionSerial now (frame ls) st)) = 0%nat.
Proof.
  intros Hok H0 Hls. revert st Hok H0.
  induction Hls as [|l ls Hl _ IH]; intros st Hok H0.
  - split; [reflexivity | exact H0].
  - change (frame (l :: ls)) with ((l ++ [NL]) ++ frame ls).
    cbn [foldl]. rewrite readVisionSerial_app.
    destruct (rx_line_state now l st Hok) as (_ & Hok' & H0').
    destruct (IH _ Hok' H0') as [-> ->].
    now rewrite rx_line.
Qed.

Lemma lines_ingested_in_turn_witness :
  vision (readVisionSerial 9 (frame [str "L,0.9,1"; str "junk"; str "L,0.5,0"])
                           init_state)
  = {| lastLk := f0_5; lastValid := false; lastVisionMs := 9 |}.
Proof.
  destruct (lines_ingested_in_turn 9 [str "L,0.9,1"; str "junk"; str "L,0.5,0"]
              init_state) as [-> _].
  - apply init_rx_ok.
  - reflexivity.
  - repeat constructor; no_newline.
  - vm_compute. reflexivity.
Defined.

(** X4.  The receiver resynchronises at every newline: whatever bytes came
    before (of any length, with or without newlines, from any state of the
    buffer), once a newline has been consumed the next line of at most 39
    bytes is read whole and judged on its own text. *)
Theorem receiver_resynchronises now0 now junk l st :
  rx_ok st -> NL ∉ l -> (length l < BUF_SIZE)%nat ->
  let st1 := readVisionSerial now0 (junk ++ [NL]) st in
  idx (rx st1) = 0%nat
  /\ vision (readVisionSerial now (l ++ [NL]) st1) = ingest now l (vision st1).
Proof.
  intros Hok Hnl Hlen. cbv zeta.
  destruct (rx_line_state now0 junk st Hok) as (_ & Hok1 & H01).
  split; [exact H01|]. now apply rx_short_line.
Qed.

Lemma receiver_resynchronises_witness :
  let st1 := readVisionSerial 3 (overlong_example ++ [NL]) init_state in
  idx (rx st1) = 0%nat
  /\ vision (readVisionSerial 5 (str "L,0.42,1" ++ [NL]) st1)
     = ingest 5 (str "L,0.42,1") (vision st1).
Proof.
  apply (receiver_resynchronises 3 5 overlong_example (str "L,0.42,1") init_state).
  - apply init_rx_ok.
  - no_newline.
  - vm_compute. lia.
Defined.

Lemma readVisionSerial_chunks (chunks : list (Z * list ascii)) now st :
  Forall (λ c, NL ∉ c.2) chunks ->
  foldl (λ s c, readVisionSerial c.1 c.2 s) st chunks
  = readVisionSerial now (concat (map snd chunks)) st.
Proof.
  intros H. revert st. induction H as [|[t c] chunks Hc _ IH]; intros st.
  - reflexivity.
  - cbn [foldl map concat fst snd]. rewrite IH, readVisionSerial_app.
    f_equal. now apply readVisionSerial_clock.
Qed.

(** X5.  A line may arrive in any number of pieces.  Bytes delivered over
    several calls of [readVisionSerial], at whatever times, followed by a
    call that delivers the rest of the line and its newline, leave exactly
    the state that a single call with the whole line would leave at the
    time of that last call: the line is parsed the same and is stamped with
    the time at which its newline was read. *)
Theorem line_split_over_calls (chunks : list (Z * list ascii)) now l st :
  Forall (λ c, NL ∉ c.2) chunks ->
  readVisionSerial now (l ++ [NL])
    (foldl (λ s c, readVisionSerial c.1 c.2 s) st chunks)
  = readVisionSerial now (concat (map snd chunks) ++ l ++ [NL]) st.
Proof.
  intros H. rewrite (readVisionSerial_chunks chunks now st H).
  now rewrite (readVisionSerial_app now (concat (map snd chunks))).
Qed.

Lemma line_split_over_calls_witness :
  vision (readVisionSerial 30 (str ",1" ++ [NL])
            (readVisionSerial 20 (str "0.4")
               (readVisionSerial 10 (str "L,") init_state)))
  = {| lastLk := centi 40; lastValid := true; lastVisionMs := 30 |}.
Proof.
  pose proof (line_split_over_calls [(10, str "L,"); (20, str "0.4")] 30
                (str ",1") init_state) as H.
  cbn [foldl fst snd] in H. rewrite H.
  - vm_compute. reflexivity.
  - repeat constructor; no_newline.
Defined.

Lemma rx_byte_lookahead now c st :
  lk_in_unit_or_nan (vision st) -> lk_in_unit_or_nan (vision (rx_byte now c st)).
Proof.
  intros H. unfold rx_byte.
  destruct (Ascii.eqb c NL); [|destruct (_ <? _)%nat; exact H].
  cbv zeta. destruct (_ && _); [|exact H].
  destruct (sscanf_L_f_d _ _ _) as [[n lk] v].
  destruct (n =? 2); [|exact H].
  cbn [vision set_vision]. unfold lk_in_unit_or_nan. cbn [lastLk].
  destruct (is_nan lk) eqn:Hn.
  - left. destruct lk; try discriminate. reflexivity.
  - right. apply clampf_range; [exact Hn | reflexivity].
Qed.

Lemma readVisionSerial_lookahead now l st :
  lk_in_unit_or_nan (vision st) ->
  lk_in_unit_or_nan (vision (readVisionSerial now l st)).
Proof.
  revert st. induction l as [|c l IH]; intros st H; [exact H|].
  rewrite readVisionSerial_cons. apply IH, rx_byte_lookahead, H.
Qed.

(** X6.  In every reachable state the stored lookahead is a number in
    [0,1] or is not a number: whatever the serial link delivers, no value
    below 0 or above 1 (and no infinity) is ever kept. *)
Theorem stored_lookahead_in_unit_or_nan st :
  reachable st -> lk_in_unit_or_nan (vision st).
Proof.
  induction 1 as [|env st _ _ IH].
  - right. split; reflexivity.
  - destruct (loop_rx_vision env st) as [_ ->].
    now apply readVisionSerial_lookahead.
Qed.

Lemma board_ok_tick_with_line l : board_ok (tick_with_line l).
Proof.
  intros i. cbn [analog tick_with_line]. unfold centred.
  destruct ((i =? 3) || (i =? 4)); lia.
Qed.

Lemma stored_lookahead_in_unit_or_nan_witness :
  lk_in_unit_or_nan (vision (fst (loop (tick_with_line "L,-7e9,1") init_state)))
  /\ lastLk (vision (fst (loop (tick_with_line "L,-7e9,1") init_state))) = f0_0.
Proof.
  split; [|vm_compute; reflexivity].
  apply (stored_lookahead_in_unit_or_nan
           (fst (loop (tick_with_line "L,-7e9,1") init_state))).
  apply reach_loop; [apply board_ok_tick_with_line | apply reach_init].
Defined.

(** X7.  Receiver and scheduler together: once a line of at most 39 bytes
    that the parser accepts has been read at time [now], the scheduler
    called at time [t] trusts vision exactly when fewer than 200 ms have
    passed on the wrapping millisecond clock and the flag field of the line
    is not 0.  A line whose flag is 0 therefore puts the very next tick in
    safe mode, whatever sample was held before; a line with a non-zero flag
    selects, while fresh, the band of its clamped lookahead value. *)
Theorem line_flag_and_age_decide_trust now t l lk v st :
  rx_ok st -> idx (rx st) = 0%nat -> NL ∉ l -> (length l < BUF_SIZE)%nat ->
  accepted l = Some (lk, v) ->
  let st' := readVisionSerial now (l ++ [NL]) st in
  let c := ctl (updateScheduler t st') in
  let k := clampf lk f0_0 f1_0 in
  useVision t st' = (u32 (t - now) <? 200) && negb (v =? 0)
  /\ (v = 0 -> safe_mode c)
  /\ (200 <= u32 (t - now) -> safe_mode c)
  /\ (v <> 0 -> u32 (t - now) < 200 ->
      (ltb k (centi 35) = true -> band_low c)
      /\ (ltb k (centi 35) = false -> ltb k (centi 70) = true -> band_mid c)
      /\ (ltb k (centi 35) = false -> ltb k (centi 70) = false -> band_high c)).
Proof.
  intros Hok H0 Hnl Hlen Hacc. cbv zeta.
  pose proof (parsed_line_sample now st l lk v Hok H0 Hnl Hlen Hacc) as Hv.
  set (st' := readVisionSerial now (l ++ [NL]) st) in *.
  assert (useVision t st' = (u32 (t - now) <? 200) && negb (v =? 0)) as Hu.
  { unfold useVision, visionFresh. rewrite Hv. reflexivity. }
  assert (useVision t st' = false -> safe_mode (ctl (updateScheduler t st')))
    as Hsafe.
  { intros Hno. unfold updateScheduler. rewrite Hno. repeat split. }
  split; [exact Hu|]. split; [|split].
  - intros ->. apply Hsafe. rewrite Hu. apply andb_false_r.
  - intros Hold. apply Hsafe. rewrite Hu.
    destruct (Z.ltb_spec (u32 (t - now)) 200); [lia | reflexivity].
  - intros Hv0 Hage.
    assert (useVision t st' = true) as Hyes.
    { rewrite Hu. destruct (Z.ltb_spec (u32 (t - now)) 200); [|lia].
      destruct (Z.eqb_spec v 0); [contradiction | reflexivity]. }
    pose proof (scheduler_trusted t st' Hyes) as Hb. cbv zeta in Hb.
    rewrite Hv in Hb. exact Hb.
Qed.

Lemma line_flag_and_age_decide_trust_witness :
  useVision 150 (readVisionSerial 100 (str "L,0.8,1" ++ [NL]) (stamped 0 false))
  = true
  /\ band_high (ctl (updateScheduler 150
       (readVisionSerial 100 (str "L,0.8,1" ++ [NL]) (stamped 0 false)))).
Proof.
  destruct (line_flag_and_age_decide_trust 100 150 (str "L,0.8,1")
              (of_dec false 8 (-1)) 1 (stamped 0 false))
    as (H1 & _ & _ & H4).
  - split; [reflexivity | vm_compute; lia].
  - reflexivity.
  - no_newline.
  - vm_compute. lia.
  - vm_compute. reflexivity.
  - split; [rewrite H1; reflexivity|].
    assert (u32 (150 - 100) < 200) as Hage by (vm_compute; reflexivity).
    destruct (H4 ltac:(lia) Hage) as (_ & _ & H).
    apply H; vm_compute; reflexivity.
Defined.

(** ** clampf *)

(** X8.  Clamping twice is clamping once: with bounds in order, the result
    of [clampf] is a fixed point of [clampf] with the same bounds, also when
    the argument is not a number.  With the bounds out of order this fails,
    as the second part shows. *)
Theorem clampf_idempotent x lo hi :
  leb lo hi = true ->
  clampf (clampf x lo hi) lo hi = clampf x lo hi.
Proof.
  intros Hlh. destruct (is_nan x) eqn:Hn.
  - destruct x; try discriminate. now rewrite !clampf_nan.
  - destruct (clampf_range x lo hi Hn Hlh) as [H1 H2].
    now apply clampf_inside.
Qed.

Lemma clampf_idempotent_witness :
  clampf (clampf (centi 150) (SFopp f1_0) f1_0) (SFopp f1_0) f1_0
  = clampf (centi 150) (SFopp f1_0) f1_0
  /\ clampf (clampf f0_5 f1_0 f0_0) f1_0 f0_0 <> clampf f0_5 f1_0 f0_0.
Proof.
  split; [|vm_compute; discriminate].
  apply (clampf_idempotent (centi 150) (SFopp f1_0) f1_0). reflexivity.
Defined.

(** ** The scheduler *)

(** X9.  What [updateScheduler] does and does not do, in any state and at
    any time: it leaves the vision sample, the receive buffer, the tick
    time and the PID memory alone; it sets the integral gain to 0 and the
    other gains and the base speed to one of its four profiles; the base
    speed it leaves is within [BASE_MIN, BASE_MAX] (also in safe mode, which
    returns before the clamp); and calling it again at the same time changes
    nothing. *)
Theorem scheduler_sets_profile_only now st :
  let st' := updateScheduler now st in
  vision st' = vision st /\ rx st' = rx st
  /\ lastControlUs (ctl st') = lastControlUs (ctl st)
  /\ integ (ctl st') = integ (ctl st) /\ prevE (ctl st') = prevE (ctl st)
  /\ Ki (ctl st') = f0_0
  /\ In (baseSpeed (ctl st'), Kp (ctl st'), Kd (ctl st'))
        [(centi 30, centi 70, centi 10); (centi 25, centi 85, centi 10);
         (centi 40, centi 60, centi 12); (centi 60, centi 45, centi 16)]
  /\ leb BASE_MIN (baseSpeed (ctl st')) = true
  /\ leb (baseSpeed (ctl st')) BASE_MAX = true
  /\ updateScheduler now st' = st'.
Proof.
  cbv zeta.
  assert (forall c, useVision now (set_ctl c st) = useVision now st) as Hu
    by reflexivity.
  assert (forall c, effectiveLk now (set_ctl c st) = effectiveLk now st) as He
    by reflexivity.
  unfold updateScheduler at 1 2 3 4 5 6 7 8 9 10 11 13.
  destruct (negb (useVision now st)) eqn:Hno.
  { repeat (split; [try reflexivity; simpl; auto|]).
    unfold updateScheduler. rewrite Hu, Hno. reflexivity. }
  destruct (ltb (effectiveLk now st) (centi 35)) eqn:H35.
  { repeat (split; [try reflexivity; simpl; auto|]).
    unfold updateScheduler. rewrite Hu, Hno, He, H35. reflexivity. }
  destruct (ltb (effectiveLk now st) (centi 70)) eqn:H70.
  { repeat (split; [try reflexivity; simpl; auto|]).
    unfold updateScheduler. rewrite Hu, Hno, He, H35, H70. reflexivity. }
  repeat (split; [try reflexivity; simpl; auto 6|]).
  unfold updateScheduler. rewrite Hu, Hno, He, H35, H70. reflexivity.
Qed.

Lemma speeds_in_range bs :
  In bs base_speeds ->
  leb (of_dec false 125 (-3)) bs = true /\ leb bs (centi 60) = true.
Proof.
  unfold base_speeds. cbn [In].
  intros H. repeat (destruct H as [<-|H]; [split; reflexivity|]).
  contradiction.
Qed.

(** X10.  The gains and the base speed only ever take values from fixed
    finite sets: in every reachable state the gains are those at reset or
    one of the four profiles, and the base speed is the one at reset, one of
    the four scheduled speeds or half of one of them.  The base speed is
    therefore always between 0.125 and 0.60: it can be below [BASE_MIN]
    (after a tick without line) but is never zero, negative or above
    [BASE_MAX]. *)
Theorem gains_and_speed_from_fixed_sets st :
  reachable st ->
  In (Kp (ctl st), Ki (ctl st), Kd (ctl st)) gain_sets
  /\ In (baseSpeed (ctl st)) base_speeds
  /\ leb (of_dec false 125 (-3)) (baseSpeed (ctl st)) = true
  /\ leb (baseSpeed (ctl st)) (centi 60) = true.
Proof.
  intros H.
  assert (In (Kp (ctl st), Ki (ctl st), Kd (ctl st)) gain_sets
          /\ In (baseSpeed (ctl st)) base_speeds) as [H1 H2].
  2:{ split; [exact H1|]. split; [exact H2|]. now apply speeds_in_range. }
  induction H as [|env st _ _ IH].
  - split; left; reflexivity.
  - destruct (tick_due env st) eqn:Hdue.
    + rewrite (loop_tick env st Hdue). cbn [fst ctl set_ctl].
      destruct (scheduled_profiles env st) as [HKi Hp].
      destruct (computeIrError (analog env));
        cbn [pid_step fst Kp Ki Kd baseSpeed]; rewrite HKi;
        destruct Hp as [Hp|[Hp|[Hp|[Hp|[]]]]]; injection Hp as <- <- <-;
        (split; [unfold gain_sets; cbn [In]; auto 6
                | vm_compute; auto 10]).
    + rewrite (loop_idle env st Hdue). cbn [fst].
      rewrite readVisionSerial_ctl. exact IH.
Qed.

Lemma board_ok_all_dark l t1 t2 t3 : board_ok (mkEnv l t1 t2 t3 all_dark).
Proof. intros i. cbn [analog]. unfold all_dark. lia. Qed.

Lemma gains_and_speed_from_fixed_sets_witness :
  In (baseSpeed (ctl (run [tick_tracked; tick_lost_1] init_state))) base_speeds
  /\ ltb (baseSpeed (ctl (run [tick_tracked; tick_lost_1] init_state))) BASE_MIN
     = true.
Proof.
  split; [|vm_compute; reflexivity].
  apply (gains_and_speed_from_fixed_sets
           (run [tick_tracked; tick_lost_1] init_state)).
  change (run [tick_tracked; tick_lost_1] init_state)
    with (fst (loop tick_lost_1 (fst (loop tick_tracked init_state)))).
  apply reach_loop; [apply board_ok_all_dark|].
  apply reach_loop; [apply board_ok_tick_tracked | apply reach_init].
Defined.

Lemma compare_cont_Eq_spec p q :
  CompareSpec (p = q) (p < q)%positive (q < p)%positive (Pos.compare_cont Eq p q).
Proof. exact (Pos.compare_spec p q). Qed.

Lemma lex_compare_spec e1 m1 e2 m2 :
  CompareSpec (e1 = e2 /\ m1 = m2)
              (e1 < e2 \/ (e1 = e2 /\ Zpos m1 < Zpos m2))
              (e2 < e1 \/ (e1 = e2 /\ Zpos m2 < Zpos m1))
              (match e1 ?= e2 with
               | Eq => Pos.compare_cont Eq m1 m2
               | Lt => Lt
               | Gt => Gt
               end).
Proof.
  destruct (Z.compare_spec e1 e2) as [->|H|H]; [|constructor; lia..].
  destruct (compare_cont_Eq_spec m1 m2) as [->|H|H]; constructor.
  - split; reflexivity.
  - right. split; [reflexivity|]. now apply Pos2Z.pos_lt_pos.
  - right. split; [reflexivity|]. now apply Pos2Z.pos_lt_pos.
Qed.

Lemma leb_ltb_trans a b mc ec :
  leb a b = true -> ltb b (S754_finite false mc ec) = true ->
  ltb a (S754_finite false mc ec) = true.
Proof.
  unfold leb, ltb, SFleb, SFltb.
  destruct a as [sa|sa| |sa ma ea], b as [sb|sb| |sb mb eb];
    try destruct sa; try destruct sb; cbn [SFcompare];
    try discriminate; try reflexivity.
  destruct (lex_compare_spec ea ma eb mb) as [[E5 E6]|H1|H1];
    destruct (lex_compare_spec eb mb ec mc) as [[E1 E2]|H2|H2];
    try discriminate; intros _ _;
    destruct (lex_compare_spec ea ma ec mc) as [[E3 E4]|H3|H3];
    try reflexivity; exfalso; subst; lia.
Qed.

(** X11.  More lookahead never slows the robot down.  Of two trusted
    samples, the one with the larger lookahead gets a base speed that is at
    least as high, a proportional gain that is at most as high and a
    derivative gain that is at least as high: the profile is a monotone
    function of the lookahead. *)
Theorem more_lookahead_never_slower now1 now2 st1 st2 :
  useVision now1 st1 = true -> useVision now2 st2 = true ->
  leb (lastLk (vision st1)) (lastLk (vision st2)) = true ->
  let c1 := ctl (updateScheduler now1 st1) in
  let c2 := ctl (updateScheduler now2 st2) in
  leb (baseSpeed c1) (baseSpeed c2) = true
  /\ leb (Kp c2) (Kp c1) = true
  /\ leb (Kd c1) (Kd c2) = true.
Proof.
  intros U1 U2 Hle. cbv zeta.
  pose proof (scheduler_trusted now1 st1 U1) as (L1 & M1 & H1).
  pose proof (scheduler_trusted now2 st2 U2) as (L2 & M2 & H2).
  pose proof (leb_ltb_trans _ _ 11744051 (-25) Hle) as T35.
  pose proof (leb_ltb_trans _ _ 11744051 (-24) Hle) as T70.
  change (S754_finite false 11744051 (-25)) with (centi 35) in T35.
  change (S754_finite false 11744051 (-24)) with (centi 70) in T70.
  set (c1 := ctl (updateScheduler now1 st1)) in *.
  set (c2 := ctl (updateScheduler now2 st2)) in *.
  assert (band_low c2 \/ band_mid c2 \/ band_high c2) as B2.
  { destruct (ltb (lastLk (vision st2)) (centi 35)); [left; now apply L2|].
    destruct (ltb (lastLk (vision st2)) (centi 70));
      [right; left | right; right]; auto. }
  destruct (ltb (lastLk (vision st1)) (centi 35)) eqn:A1.
  { destruct (L1 eq_refl) as (-> & -> & _ & ->).
    destruct B2 as [B|[B|B]]; destruct B as (-> & -> & _ & ->);
      repeat split; reflexivity. }
  destruct (ltb (lastLk (vision st2)) (centi 35)) eqn:A2;
    [specialize (T35 eq_refl); discriminate|].
  destruct (ltb (lastLk (vision st1)) (centi 70)) eqn:C1.
  { destruct (M1 eq_refl eq_refl) as (-> & -> & _ & ->).
    destruct (ltb (lastLk (vision st2)) (centi 70)).
    - destruct (M2 eq_refl eq_refl) as (-> & -> & _ & ->).
      repeat split; reflexivity.
    - destruct (H2 eq_refl eq_refl) as (-> & -> & _ & ->).
      repeat split; reflexivity. }
  destruct (ltb (lastLk (vision st2)) (centi 70)) eqn:C2;
    [specialize (T70 eq_refl); discriminate|].
  destruct (H1 eq_refl eq_refl) as (-> & -> & _ & ->).
  destruct (H2 eq_refl eq_refl) as (-> & -> & _ & ->).
  repeat split; reflexivity.
Qed.

Lemma more_lookahead_never_slower_witness :
  leb (baseSpeed (ctl (updateScheduler 100 (stamped 50 true))))
      (baseSpeed (ctl (updateScheduler 100
         (set_vision {| lastLk := f1_0; lastValid := true; lastVisionMs := 60 |}
                     init_state)))) = true.
Proof.
  destruct (more_lookahead_never_slower 100 100 (stamped 50 true)
              (set_vision {| lastLk := f1_0; lastValid := true;
                             lastVisionMs := 60 |} init_state))
    as [H _]; [reflexivity | reflexivity | reflexivity | exact H].
Defined.

(** ** The tick gate *)

Lemma updateScheduler_lastControlUs now st :
  lastControlUs (ctl (updateScheduler now st)) = lastControlUs (ctl st).
Proof.
  unfold updateScheduler.
  destruct (negb _); [reflexivity|].
  destruct (ltb _ _); [reflexivity|].
  destruct (ltb _ _); reflexivity.
Qed.

Lemma pid_step_lastControlUs h dt c :
  lastControlUs (fst (pid_step h dt c)) = lastControlUs c.
Proof. destruct h; reflexivity. Qed.

Lemma tick_records_time env st :
  tick_due env st = true ->
  lastControlUs (ctl (fst (loop env st))) = micros env.
Proof.
  intros Hdue. rewrite (loop_tick env st Hdue). cbn [fst ctl set_ctl].
  rewrite pid_step_lastControlUs. unfold scheduled, scheduled_state.
  now rewrite updateScheduler_lastControlUs.
Qed.

Lemma u32_elapsed t d :
  0 <= d < 2 ^ 32 -> u32 (u32 (t + d) - t) = d.
Proof.
  intros H. unfold u32. rewrite Zminus_mod_idemp_l.
  replace (t + d - t) with d by lia. now apply Z.mod_small.
Qed.

(** X12.  Motor commands are at least 5000 microseconds apart.  After a
    call of [loop] that ran the tick at clock value [micros env], a later
    call runs the tick exactly when the clock, read as a wrapping 32-bit
    counter, has advanced by 5000 or more; a call that comes earlier issues
    no command and leaves the whole control state as it was.  With [d] the
    microseconds really elapsed (less than 2^32), the tick runs exactly when
    [d >= 5000], also when the counter has wrapped in between. *)
Theorem ticks_at_least_5ms_apart env env' st d :
  tick_due env st = true ->
  0 <= d < 2 ^ 32 -> micros env' = u32 (micros env + d) ->
  let st1 := fst (loop env st) in
  lastControlUs (ctl st1) = micros env
  /\ tick_due env' st1 = (5000 <=? d)
  /\ (d < 5000 ->
      snd (loop env' st1) = None /\ ctl (fst (loop env' st1)) = ctl st1)
  /\ (5000 <= d ->
      exists cmd, snd (loop env' st1) = Some cmd
                  /\ lastControlUs (ctl (fst (loop env' st1))) = micros env').
Proof.
  intros Hdue Hd Hclock. cbv zeta.
  pose proof (tick_records_time env st Hdue) as Ht.
  set (st1 := fst (loop env st)) in *.
  assert (tick_due env' st1 = (5000 <=? d)) as Hgate.
  { unfold tick_due, CONTROL_DT_US. rewrite Ht, Hclock, u32_elapsed by exact Hd.
    destruct (Z.ltb_spec d 5000), (Z.leb_spec 5000 d); try reflexivity; lia. }
  split; [exact Ht|]. split; [exact Hgate|]. split.
  - intros Hlt. assert (tick_due env' st1 = false) as Hno.
    { rewrite Hgate. destruct (Z.leb_spec 5000 d); [lia | reflexivity]. }
    rewrite (loop_idle env' st1 Hno). cbn [fst snd].
    split; [reflexivity | apply readVisionSerial_ctl].
  - intros Hge. assert (tick_due env' st1 = true) as Hyes.
    { rewrite Hgate. destruct (Z.leb_spec 5000 d); [reflexivity | lia]. }
    split with (mix (baseSpeed (fst (pid_step (computeIrError (analog env'))
                      (tick_dt env' st1) (scheduled env' st1))))
                    (snd (pid_step (computeIrError (analog env'))
                      (tick_dt env' st1) (scheduled env' st1)))).
    split; [now rewrite (loop_tick env' st1 Hyes)|].
    now apply tick_records_time.
Qed.

Lemma ticks_at_least_5ms_apart_witness :
  let late := mkEnv [] 0 (2 ^ 32 - 1000) 0 centred in
  let wrapped := mkEnv [] 0 4000 0 centred in
  tick_due wrapped (fst (loop late init_state)) = true.
Proof.
  cbv zeta.
  destruct (ticks_at_least_5ms_apart (mkEnv [] 0 (2 ^ 32 - 1000) 0 centred)
              (mkEnv [] 0 4000 0 centred) init_state 5000)
    as (_ & H & _).
  - vm_compute. reflexivity.
  - lia.
  - vm_compute. reflexivity.
  - rewrite H. reflexivity.
Defined.

Lemma round_aux_sign s m e l :
  match binary_round_aux prec emax s m e l with
  | S754_finite s' _ _ => s' = s
  | _ => True
  end.
Proof.
  unfold binary_round_aux.
  destruct (shr_fexp prec emax m e l) as [mrs1 e1].
  destruct (shr_fexp _ _ _ _ _) as [mrs2 e2].
  destruct (shr_m mrs2); trivial. destruct (_ <=? _); trivial.
Qed.

Lemma of_Z_pos_sign p :
  match of_Z (Zpos p) with S754_finite s _ _ => s = false | _ => True end.
Proof.
  unfold of_Z. cbn [binary_normalize]. unfold binary_round.
  destruct (shl_align _ _ _) as [mz ez]. apply round_aux_sign.
Qed.

Lemma div_sign sx mx ex sy my ey :
  match div (S754_finite sx mx ex) (S754_finite sy my ey) with
  | S754_finite s _ _ => s = xorb sx sy
  | _ => True
  end.
Proof.
  unfold div, SFdiv.
  destruct (SFdiv_core_binary _ _ _ _ _ _) as [[mz ez] lz].
  apply round_aux_sign.
Qed.

(** X13.  In every tick the time step [dt] is a finite, strictly positive
    number, between 2^-9 and 2^14 seconds in magnitude: the division by
    [dt] in the derivative never divides by zero, and [dt] itself is never
    infinite or NaN, whatever the two clock values are. *)
Theorem tick_dt_positive_finite env st :
  tick_due env st = true ->
  is_finite (tick_dt env st) = true
  /\ ltb f0_0 (tick_dt env st) = true
  /\ at_least (-9) (tick_dt env st) /\ bounded_by 14 (tick_dt env st).
Proof.
  intros Hdue.
  pose proof (tick_dt_at_least env st Hdue) as Hlo.
  pose proof (tick_dt_bound env st) as Hhi.
  split; [now apply (bounded_by_finite 14)|].
  split; [|split; assumption].
  unfold tick_dt in *.
  set (us := u32 (micros env - lastControlUs (ctl st))) in *.
  assert (0 < us) as Hpos.
  { unfold tick_due, CONTROL_DT_US in Hdue. fold us in Hdue.
    destruct (Z.ltb_spec us 5000); [discriminate | lia]. }
  destruct us as [|p|p]; try lia.
  pose proof (of_Z_pos_sign p) as Hs.
  assert (f1e6 = S754_finite false 16000000 (-4)) as E6
    by (vm_compute; reflexivity).
  rewrite E6 in Hlo |- *.
  destruct (of_Z (Zpos p)) as [s1|s1| |s1 m1 e1] eqn:Hz.
  - contradiction.
  - contradiction.
  - contradiction.
  - subst s1.
    pose proof (div_sign false m1 e1 false 16000000 (-4)) as Hd.
    destruct (div (S754_finite false m1 e1) (S754_finite false 16000000 (-4)))
      as [s|s| |s m e]; try contradiction.
    cbn [xorb] in Hd. subst s. reflexivity.
Qed.

Lemma tick_dt_positive_finite_witness :
  tick_dt tick_tracked init_state = of_dec false 5 (-3)
  /\ ltb f0_0 (tick_dt tick_tracked init_state) = true.
Proof.
  split; [vm_compute; reflexivity|].
  destruct (tick_dt_positive_finite tick_tracked init_state) as (_ & H & _);
    [vm_compute; reflexivity | exact H].
Defined.

(** ** The PID memory and the mixer *)

(** X14.  No NaN and no infinity ever enters the control state: in every
    reachable state the integral, the previous error, the gains and the
    base speed are finite numbers, whatever the sensor readings (within the
    range of the converter), the clock values and the serial input were. *)
Theorem control_state_stays_finite st :
  reachable st ->
  is_finite (integ (ctl st)) = true /\ is_finite (prevE (ctl st)) = true
  /\ is_finite (baseSpeed (ctl st)) = true
  /\ is_finite (Kp (ctl st)) = true /\ is_finite (Ki (ctl st)) = true
  /\ is_finite (Kd (ctl st)) = true.
Proof.
  intros H.
  split; [apply (bounded_by_finite 91), reachable_integ, H|].
  split; [apply (bounded_by_finite 50), reachable_prevE, H|].
  rewrite (reachable_Ki st H).
  assert (is_finite (baseSpeed (ctl st)) = true
          /\ is_finite (Kp (ctl st)) = true /\ is_finite (Kd (ctl st)) = true)
    as (H1 & H2 & H3); [|repeat split; assumption].
  assert (forall st, reachable st ->
            bounded_by 1 (baseSpeed (ctl st))
            /\ bounded_by 0 (Kp (ctl st)) /\ bounded_by 0 (Kd (ctl st))) as Hb.
  { clear st H. induction 1 as [|env st _ _ IH].
    - repeat split; vm_compute; discriminate.
    - destruct (tick_due env st) eqn:Hdue.
      + rewrite (loop_tick env st Hdue). cbn [fst ctl set_ctl].
        destruct (scheduled_gains_bound env st) as (Hbs & Hkp & Hkd).
        destruct (computeIrError (analog env));
          cbn [pid_step fst Kp Kd baseSpeed]; (split; [|split; assumption]).
        * apply (bounded_by_mono 0); [lia | exact Hbs].
        * apply (bounded_by_mono 0); [lia|].
          apply (mul_bound 0 (-1)); [exact Hbs | vm_compute; discriminate | lia].
      + rewrite (loop_idle env st Hdue). cbn [fst].
        rewrite readVisionSerial_ctl. exact IH. }
  destruct (Hb st H) as (H1 & H2 & H3).
  repeat split; eapply bounded_by_finite; eassumption.
Qed.

Lemma control_state_stays_finite_witness :
  is_finite (integ (ctl (fst (loop tick_tracked init_state)))) = true.
Proof.
  destruct (control_state_stays_finite (fst (loop tick_tracked init_state)))
    as [H _]; [|exact H].
  apply reach_loop; [apply board_ok_tick_tracked | apply reach_init].
Defined.

Lemma sub_opp x y : sub x (SFopp y) = add x y.
Proof.
  destruct x as [sx|sx| |sx mx ex], y as [sy|sy| |sy my ey];
    try reflexivity;
    try (destruct sx, sy; reflexivity); try (destruct sy; reflexivity).
Qed.

Lemma add_opp x y : add x (SFopp y) = sub x y.
Proof.
  destruct x as [sx|sx| |sx mx ex], y as [sy|sy| |sy my ey];
    try reflexivity;
    try (destruct sx, sy; reflexivity); try (destruct sy; reflexivity).
Qed.

(** X15.  The mixer is symmetric: negating the correction swaps the two
    wheel commands, bit for bit, for every base speed and every correction
    (infinities and NaN included). *)
Theorem mixer_mirror bs u :
  left (mix bs (SFopp u)) = right (mix bs u)
  /\ right (mix bs (SFopp u)) = left (mix bs u).
Proof.
  unfold mix. cbn [left right]. now rewrite sub_opp, add_opp.
Qed.

(** ** Motor output *)

Section Duty.

Lemma shr_fexp_exact_noshift m e :
  fexp prec emax (Zdigits2 m + e) - e <= 0 ->
  shr_r (fst (shr_fexp prec emax m e loc_Exact)) = false.
Proof.
  intros H. unfold shr_fexp.
  destruct (fexp prec emax (Zdigits2 m + e) - e) as [|p|p]; try reflexivity.
  lia.
Qed.

(** Rounding never crosses a representable integer bound: a product of
    magnitude at most [Y] (with [Y < 2^24]) rounds to at most [Y]. *)
Lemma round_aux_below s M E Y :
  0 <= M -> E <= 0 -> 0 <= Y < 2 ^ 24 -> M <= Y * 2 ^ (- E) ->
  magnitude_le Y (binary_round_aux prec emax s M E loc_Exact).
Proof.
  intros HM HE HY Hle. unfold binary_round_aux.
  pose proof (pow2_pos (- E) ltac:(lia)) as HpE.
  assert (Zdigits2 M <= 24 - E) as Hd.
  { apply Zdigits2_le; [exact HM|].
    replace (24 - E) with (24 + - E) by lia. rewrite pow2_split by lia. nia. }
  pose proof (shr_fexp_spec M E loc_Exact HM) as S1. cbv zeta in S1.
  pose proof (shr_fexp_exact_noshift M E) as Hns.
  destruct (shr_fexp prec emax M E loc_Exact) as [mrs1 e1]. cbn [fst snd] in S1, Hns.
  destruct S1 as (Hm1 & He1 & Hr1). rewrite fexp32 in Hm1, He1, Hr1, Hns.
  set (n := Z.max (Zdigits2 M + E - 24) (-149) - E) in *.
  set (N := Z.max n 0) in *.
  assert (0 <= N) as HN by lia.
  assert (e1 <= 0) as He10 by lia.
  pose proof (pow2_pos N HN) as HpN.
  pose proof (pow2_pos (- e1) ltac:(lia)) as Hpe1.
  assert (2 ^ (- E) = 2 ^ (- e1) * 2 ^ N) as Esplit.
  { rewrite <- pow2_split by lia. f_equal. lia. }
  set (G := Y * 2 ^ (- e1)) in *.
  assert (M <= G * 2 ^ N) as HMG by (unfold G; nia).
  assert (0 <= shr_m mrs1 <= G) as Hm1r.
  { rewrite Hm1. split; [apply Z.div_pos; lia|].
    apply Z.div_le_upper_bound; lia. }
  set (m2 := round_nearest_even (shr_m mrs1) (loc_of_shr_record mrs1)).
  assert (0 <= m2 <= G) as Hm2r.
  { pose proof (round_nearest_even_range (shr_m mrs1) (loc_of_shr_record mrs1))
      as Hr. fold m2 in Hr.
    destruct (Z.eq_dec (shr_m mrs1) G) as [Heq|Hne]; [|lia].
    assert (shr_r mrs1 = false) as Hbit.
    { destruct (Z.lt_ge_cases 0 n) as [Hn|Hn]; [|apply Hns; lia].
      rewrite (Hr1 Hn).
      assert (N = n) as EN by lia.
      assert (M = G * 2 ^ n) as EM.
      { rewrite <- EN. pose proof (Z.mul_div_le M (2 ^ N) HpN) as Hq.
        rewrite <- Hm1, Heq in Hq. lia. }
      pose proof (pow2_pos (n - 1) ltac:(lia)) as Hpn1.
      assert (2 ^ n = 2 * 2 ^ (n - 1)) as En.
      { replace n with (1 + (n - 1)) at 1 by lia. now rewrite pow2_split by lia. }
      replace (M / 2 ^ (n - 1)) with (2 * G).
      - rewrite Z.odd_mul. reflexivity.
      - apply Z.div_unique with (r := 0); lia. }
    unfold m2. rewrite (round_nearest_even_down mrs1 Hbit). lia. }
  assert (Zdigits2 m2 <= 24 - e1) as Hd2.
  { apply Zdigits2_le; [lia|].
    replace (24 - e1) with (24 + - e1) by lia. rewrite pow2_split by lia.
    unfold G in Hm2r. nia. }
  pose proof (shr_fexp_spec m2 e1 loc_Exact (proj1 Hm2r)) as S3. cbv zeta in S3.
  destruct (shr_fexp prec emax m2 e1 loc_Exact) as [mrs3 e3]. cbn [fst snd] in S3.
  destruct S3 as (Hm3 & He3 & _). rewrite fexp32 in Hm3, He3.
  set (N2 := Z.max (Z.max (Zdigits2 m2 + e1 - 24) (-149) - e1) 0) in *.
  assert (0 <= N2) as HN2 by lia.
  assert (e3 <= 0) as He30 by lia.
  pose proof (pow2_pos N2 HN2) as HpN2.
  pose proof (pow2_pos (- e3) ltac:(lia)) as Hpe3.
  assert (2 ^ (- e1) = 2 ^ (- e3) * 2 ^ N2) as Esplit2.
  { rewrite <- pow2_split by lia. f_equal. lia. }
  assert (0 <= shr_m mrs3 <= Y * 2 ^ (- e3)) as Hm3r.
  { rewrite Hm3. split; [apply Z.div_pos; lia|].
    apply Z.div_le_upper_bound; [lia|]. unfold G in Hm2r. nia. }
  destruct (shr_m mrs3) as [|p|p]; [exact I | | lia].
  change (emax - prec) with 104.
  destruct (Z.leb_spec e3 104) as [_|?]; [|lia].
  split; [exact He30 | apply Hm3r].
Qed.

(** A binary32 value that [clampf] leaves between -1 and 1 has magnitude at
    most 1. *)
Lemma unit_magnitude x :
  is_binary32 x -> is_nan x = false ->
  ltb x (SFopp f1_0) = false -> ltb f1_0 x = false ->
  magnitude_le 1 x.
Proof.
  change (SFopp f1_0) with (S754_finite true 8388608 (-23)).
  change f1_0 with (S754_finite false 8388608 (-23)).
  destruct x as [s|s| |s m e]; intros Hv Hn Hlo Hhi; try discriminate.
  - exact I.
  - destruct s; discriminate.
  - cbn [valid_binary] in Hv. unfold bounded, canonical_mantissa in Hv.
    apply andb_prop in Hv as [Hc _]. apply Z.eqb_eq in Hc. rewrite fexp32 in Hc.
    pose proof (digits_gt m) as Hm.
    assert (Zpos (digits2_pos m) <= 24) as Hd24 by lia.
    assert (Zpos m < 2 ^ 24) as Hm24.
    { pose proof (pow2_mono (Zpos (digits2_pos m)) 24). lia. }
    assert (e <= -23 /\ (e = -23 -> Zpos m <= 8388608)) as [He Hm23].
    { unfold ltb, SFltb in Hlo, Hhi. cbn [SFcompare] in Hlo, Hhi.
      revert Hlo Hhi. destruct s.
      - destruct (Z.compare_spec e (-23)) as [->|?|?];
          [|intros; lia | discriminate].
        destruct (compare_cont_Eq_spec m 8388608) as [->|Hlt|Hgt];
          intros Hlo _; [lia | | discriminate].
        apply Pos2Z.pos_lt_pos in Hlt. lia.
      - intros _.
        destruct (Z.compare_spec (-23) e) as [<-|?|?];
          [|discriminate | intros; lia].
        destruct (compare_cont_Eq_spec 8388608 m) as [<-|Hlt|Hgt];
          intros Hhi; [lia | discriminate |].
        apply Pos2Z.pos_lt_pos in Hgt. lia. }
    cbn [magnitude_le]. split; [lia|]. rewrite Z.mul_1_l.
    destruct (Z.eq_dec e (-23)) as [->|Hne]; [apply Hm23; reflexivity|].
    pose proof (pow2_mono 24 (- e)). lia.
Qed.

End Duty.

Lemma duty_of_unit x :
  magnitude_le 1 x ->
  exists d, float_to_int (mul (SFabs x) (of_Z 255)) = Some d /\ 0 <= d <= 255.
Proof.
  change (of_Z 255) with (S754_finite false 16711680 (-16)).
  destruct x as [s| | |s m e]; try contradiction.
  - intros _. exists 0. split; [reflexivity | lia].
  - intros [He Hm]. cbn [SFabs]. unfold mul, SFmul. cbn [xorb].
    pose proof (pow2_pos (- e) ltac:(lia)) as Hpe.
    assert (2 ^ (- (e + -16)) = 65536 * 2 ^ (- e)) as Esplit.
    { replace (- (e + -16)) with (16 + - e) by lia. now rewrite pow2_split by lia. }
    pose proof (round_aux_below false (Zpos (m * 16711680)) (e + -16) 255) as H.
    pose proof (round_aux_sign false (Zpos (m * 16711680)) (e + -16) loc_Exact)
      as Hs.
    destruct (binary_round_aux prec emax false (Zpos (m * 16711680)) (e + -16)
                loc_Exact) as [s'|s'| |s' m' e'].
    + exists 0. split; [reflexivity | lia].
    + exfalso. apply H; [lia | lia | split; [lia | reflexivity] |].
      rewrite Pos2Z.inj_mul, Esplit. lia.
    + exfalso. apply H; [lia | lia | split; [lia | reflexivity] |].
      rewrite Pos2Z.inj_mul, Esplit. lia.
    + subst s'.
      destruct H as [He' Hm']; [lia | lia | split; [lia | reflexivity] | |].
      { rewrite Pos2Z.inj_mul, Esplit. lia. }
      pose proof (pow2_pos (- e') ltac:(lia)) as Hpe'.
      cbn [float_to_int]. cbv zeta.
      set (t := if 0 <=? e' then Zpos m' * 2 ^ e' else Zpos m' / 2 ^ (- e')).
      assert (0 <= t <= 255) as Ht.
      { unfold t. destruct (Z.leb_spec 0 e') as [H0|H0].
        - assert (e' = 0) as -> by lia. change (2 ^ (- 0)) with 1 in Hm'.
          change (2 ^ 0) with 1. lia.
        - split; [apply Z.div_pos; lia|].
          apply Z.div_le_upper_bound; lia. }
      exists t. split; [|exact Ht].
      destruct (Z.leb_spec (-32768) t); [|lia].
      destruct (Z.leb_spec t 32767); [reflexivity | lia].
Qed.

(** X16.  [setMotor] on a binary32 command that is a number: the two
    direction pins are always written to opposite levels, forward (IN1 high)
    exactly when the command is zero or positive; the duty written to the
    PWM pin is always between 0 and 255, is 255 for every command beyond
    -1..1 and 0 for a zero command; the conversion to [int] is always
    defined. *)
Theorem setMotor_duty_in_range IN1 IN2 PWM cmd :
  is_binary32 cmd -> is_nan cmd = false ->
  exists duty,
    0 <= duty <= 255
    /\ setMotor IN1 IN2 PWM cmd
       = Some (if leb f0_0 cmd
               then [DigitalWrite IN1 HIGH; DigitalWrite IN2 LOW;
                     AnalogWrite PWM duty]
               else [DigitalWrite IN1 LOW; DigitalWrite IN2 HIGH;
                     AnalogWrite PWM duty])
    /\ (ltb f1_0 cmd = true \/ ltb cmd (SFopp f1_0) = true -> duty = 255)
    /\ (is_zero cmd = true -> duty = 0).
Proof.
  intros Hv Hn. unfold setMotor. change (of_Z 0) with f0_0.
  destruct (clampf_cases cmd (SFopp f1_0) f1_0)
    as [[Hlo ->]|[(Hlo & Hhi & ->)|(Hlo & Hhi & ->)]].
  - exists 255. split; [lia|].
    assert (leb f0_0 cmd = false) as ->.
    { destruct cmd as [[]|[]| |[] m e]; try discriminate; reflexivity. }
    split; [reflexivity|]. split; [reflexivity|].
    destruct cmd; try discriminate.
  - exists 255. split; [lia|].
    assert (leb f0_0 cmd = true) as ->.
    { destruct cmd as [[]|[]| |[] m e]; try discriminate; reflexivity. }
    split; [reflexivity|]. split; [reflexivity|].
    destruct cmd; try discriminate.
  - destruct (duty_of_unit cmd (unit_magnitude cmd Hv Hn Hlo Hhi))
      as (d & Hconv & Hd).
    rewrite Hconv. exists d. split; [exact Hd|].
    split; [destruct (leb f0_0 cmd); reflexivity|].
    split; [intros [H|H]; congruence|].
    destruct cmd as [s| | |s m e]; try discriminate. intros _.
    assert (float_to_int (mul (SFabs (S754_zero s)) (of_Z 255)) = Some 0) as E
      by reflexivity.
    rewrite E in Hconv. congruence.
Qed.

Lemma setMotor_duty_in_range_witness :
  exists duty,
    0 <= duty <= 255
    /\ setMotor AIN1 AIN2 PWMA (SFopp f0_5)
       = Some [DigitalWrite AIN1 LOW; DigitalWrite AIN2 HIGH;
               AnalogWrite PWMA duty].
Proof.
  destruct (setMotor_duty_in_range AIN1 AIN2 PWMA (SFopp f0_5))
    as (d & Hd & Hs & _); [reflexivity | reflexivity |].
  exists d. split; [exact Hd | exact Hs].
Defined.

Lemma setMotor_pins IN1 IN2 PWM cmd evs :
  setMotor IN1 IN2 PWM cmd = Some evs ->
  written_pins evs = [IN1; IN2; PWM]
  /\ (In (DigitalWrite IN1 HIGH) evs \/ In (DigitalWrite IN2 HIGH) evs)
  /\ (forall p, In (DigitalWrite p LOW) evs -> p = IN1 \/ p = IN2).
Proof.
  unfold setMotor. destruct (float_to_int _) as [d|]; [|discriminate].
  destruct (leb _ _); intros [= <-]; cbn.
  - split; [reflexivity|]. split; [auto|].
    intros p [H|[H|[H|[]]]]; inversion H; auto.
  - split; [reflexivity|]. split; [auto|].
    intros p [H|[H|[H|[]]]]; inversion H; auto.
Qed.

(** X17.  The pins [outputMotors] drives.  With the driver present it writes
    exactly STBY, AIN1, AIN2, PWMA, BIN1, BIN2 and PWMB, in that order, and
    each of them has been made an output by [setup]; STBY is written high
    and never low, so the driver is never put in standby.  With the driver
    absent, as the sketch is configured, it writes no pin at all and prints
    the two commands on one line. *)
Theorem outputMotors_pins present l r evs :
  outputMotors_cfg present l r = Some evs ->
  (forall p, In p (written_pins evs) -> In p (output_pins setup))
  /\ (present = true ->
      written_pins evs = [STBY; AIN1; AIN2; PWMA; BIN1; BIN2; PWMB]
      /\ In (DigitalWrite STBY HIGH) evs
      /\ ~ In (DigitalWrite STBY LOW) evs)
  /\ (present = false ->
      evs = [SerialPrint "CMD left="; SerialPrintFloat l 3;
             SerialPrint " right="; SerialPrintlnFloat r 3]
      /\ outputMotors l r = Some evs).
Proof.
  unfold outputMotors_cfg. destruct present; cbn [negb].
  - destruct (setMotor AIN1 AIN2 PWMA l) as [a|] eqn:Ha; [|discriminate].
    destruct (setMotor BIN1 BIN2 PWMB r) as [b|] eqn:Hb; [|discriminate].
    intros [= <-].
    destruct (setMotor_pins _ _ _ _ _ Ha) as (Pa & _ & La).
    destruct (setMotor_pins _ _ _ _ _ Hb) as (Pb & _ & Lb).
    assert (written_pins (DigitalWrite STBY HIGH :: a ++ b)
            = [STBY; AIN1; AIN2; PWMA; BIN1; BIN2; PWMB]) as Hw.
    { unfold written_pins in *. cbn [flat_map]. rewrite flat_map_app, Pa, Pb.
      reflexivity. }
    split; [|split; [|discriminate]].
    + rewrite Hw. intros p Hp. cbn in Hp |- *.
      repeat (destruct Hp as [<-|Hp]; [auto 10|]). contradiction.
    + intros _. split; [exact Hw|]. split; [left; reflexivity|].
      intros [H|H]; [discriminate|]. apply in_app_or in H as [H|H].
      * apply La in H as [H|H]; discriminate.
      * apply Lb in H as [H|H]; discriminate.
  - intros [= <-]. split; [intros p []|]. split; [discriminate|].
    intros _. split; reflexivity.
Qed.

Lemma outputMotors_pins_witness :
  exists evs,
    outputMotors_cfg true f0_5 (SFopp f1_0) = Some evs
    /\ written_pins evs = [STBY; AIN1; AIN2; PWMA; BIN1; BIN2; PWMB].
Proof.
  exists [DigitalWrite STBY HIGH;
          DigitalWrite AIN1 HIGH; DigitalWrite AIN2 LOW; AnalogWrite PWMA 127;
          DigitalWrite BIN1 LOW; DigitalWrite BIN2 HIGH; AnalogWrite PWMB 255].
  assert (outputMotors_cfg true f0_5 (SFopp f1_0)
          = Some [DigitalWrite STBY HIGH;
                  DigitalWrite AIN1 HIGH; DigitalWrite AIN2 LOW;
                  AnalogWrite PWMA 127;
                  DigitalWrite BIN1 LOW; DigitalWrite BIN2 HIGH;
                  AnalogWrite PWMB 255]) as H by (vm_compute; reflexivity).
  split; [exact H|].
  destruct (outputMotors_pins true f0_5 (SFopp f1_0) _ H) as (_ & Hp & _).
  apply Hp. reflexivity.
Defined.

(** X18.  What a call of [loop] outputs, as the sketch is configured: when
    the tick is not due, nothing; when it is, exactly one line with the two
    wheel commands of that tick.  No call ever writes a pin, and no
    conversion to [int] is ever made, so the output is always defined. *)
Theorem loop_prints_one_line_per_tick env st :
  exists evs,
    loop_events env st = Some evs
    /\ written_pins evs = []
    /\ (tick_due env st = false -> evs = [])
    /\ (tick_due env st = true ->
        exists c, snd (loop env st) = Some c
          /\ evs = [SerialPrint "CMD left="; SerialPrintFloat (left c) 3;
                    SerialPrint " right="; SerialPrintlnFloat (right c) 3]).
Proof.
  unfold loop_events. destruct (tick_due env st) eqn:Hdue.
  - rewrite (loop_tick env st Hdue). cbn [snd].
    eexists. split; [reflexivity|]. split; [reflexivity|].
    split; [discriminate|]. intros _. eexists. split; reflexivity.
  - rewrite (loop_idle env st Hdue). cbn [snd].
    exists []. repeat split; trivial. discriminate.
Qed.

(** ** Every float the firmware computes is a binary32 value *)

Section Valid32.
Implicit Types x y : float32.

Lemma Zdigits2_mono a b : 0 <= a <= b -> Zdigits2 a <= Zdigits2 b.
Proof.
  intros [Ha Hab]. destruct (Z.eq_dec a 0) as [->|Hne]; [apply Zdigits2_nonneg|].
  destruct (Zdigits2_pow a ltac:(lia)) as [Hlo _].
  assert (1 <= Zdigits2 a) by (destruct a; simpl in *; lia).
  pose proof (Zdigits2_ge b (Zdigits2 a - 1) ltac:(lia) ltac:(lia)). lia.
Qed.

Lemma Zdigits2_lt m : 0 <= m -> m < 2 ^ Zdigits2 m.
Proof.
  intros H. destruct (Z.eq_dec m 0) as [->|]; [reflexivity|].
  apply Zdigits2_pow; lia.
Qed.

Lemma Zdigits2_div_ge m n :
  0 <= m -> 0 <= n -> Zdigits2 m - n <= Zdigits2 (m / 2 ^ n).
Proof.
  intros Hm Hn. pose proof (pow2_pos n Hn) as Hp.
  destruct (Z.le_gt_cases (Zdigits2 m - n) 0) as [H|H].
  - pose proof (Zdigits2_nonneg (m / 2 ^ n)). lia.
  - assert (0 < m) as Hm0 by (destruct m; simpl in *; lia).
    destruct (Zdigits2_pow m Hm0) as [Hlo _].
    assert (2 ^ (Zdigits2 m - 1 - n) <= m / 2 ^ n) as Hq.
    { apply Z.div_le_lower_bound; [lia|]. rewrite <- pow2_split by lia.
      now replace (n + (Zdigits2 m - 1 - n)) with (Zdigits2 m - 1) by lia. }
    pose proof (Zdigits2_ge (m / 2 ^ n) (Zdigits2 m - 1 - n) Hq ltac:(lia)). lia.
Qed.

Lemma Zdigits2_div_le m n :
  0 <= m -> 0 <= n -> Zdigits2 (m / 2 ^ n) <= Z.max (Zdigits2 m - n) 0.
Proof.
  intros Hm Hn. pose proof (pow2_pos n Hn) as Hp.
  pose proof (Zdigits2_lt m Hm) as Hlt. pose proof (Zdigits2_nonneg m) as Hd.
  apply Zdigits2_le; [apply Z.div_pos; lia|].
  destruct (Z.le_gt_cases n (Zdigits2 m)) as [H1|H1].
  - replace (Z.max (Zdigits2 m - n) 0) with (Zdigits2 m - n) by lia.
    apply div_pow2_lt; [lia | lia |].
    now replace (Zdigits2 m - n + n) with (Zdigits2 m) by lia.
  - replace (Z.max (Zdigits2 m - n) 0) with 0 by lia. change (2 ^ 0) with 1.
    pose proof (pow2_mono (Zdigits2 m) n ltac:(lia)).
    rewrite Z.div_small; lia.
Qed.

(** Shifting to the exponent of the format leaves a canonical pair, and
    loses no leading digit. *)
Lemma shr_fexp_canon m e l :
  0 <= m -> e <= fexp prec emax (Zdigits2 m + e) ->
  let r := shr_fexp prec emax m e l in
  0 <= shr_m (fst r)
  /\ (0 < shr_m (fst r) ->
      fexp prec emax (Zdigits2 (shr_m (fst r)) + snd r) = snd r)
  /\ fexp prec emax (Zdigits2 m + e) = snd r
  /\ Zdigits2 m + e <= Zdigits2 (shr_m (fst r)) + snd r.
Proof.
  intros Hm He. cbv zeta.
  destruct (shr_fexp_spec m e l Hm) as (Hm1 & He1 & _).
  set (n := fexp prec emax (Zdigits2 m + e) - e) in *.
  replace (Z.max n 0) with n in * by lia.
  pose proof (pow2_pos n ltac:(lia)) as Hp.
  pose proof (Zdigits2_div_ge m n Hm ltac:(lia)) as Hge.
  pose proof (Zdigits2_div_le m n Hm ltac:(lia)) as Hle.
  rewrite <- Hm1 in Hge, Hle. rewrite He1.
  split; [rewrite Hm1; apply Z.div_pos; lia|].
  split; [|split; [unfold n; lia | lia]].
  intros Hpos.
  assert (1 <= Zdigits2 (shr_m (fst (shr_fexp prec emax m e l)))) as H1.
  { destruct (shr_m _); simpl in *; lia. }
  replace (Zdigits2 (shr_m (fst (shr_fexp prec emax m e l))) + (e + n))
    with (Zdigits2 m + e) by lia.
  unfold n. lia.
Qed.

Lemma fexp_mono a b : a <= b -> fexp prec emax a <= fexp prec emax b.
Proof. intros H. rewrite !fexp32. lia. Qed.

Lemma round_aux_valid s m e l :
  0 <= m -> e <= fexp prec emax (Zdigits2 m + e) ->
  is_binary32 (binary_round_aux prec emax s m e l).
Proof.
  intros Hm He. unfold is_binary32, binary_round_aux.
  pose proof (shr_fexp_canon m e l Hm He) as S1. cbv zeta in S1.
  destruct (shr_fexp prec emax m e l) as [mrs1 e1]. cbn [fst snd] in S1.
  destruct S1 as (Hm1 & _ & He1 & Hd1).
  set (m2 := round_nearest_even (shr_m mrs1) (loc_of_shr_record mrs1)).
  pose proof (round_nearest_even_range (shr_m mrs1) (loc_of_shr_record mrs1))
    as Hr. fold m2 in Hr.
  pose proof (Zdigits2_mono (shr_m mrs1) m2 ltac:(lia)) as Hmono.
  assert (e1 <= fexp prec emax (Zdigits2 m2 + e1)) as He2.
  { rewrite <- He1 at 1. apply fexp_mono. lia. }
  pose proof (shr_fexp_canon m2 e1 loc_Exact ltac:(lia) He2) as S3. cbv zeta in S3.
  destruct (shr_fexp prec emax m2 e1 loc_Exact) as [mrs3 e3]. cbn [fst snd] in S3.
  destruct S3 as (Hm3 & Hc3 & _ & _).
  destruct (shr_m mrs3) as [|p|p]; [reflexivity | | reflexivity].
  destruct (e3 <=? emax - prec) eqn:Hle; [|reflexivity].
  cbn [valid_binary]. unfold bounded, canonical_mantissa.
  specialize (Hc3 ltac:(lia)). cbn [Zdigits2] in Hc3.
  rewrite Hc3, Z.eqb_refl, Hle. reflexivity.
Qed.

Lemma binary_round_valid s m e : is_binary32 (binary_round prec emax s m e).
Proof.
  unfold binary_round.
  destruct (shl_align_spec m e (fexp prec emax (Zpos (digits2_pos m) + e)))
    as [Hez Hmz].
  destruct (shl_align m e _) as [mz ez]. cbn [fst snd] in *.
  apply round_aux_valid; [lia|].
  set (f := fexp prec emax (Zpos (digits2_pos m) + e)) in *.
  rewrite <- Hez in Hmz.
  assert (ez <= e /\ ez <= f) as [Hze Hzf] by lia.
  assert (Zpos (digits2_pos m) + (e - ez) <= Zdigits2 (Zpos mz)) as Hd.
  { pose proof (digits_le m) as Hlo.
    assert (1 <= Zpos (digits2_pos m)) by lia.
    pose proof (pow2_pos (e - ez) ltac:(lia)) as Hp.
    pose proof (pow2_pos (Zpos (digits2_pos m) - 1) ltac:(lia)) as Hp1.
    assert (2 ^ (Zpos (digits2_pos m) - 1 + (e - ez)) <= Zpos mz) as Hge.
    { rewrite pow2_split by lia. rewrite Hmz. nia. }
    pose proof (Zdigits2_ge (Zpos mz) _ Hge ltac:(lia)). lia. }
  apply Z.le_trans with f; [lia|]. apply fexp_mono. lia.
Qed.

Lemma normalize_valid z e b : is_binary32 (binary_normalize prec emax z e b).
Proof.
  destruct z; cbn [binary_normalize]; [reflexivity | |]; apply binary_round_valid.
Qed.

Lemma add_valid x y : is_binary32 x -> is_binary32 y -> is_binary32 (add x y).
Proof.
  destruct x as [sx|sx| |sx mx ex], y as [sy|sy| |sy my ey]; intros Hx Hy;
    unfold add, SFadd; try assumption; try reflexivity;
    try (destruct sx, sy; reflexivity).
  apply normalize_valid.
Qed.

Lemma sub_valid x y : is_binary32 x -> is_binary32 y -> is_binary32 (sub x y).
Proof.
  destruct x as [sx|sx| |sx mx ex], y as [sy|sy| |sy my ey]; intros Hx Hy;
    unfold sub, SFsub; try assumption; try reflexivity;
    try (destruct sx, sy; reflexivity).
  apply normalize_valid.
Qed.

Lemma canonical_digits s m e :
  is_binary32 (S754_finite s m e) ->
  fexp prec emax (Zpos (digits2_pos m) + e) = e.
Proof.
  unfold is_binary32. cbn [valid_binary]. unfold bounded, canonical_mantissa.
  intros H. apply andb_prop in H as [H _]. now apply Z.eqb_eq in H.
Qed.

Lemma mul_valid x y : is_binary32 x -> is_binary32 y -> is_binary32 (mul x y).
Proof.
  destruct x as [sx|sx| |sx mx ex], y as [sy|sy| |sy my ey]; intros Hx Hy;
    unfold mul, SFmul; try reflexivity.
  apply canonical_digits in Hx, Hy. rewrite fexp32 in Hx, Hy.
  apply round_aux_valid; [lia|]. rewrite fexp32.
  pose proof (digits_le mx) as Hlx. pose proof (digits_le my) as Hly.
  pose proof (digits_gt mx) as Hgx. pose proof (digits_gt my) as Hgy.
  set (dx := Zpos (digits2_pos mx)) in *. set (dy := Zpos (digits2_pos my)) in *.
  assert (1 <= dx /\ 1 <= dy) as [Hdx Hdy] by (unfold dx, dy; lia).
  assert (dx + dy - 1 <= Zdigits2 (Zpos (mx * my))) as Hd.
  { pose proof (Zdigits2_ge (Zpos (mx * my)) (dx - 1 + (dy - 1))) as G.
    rewrite pow2_split in G by lia. rewrite Pos2Z.inj_mul in G at 1.
    pose proof (pow2_pos (dx - 1) ltac:(lia)). pose proof (pow2_pos (dy - 1) ltac:(lia)).
    specialize (G ltac:(nia) ltac:(lia)). lia. }
  lia.
Qed.

Lemma div_valid x y : is_binary32 (div x y).
Proof.
  destruct x as [sx|sx| |sx mx ex], y as [sy|sy| |sy my ey];
    unfold div, SFdiv; try reflexivity.
  unfold SFdiv_core_binary. cbn [Zdigits2].
  set (d1 := Zpos (digits2_pos mx)). set (d2 := Zpos (digits2_pos my)).
  set (e' := Z.min (fexp prec emax (d1 + ex - (d2 + ey))) (ex - ey)).
  pose proof (digits_gt mx) as Hmx1. pose proof (digits_le mx) as Hmx2.
  pose proof (digits_gt my) as Hmy1. pose proof (digits_le my) as Hmy2.
  fold d1 in Hmx1, Hmx2. fold d2 in Hmy1, Hmy2.
  assert (0 < d1 /\ 0 < d2) as [Hd1p Hd2p] by (unfold d1, d2; lia).
  assert (0 <= ex - ey - e') as Hs by (unfold e'; lia).
  set (m' := match ex - ey - e' with
             | 0 => Zpos mx
             | Zpos _ => Z.shiftl (Zpos mx) (ex - ey - e')
             | Zneg _ => 0
             end).
  assert (m' = Zpos mx * 2 ^ (ex - ey - e')) as Hm'.
  { unfold m'. destruct (ex - ey - e') as [|p|p] eqn:E; [lia | | lia].
    apply Z.shiftl_mul_pow2. lia. }
  pose proof (pow2_pos (ex - ey - e') Hs) as Hps.
  assert (fst (Z.div_eucl m' (Zpos my)) = m' / Zpos my) as Hq by reflexivity.
  destruct (Z.div_eucl m' (Zpos my)) as [q r]. cbn [fst] in Hq. subst q.
  assert (0 <= m' / Zpos my) as Hq0 by (apply Z.div_pos; nia).
  apply round_aux_valid; [exact Hq0|].
  set (j := d1 - 1 + (ex - ey - e') - d2).
  assert (j + 1 <= Zdigits2 (m' / Zpos my)) as Hd.
  { destruct (Z.lt_ge_cases j 0) as [Hj|Hj].
    - pose proof (Zdigits2_nonneg (m' / Zpos my)). lia.
    - apply Zdigits2_ge; [|exact Hj].
      apply Z.div_le_lower_bound; [lia|].
      apply Z.le_trans with (2 ^ d2 * 2 ^ j).
      + pose proof (pow2_pos j Hj). nia.
      + rewrite <- pow2_split by lia.
        replace (d2 + j) with ((d1 - 1) + (ex - ey - e')) by (unfold j; lia).
        rewrite pow2_split by lia. rewrite Hm'. nia. }
  apply Z.le_trans with (fexp prec emax (d1 + ex - (d2 + ey)));
    [unfold e'; lia|].
  apply fexp_mono. unfold j in Hd. lia.
Qed.

Lemma of_Z_valid z : is_binary32 (of_Z z).
Proof. apply normalize_valid. Qed.

Lemma of_dec_valid neg m e10 : is_binary32 (of_dec neg m e10).
Proof.
  unfold of_dec. destruct m; try reflexivity.
  destruct (0 <=? e10); [apply binary_round_valid | apply div_valid].
Qed.

Lemma clampf_valid x lo hi :
  is_binary32 x -> is_binary32 lo -> is_binary32 hi ->
  is_binary32 (clampf x lo hi).
Proof.
  intros. unfold clampf. destruct (ltb x lo); [assumption|].
  destruct (ltb hi x); assumption.
Qed.

End Valid32.

Lemma scan_float_valid s x r : scan_float s = Some (x, r) -> is_binary32 x.
Proof.
  unfold scan_float. destruct (scan_sign s) as [neg s1].
  destruct s1 as [|c s2]; [discriminate|].
  destruct (Ascii.eqb (to_lower c) "i").
  { destruct (strip_kw _ s2) as [[|d s4]|]; try discriminate.
    - intros [= <- _]. reflexivity.
    - destruct (Ascii.eqb (to_lower d) "i").
      + destruct (strip_kw _ s4); [|discriminate]. intros [= <- _]. reflexivity.
      + intros [= <- _]. reflexivity. }
  destruct (Ascii.eqb (to_lower c) "n").
  { destruct (strip_kw _ s2); [|discriminate]. intros [= <- _]. reflexivity. }
  unfold scan_decimal.
  destruct (scan_digits 0 0 (c :: s2)) as [[ip ni] s1'].
  destruct (match s1' with
            | [] => (ip, 0, s1')
            | c0 :: s1'0 =>
                if Ascii.eqb c0 "." then scan_digits ip 0 s1'0 else (ip, 0, s1')
            end) as [[m nf] s3].
  destruct (ni + nf =? 0); [discriminate|].
  destruct (scan_exponent s3) as [[ex s4]|]; [|discriminate].
  intros [= <- _]. apply of_dec_valid.
Qed.

Lemma sscanf_valid s lk0 v0 :
  is_binary32 lk0 -> is_binary32 (snd (fst (sscanf_L_f_d s lk0 v0))).
Proof.
  intros H0. unfold sscanf_L_f_d.
  destruct (lit "L" s) as [s1|]; [|exact H0].
  destruct (lit "," s1) as [s2|]; [|exact H0].
  destruct (scan_float (skip_space s2)) as [[lk s3]|] eqn:Hf; [|exact H0].
  apply scan_float_valid in Hf.
  destruct (lit "," s3) as [s4|]; [|exact Hf].
  destruct (scan_int (skip_space s4)) as [[v s5]|]; exact Hf.
Qed.

Lemma rx_byte_valid now c st :
  is_binary32 (lastLk (vision st)) ->
  is_binary32 (lastLk (vision (rx_byte now c st))).
Proof.
  intros H. unfold rx_byte.
  destruct (Ascii.eqb c NL); [|destruct (_ <? _)%nat; exact H].
  cbv zeta. destruct (_ && _); [|exact H].
  pose proof (sscanf_valid (c_str (<[idx (rx st):=NUL]> (buf (rx st)))) f0_0 0
                eq_refl) as Hs.
  destruct (sscanf_L_f_d _ _ _) as [[n lk] v]. cbn [fst snd] in Hs.
  destruct (n =? 2); [|exact H].
  cbn [vision set_vision lastLk]. apply clampf_valid; [exact Hs | |]; reflexivity.
Qed.

Lemma readVisionSerial_valid now l st :
  is_binary32 (lastLk (vision st)) ->
  is_binary32 (lastLk (vision (readVisionSerial now l st))).
Proof.
  revert st. induction l as [|c l IH]; intros st H; [exact H|].
  rewrite readVisionSerial_cons. apply IH, rx_byte_valid, H.
Qed.

Lemma computeIrError_valid (analogRead : Z -> Z) e :
  computeIrError analogRead = Some e -> is_binary32 e.
Proof.
  unfold computeIrError.
  destruct (ir_loop analogRead 8 0 f0_0 f0_0) as [sum wsum].
  destruct (ltb sum f0_01); [discriminate|]. intros [= <-].
  apply mul_valid; [|reflexivity].
  apply sub_valid; [apply div_valid | reflexivity].
Qed.

Lemma scheduled_valid env st :
  let c := scheduled env st in
  is_binary32 (baseSpeed c) /\ is_binary32 (Kp c) /\ is_binary32 (Ki c)
  /\ is_binary32 (Kd c).
Proof.
  cbv zeta. destruct (scheduled_profiles env st) as [HKi Hp]. rewrite HKi.
  destruct Hp as [H|[H|[H|[H|[]]]]]; injection H as <- <- <-;
    repeat split; reflexivity.
Qed.

Lemma pid_step_valid h dt c :
  (forall e, h = Some e -> is_binary32 e) -> is_binary32 dt ->
  is_binary32 (baseSpeed c) -> is_binary32 (Kp c) -> is_binary32 (Ki c) ->
  is_binary32 (Kd c) -> is_binary32 (integ c) ->
  let r := pid_step h dt c in
  (is_binary32 (Kp (fst r)) /\ is_binary32 (Ki (fst r))
   /\ is_binary32 (Kd (fst r)) /\ is_binary32 (integ (fst r))
   /\ is_binary32 (prevE (fst r)) /\ is_binary32 (baseSpeed (fst r)))
  /\ is_binary32 (snd r).
Proof.
  intros He Hdt Hbs Hkp Hki Hkd Hi. cbv zeta.
  destruct h as [e|]; cbn [pid_step fst snd Kp Ki Kd integ prevE baseSpeed].
  - specialize (He e eq_refl).
    assert (is_binary32 (add (integ c) (mul e dt))) as Hi'.
    { apply add_valid; [exact Hi|]. now apply mul_valid. }
    repeat split; try assumption.
    apply add_valid; [apply add_valid|]; apply mul_valid;
      try assumption; apply div_valid.
  - repeat split; try assumption; try reflexivity.
    apply mul_valid; [exact Hbs | reflexivity].
Qed.

Lemma mix_valid bs u :
  is_binary32 bs -> is_binary32 u ->
  is_binary32 (left (mix bs u)) /\ is_binary32 (right (mix bs u)).
Proof.
  intros Hbs Hu. unfold mix. cbn [left right].
  split; apply clampf_valid; try reflexivity;
    [apply sub_valid | apply add_valid]; assumption.
Qed.

Lemma loop_valid env st :
  state_binary32 st ->
  state_binary32 (fst (loop env st))
  /\ (forall c, snd (loop env st) = Some c ->
        is_binary32 (left c) /\ is_binary32 (right c)).
Proof.
  intros (Hlk & Hkp & Hki & Hkd & Hi & Hp & Hbs).
  assert (is_binary32 (lastLk (vision (fst (loop env st))))) as Hlk'.
  { destruct (loop_rx_vision env st) as [_ ->].
    now apply readVisionSerial_valid. }
  destruct (tick_due env st) eqn:Hdue.
  - pose proof (loop_tick env st Hdue) as Hl. cbv zeta in Hl.
    destruct (scheduled_valid env st) as (Sbs & Skp & Ski & Skd).
    destruct (scheduled_pid env st) as [Ei _].
    destruct (pid_step_valid (computeIrError (analog env)) (tick_dt env st)
                (scheduled env st)) as [(Pkp & Pki & Pkd & Pi & Pp & Pbs) Pu];
      try assumption.
    { intros e. apply computeIrError_valid. }
    { apply div_valid. }
    { now rewrite Ei. }
    split.
    + unfold state_binary32. split; [exact Hlk'|].
      rewrite Hl. cbn [fst ctl set_ctl]. repeat split; assumption.
    + rewrite Hl. cbn [snd]. intros c [= <-]. now apply mix_valid.
  - pose proof (loop_idle env st Hdue) as Hl. split.
    + unfold state_binary32. split; [exact Hlk'|].
      rewrite Hl. cbn [fst]. rewrite readVisionSerial_ctl.
      repeat split; assumption.
    + rewrite Hl. cbn [snd]. discriminate.
Qed.

Lemma reachable_binary32 st : reachable st -> state_binary32 st.
Proof.
  induction 1 as [|env st _ _ IH]; [repeat split | now apply loop_valid].
Qed.

(** X19.  Every float the firmware stores or sends to the motors is a
    well-formed binary32 datum: in every reachable state the stored
    lookahead, the three gains, the integral, the previous error and the
    base speed are in the canonical form of the format, and so are the two
    wheel commands of every tick.  No operation of the sketch (parsing,
    the four arithmetic operations, clamping) leaves the format, so the
    comparisons the code makes are comparisons of the numbers. *)
Theorem every_float_is_binary32 env st :
  reachable st ->
  state_binary32 st
  /\ (forall c, snd (loop env st) = Some c ->
        is_binary32 (left c) /\ is_binary32 (right c)).
Proof.
  intros H. pose proof (reachable_binary32 st H) as Hst.
  split; [exact Hst|]. now apply loop_valid.
Qed.

Lemma every_float_is_binary32_witness :
  state_binary32 (fst (loop (tick_with_line "L,1e-40,1") init_state))
  /\ lastLk (vision (fst (loop (tick_with_line "L,1e-40,1") init_state)))
     = S754_finite false 71362 (-149).
Proof.
  split; [|vm_compute; reflexivity].
  destruct (every_float_is_binary32 tick_tracked
              (fst (loop (tick_with_line "L,1e-40,1") init_state))) as [H _];
    [|exact H].
  apply reach_loop; [apply board_ok_tick_with_line | apply reach_init].
Defined.

Lemma setMotor_safe IN1 IN2 PWM cmd :
  is_binary32 cmd -> is_nan cmd = false ->
  exists evs,
    setMotor IN1 IN2 PWM cmd = Some evs
    /\ (forall p d, In (AnalogWrite p d) evs -> p = PWM /\ 0 <= d <= 255).
Proof.
  intros Hv Hn. unfold setMotor.
  assert (magnitude_le 1 (clampf cmd (SFopp f1_0) f1_0)) as Hm.
  { destruct (clampf_cases cmd (SFopp f1_0) f1_0)
      as [[_ ->]|[(_ & _ & ->)|(Hlo & Hhi & ->)]].
    - split; [vm_compute; discriminate | reflexivity].
    - split; [vm_compute; discriminate | reflexivity].
    - now apply unit_magnitude. }
  destruct (duty_of_unit _ Hm) as (d & -> & Hd).
  eexists. split; [reflexivity|].
  intros p d' Hin. apply in_app_or in Hin as [Hin|Hin].
  - destruct (leb _ _); cbn in Hin;
      destruct Hin as [Hin|[Hin|[]]]; discriminate.
  - destruct Hin as [[= <- <-]|[]]. split; [reflexivity | exact Hd].
Qed.

(** X20.  With the motor driver enabled the firmware is safe to run: in
    every tick of a reachable execution, for either wheel, the conversion of
    the duty to [int] is defined, so [outputMotors] runs to its end, and
    every duty it hands to [analogWrite] is between 0 and 255 and goes to
    one of the two PWM pins. *)
Theorem driver_duties_in_range env st :
  reachable st -> board_ok env -> tick_due env st = true ->
  exists c evs,
    snd (loop env st) = Some c
    /\ outputMotors_cfg true (left c) (right c) = Some evs
    /\ (forall p d, In (AnalogWrite p d) evs ->
          (p = PWMA \/ p = PWMB) /\ 0 <= d <= 255).
Proof.
  intros Hreach Hboard Hdue.
  destruct (wheel_commands_in_range env st Hreach Hboard Hdue)
    as (c & Hc & Hl1 & _ & Hr1 & _).
  destruct (loop_valid env st (reachable_binary32 st Hreach)) as [_ Hcv].
  destruct (Hcv c Hc) as [Hvl Hvr].
  apply leb_not_nan in Hl1 as [_ Hnl]. apply leb_not_nan in Hr1 as [_ Hnr].
  destruct (setMotor_safe AIN1 AIN2 PWMA (left c) Hvl Hnl) as (a & Ha & Pa).
  destruct (setMotor_safe BIN1 BIN2 PWMB (right c) Hvr Hnr) as (b & Hb & Pb).
  exists c, (DigitalWrite STBY HIGH :: a ++ b).
  split; [exact Hc|]. split.
  - unfold outputMotors_cfg. cbn [negb]. now rewrite Ha, Hb.
  - intros p d [Hin|Hin]; [discriminate|].
    apply in_app_or in Hin as [Hin|Hin].
    + destruct (Pa p d Hin) as [-> Hd]. auto.
    + destruct (Pb p d Hin) as [-> Hd]. auto.
Qed.

Lemma driver_duties_in_range_witness :
  exists c evs,
    snd (loop tick_tracked init_state) = Some c
    /\ outputMotors_cfg true (left c) (right c) = Some evs
    /\ (forall p d, In (AnalogWrite p d) evs ->
          (p = PWMA \/ p = PWMB) /\ 0 <= d <= 255).
Proof.
  apply (driver_duties_in_range tick_tracked init_state).
  - apply reach_init.
  - apply board_ok_tick_tracked.
  - vm_compute. reflexivity.
Defined.

(** ** The line sensor *)

Lemma upto_spec (P : Z -> bool) n z :
  forallb P (upto n) = true -> 0 <= z < Z.of_nat n -> P z = true.
Proof.
  intros H Hz. rewrite forallb_forall in H. apply H.
  unfold upto. rewrite <- (Z2Nat.id z) by lia.
  apply in_map, in_seq. lia.
Qed.

(** [computeIrError] reads the eight sensors and nothing else. *)
Lemma computeIrError_ext (f g : Z -> Z) :
  (forall j, 0 <= j < 8 -> f j = g j) -> computeIrError f = computeIrError g.
Proof.
  intros H. unfold computeIrError. cbn [ir_loop].
  rewrite !H by lia. reflexivity.
Qed.

Lemma single_lit_checked :
  forallb (λ i, forallb (λ r, sensor_check i r (computeIrError (single_lit i r)))
                        (upto 1024)) (upto 8) = true.
Proof. vm_compute. reflexivity. Qed.

Lemma single_lit_ok_all i r :
  0 <= i < 8 -> 0 <= r < 1024 ->
  sensor_check i r (computeIrError (single_lit i r)) = true.
Proof.
  intros Hi Hr.
  apply (upto_spec (λ r, sensor_check i r (computeIrError (single_lit i r)))
                   1024 r); [|lia].
  apply (upto_spec
           (λ i, forallb (λ r, sensor_check i r (computeIrError (single_lit i r)))
                         (upto 1024)) 8 i);
    [exact single_lit_checked | lia].
Qed.

Lemma sensor_check_spec i r o :
  sensor_check i r o = true ->
  (r <= 10 -> o = None)
  /\ (11 <= r ->
      exists e, o = Some e /\ is_finite e = true
        /\ (nominal_error i - (1 # 100000000) <= to_Q e)%Q
        /\ (to_Q e <= nominal_error i + (1 # 100000000))%Q).
Proof.
  intros Hok. destruct o as [e|]; cbn [sensor_check] in Hok.
  - apply andb_prop in Hok as [Hok H4]. apply andb_prop in Hok as [Hok H3].
    apply andb_prop in Hok as [H1 H2].
    apply Z.leb_le in H1. apply Qle_bool_iff in H3, H4.
    split; [lia|]. intros _. exists e. repeat split; assumption.
  - apply Z.leb_le in Hok. split; [reflexivity | lia].
Qed.

(** X21.  One sensor over the line.  When sensor [i] alone is lit, at
    reading [r] with all others at 0, the line is reported lost for
    [r <= 10] and found for
    [r >= 11]; when found, the error is a finite number within 10^-8 m of
    [(i - 3.5) * 0.010], whatever the brightness [r]: negative for the
    sensors 0..3, positive for 4..7.  (It is not always the nearest float
    to that value: the two roundings of [v * i] and [wsum / sum] show.) *)
Theorem single_sensor_error (analogRead : Z -> Z) i r :
  0 <= i < 8 -> 0 <= r <= 1023 ->
  (forall j, 0 <= j < 8 -> analogRead j = single_lit i r j) ->
  (r <= 10 -> computeIrError analogRead = None)
  /\ (11 <= r ->
      exists e, computeIrError analogRead = Some e /\ is_finite e = true
        /\ (nominal_error i - (1 # 100000000) <= to_Q e)%Q
        /\ (to_Q e <= nominal_error i + (1 # 100000000))%Q).
Proof.
  intros Hi Hr Hread.
  rewrite (computeIrError_ext analogRead (single_lit i r) Hread).
  apply sensor_check_spec, single_lit_ok_all; lia.
Qed.

Lemma single_sensor_error_witness :
  computeIrError (single_lit 7 10) = None
  /\ exists e, computeIrError (single_lit 7 600) = Some e
               /\ (to_Q e <= nominal_error 7 + (1 # 100000000))%Q.
Proof.
  destruct (single_sensor_error (single_lit 7 10) 7 10) as [H _];
    [lia | lia | reflexivity |].
  split; [apply H; lia|].
  destruct (single_sensor_error (single_lit 7 600) 7 600) as [_ H'];
    [lia | lia | reflexivity |].
  destruct (H' ltac:(lia)) as (e & He & _ & _ & Hq).
  exists e. split; assumption.
Defined.

(** ** The threshold of the line sensor *)

Section Threshold.
Implicit Types x y : float32.

Lemma binary_round_range s p e j K :
  0 <= j -> 2 ^ j <= Zpos p -> -149 <= j + e -> Zpos p < 2 ^ (K - e) ->
  e <= 104 -> K <= 127 ->
  at_least (j + e) (binary_round prec emax s p e)
  /\ bounded_by K (binary_round prec emax s p e).
Proof.
  intros Hj Hlo Hsub Hhi He HK. pose proof (pow2_pos j Hj) as Hpj.
  pose proof (pow2_exp_nonneg_lt _ _ (Pos2Z.pos_is_nonneg p) Hhi) as HKe.
  unfold binary_round.
  destruct (shl_align_spec p e (fexp prec emax (Zpos (digits2_pos p) + e)))
    as [Hez Hmz].
  destruct (shl_align p e _) as [mz ez]. cbn [fst snd] in *.
  rewrite <- Hez in Hmz.
  assert (ez <= e) as Hez0 by lia.
  pose proof (pow2_pos (e - ez) ltac:(lia)) as Hpz.
  pose proof (pow2_pos (K - e) HKe) as HpK.
  destruct (round_aux_range s (Zpos mz) ez loc_Exact (j + (e - ez)) K)
    as [H1 H2]; try lia.
  - rewrite Hmz, pow2_split by lia. nia.
  - rewrite Hmz. replace (K - ez) with (K - e + (e - ez)) by lia.
    rewrite pow2_split by lia. nia.
  - split; [|exact H2]. now replace (j + (e - ez) + ez) with (j + e) in H1 by lia.
Qed.

Lemma binary32_exponent s m e :
  is_binary32 (S754_finite s m e) -> -149 <= e <= 104.
Proof.
  intros H. pose proof (canonical_digits s m e H) as Hc. rewrite fexp32 in Hc.
  unfold is_binary32 in H. cbn [valid_binary] in H. unfold bounded in H.
  apply andb_prop in H as [_ H]. apply Z.leb_le in H.
  change (emax - prec) with 104 in H. lia.
Qed.

(** Adding numbers that are not negative: the sum is not negative and is
    at least as large as a power of two that either of them reaches. *)
Lemma add_nonneg k K x y :
  nonneg x -> nonneg y -> is_binary32 x -> is_binary32 y ->
  bounded_by K x -> bounded_by K y -> -149 <= k -> K + 2 <= 127 ->
  nonneg (add x y)
  /\ (at_least k x \/ at_least k y -> at_least k (add x y)).
Proof.
  intros Nx Ny Vx Vy Bx By Hk HK.
  destruct x as [sx| | |[] mx ex], y as [sy| | |[] my ey]; try contradiction.
  - split; [destruct sx, sy; exact I | intros [[]|[]]].
  - split; [exact I | intros [[]|H]; exact H].
  - split; [exact I | intros [H|[]]; exact H].
  - apply binary32_exponent in Vx, Vy. simpl in Bx, By.
    pose proof (pow2_exp_nonneg _ _ (Pos2Z.is_pos _) Bx) as Hex.
    pose proof (pow2_exp_nonneg _ _ (Pos2Z.is_pos _) By) as Hey.
    unfold add, SFadd. set (ez := Z.min ex ey).
    pose proof (aligned_bound mx ex ez K ltac:(lia) Bx) as HX.
    pose proof (aligned_bound my ey ez K ltac:(lia) By) as HY.
    destruct (shl_align_spec mx ex ez) as [_ EX].
    destruct (shl_align_spec my ey ez) as [_ EY].
    replace (Z.min ex ez) with ez in EX by lia.
    replace (Z.min ey ez) with ez in EY by lia.
    set (px := fst (shl_align mx ex ez)) in *.
    set (py := fst (shl_align my ey ez)) in *.
    cbn [cond_Zopp]. change (Zpos px + Zpos py) with (Zpos (px + py)).
    cbn [binary_normalize].
    pose proof (pow2_pos (K - ez) ltac:(lia)) as HpK.
    pose proof (pow2_pos (ex - ez) ltac:(lia)) as Hpx.
    pose proof (pow2_pos (ey - ez) ltac:(lia)) as Hpy.
    assert (Zpos (px + py) < 2 ^ (K + 2 - ez)) as Hhi.
    { replace (K + 2 - ez) with (2 + (K - ez)) by lia.
      rewrite pow2_split by lia. change (2 ^ 2) with 4.
      rewrite Pos2Z.inj_add. lia. }
    assert (bounded_by (K + 2) (binary_round prec emax false (px + py) ez))
      as Hb.
    { apply (binary_round_range false (px + py) ez 0 (K + 2));
        [lia | change (2 ^ 0) with 1; lia | lia | exact Hhi | lia | lia]. }
    split.
    + pose proof (round_aux_sign false) as Hs. unfold binary_round in *.
      destruct (shl_align (px + py) ez _) as [mz ez'].
      specialize (Hs (Zpos mz) ez' loc_Exact).
      destruct (binary_round_aux _ _ _ _ _ _) as [| | |s3 m3 e3];
        try contradiction; [exact I|]. now subst s3.
    + intros Hlow.
      set (j := Z.max (k - ez) 0).
      assert (2 ^ j <= Zpos (px + py)) as Hj.
      { rewrite Pos2Z.inj_add. unfold j.
        destruct (Z.max_spec (k - ez) 0) as [[_ ->]|[Hge ->]];
          [change (2 ^ 0) with 1; lia|].
        destruct Hlow as [Hl|Hl]; simpl in Hl.
        - apply Z.le_trans with (Zpos px); [|lia]. rewrite EX.
          destruct (Z.lt_ge_cases (k - ex) 0) as [Hn|Hn].
          + pose proof (pow2_mono (k - ez) (ex - ez) ltac:(lia)). nia.
          + replace (k - ez) with (k - ex + (ex - ez)) by lia.
            rewrite pow2_split by lia. nia.
        - apply Z.le_trans with (Zpos py); [|lia]. rewrite EY.
          destruct (Z.lt_ge_cases (k - ey) 0) as [Hn|Hn].
          + pose proof (pow2_mono (k - ez) (ey - ez) ltac:(lia)). nia.
          + replace (k - ez) with (k - ey + (ey - ez)) by lia.
            rewrite pow2_split by lia. nia. }
      apply (at_least_mono (j + ez)); [lia|].
      apply (binary_round_range false (px + py) ez j (K + 2));
        [lia | exact Hj | lia | exact Hhi | lia | lia].
Qed.

(** A binary32 number that is not negative and at least [2^-6] is not below
    0.01f. *)
Lemma found_threshold x :
  nonneg x -> is_binary32 x -> at_least (-6) x -> ltb x f0_01 = false.
Proof.
  change f0_01 with (S754_finite false 10737418 (-30)).
  destruct x as [| | |[] m e]; try contradiction. intros _ Hv Hlo.
  apply canonical_digits in Hv. rewrite fexp32 in Hv.
  pose proof (digits_gt m) as Hm. simpl in Hlo.
  assert (Zpos (digits2_pos m) <= 24) as Hd by lia.
  pose proof (pow2_mono (Zpos (digits2_pos m)) 24 ltac:(lia)) as H24.
  assert (-30 < e) as He.
  { destruct (Z.lt_ge_cases (-30) e) as [?|Hle]; [assumption|].
    pose proof (pow2_mono 24 (-6 - e) ltac:(lia)). lia. }
  unfold ltb, SFltb. cbn [SFcompare].
  destruct (Z.compare_spec e (-30)); [lia | lia | reflexivity].
Qed.

End Threshold.

Lemma reading_value (raw : Z) :
  0 <= raw <= 1023 ->
  let v := div (of_Z raw) f1023 in
  nonneg v /\ is_binary32 v /\ bounded_by 2 v
  /\ (32 <= raw -> at_least (-6) v).
Proof.
  intros Hr. cbv zeta.
  assert (bounded_by 10 (of_Z raw)) as Hz.
  { apply of_Z_bound; [|lia]. change (2 ^ 10) with 1024. lia. }
  assert (bounded_by 2 (div (of_Z raw) f1023)) as Hb.
  { apply (div_bound 10 9); [exact Hz | vm_compute; discriminate | lia]. }
  split; [|split; [apply div_valid | split; [exact Hb|]]].
  - destruct raw as [|p|p]; [exact I | | lia].
    pose proof (of_Z_pos_sign p) as Hs.
    destruct (of_Z (Zpos p)) as [s1|s1| |s1 m1 e1]; try contradiction.
    + exact I.
    + subst s1. change f1023 with (S754_finite false 16760832 (-14)) in *.
      pose proof (div_sign false m1 e1 false 16760832 (-14)) as Hd.
      destruct (div _ _) as [s|s| |s m e]; try contradiction; [exact I|].
      cbn [xorb] in Hd. now subst s.
  - intros H32.
    assert (at_least 5 (of_Z raw)) as Hlo.
    { apply (of_Z_range raw 5 10); [lia | change (2 ^ 5) with 32; lia | | lia].
      change (2 ^ 10) with 1024. lia. }
    apply (div_at_least 5 10 9 10); try assumption; try lia;
      vm_compute; discriminate.
Qed.

Lemma ir_loop_found (analogRead : Z -> Z) n i sum wsum a :
  (forall j, 0 <= analogRead j <= 1023) ->
  nonneg sum -> is_binary32 sum -> bounded_by a sum ->
  2 <= a -> a + 2 * Z.of_nat n <= 127 ->
  (at_least (-6) sum
   \/ exists j, i <= j < i + Z.of_nat n /\ 32 <= analogRead j) ->
  let s := fst (ir_loop analogRead n i sum wsum) in
  nonneg s /\ is_binary32 s /\ at_least (-6) s.
Proof.
  intros Hadc. revert i sum wsum a.
  induction n as [|n IH]; intros i sum wsum a Hn Hv Hb Ha Han Hsrc; cbv zeta.
  - cbn [ir_loop fst]. destruct Hsrc as [H|(j & Hj & _)]; [|lia].
    repeat split; assumption.
  - cbn [ir_loop].
    destruct (reading_value (analogRead i) (Hadc i)) as (Nv & Vv & Bv & Lv).
    set (v := div (of_Z (analogRead i)) f1023) in *.
    assert (bounded_by a v) as Bv' by (apply (bounded_by_mono 2); [lia | exact Bv]).
    destruct (add_nonneg (-6) a sum v Hn Nv) as [Ns Ls]; try assumption; try lia.
    apply (IH (i + 1) (add sum v) _ (a + 2)); try lia; try assumption.
    + now apply add_valid.
    + apply add_bound; [assumption | assumption | lia].
    + destruct Hsrc as [H|(j & Hj & H32)]; [left; apply Ls; now left|].
      destruct (Z.eq_dec j i) as [->|Hne].
      * left. apply Ls. right. apply Lv, H32.
      * right. exists j. split; [lia | exact H32].
Qed.

Lemma total_nonneg (analogRead : Z -> Z) n i :
  (forall j, 0 <= analogRead j) -> 0 <= total analogRead n i.
Proof.
  intros H. revert i. induction n as [|n IH]; intros i; cbn [total]; [lia|].
  specialize (H i). specialize (IH (i + 1)). lia.
Qed.

Lemma lost_check_sound (analogRead : Z -> Z) n budget i sum wsum :
  (forall j, 0 <= analogRead j) ->
  total analogRead n i <= Z.of_nat budget ->
  lost_check n budget sum = true ->
  ltb (fst (ir_loop analogRead n i sum wsum)) f0_01 = true.
Proof.
  intros Hadc. revert budget i sum wsum.
  induction n as [|n IH]; intros budget i sum wsum Htot Hchk.
  - exact Hchk.
  - cbn [ir_loop]. cbn [total] in Htot. cbn [lost_check] in Hchk.
    pose proof (Hadc i) as Hr.
    pose proof (total_nonneg analogRead n (i + 1) Hadc) as Hrest.
    rewrite forallb_forall in Hchk.
    specialize (Hchk (Z.to_nat (analogRead i))).
    rewrite Z2Nat.id in Hchk by exact Hr.
    apply (IH (budget - Z.to_nat (analogRead i))%nat).
    + rewrite Nat2Z.inj_sub by lia. rewrite Z2Nat.id by exact Hr. lia.
    + apply Hchk, in_seq. lia.
Qed.

Lemma lost_checked : lost_check 8 10 f0_0 = true.
Proof. vm_compute. reflexivity. Qed.

(** X22.  When the line counts as lost.  With readings in the range of the
    converter: a reading of 32 or more on any one sensor is enough for the
    line to be found, whatever the other seven read, and the error is then
    a finite number; and readings that total 10 or less always report the
    line lost. *)
Theorem line_detection_threshold (analogRead : Z -> Z) :
  (forall j, 0 <= analogRead j <= 1023) ->
  ((exists j, 0 <= j < 8 /\ 32 <= analogRead j) ->
   exists e, computeIrError analogRead = Some e /\ is_finite e = true)
  /\ (total analogRead 8 0 <= 10 -> computeIrError analogRead = None).
Proof.
  intros Hadc. split.
  - intros (j & Hj & H32).
    assert (exists e, computeIrError analogRead = Some e) as [e He].
    { unfold computeIrError.
      pose proof (ir_loop_found analogRead 8 0 f0_0 f0_0 6 Hadc I eq_refl I
                    ltac:(lia) ltac:(lia)) as H.
      destruct H as (Hn & Hv & Hl).
      { right. exists j. split; [lia | exact H32]. }
      destruct (ir_loop analogRead 8 0 f0_0 f0_0) as [sum wsum].
      cbn [fst] in *. rewrite (found_threshold sum Hn Hv Hl).
      eexists. reflexivity. }
    exists e. split; [exact He|].
    apply (bounded_by_finite 50), (computeIrError_bound analogRead e Hadc He).
  - intros Htot.
    pose proof (lost_check_sound analogRead 8 10 0 f0_0 f0_0
                  (λ j, proj1 (Hadc j)) Htot lost_checked) as H.
    unfold computeIrError.
    destruct (ir_loop analogRead 8 0 f0_0 f0_0) as [sum wsum].
    cbn [fst] in H. now rewrite H.
Qed.

Lemma line_detection_threshold_witness :
  (exists e, computeIrError (single_lit 2 32) = Some e /\ is_finite e = true)
  /\ computeIrError (λ j, if j <? 5 then 2 else 0) = None.
Proof.
  split.
  - destruct (line_detection_threshold (single_lit 2 32)) as [H _].
    + intros j. unfold single_lit. destruct (j =? 2); lia.
    + apply H. exists 2. split; [lia | reflexivity].
  - destruct (line_detection_threshold (λ j, if j <? 5 then 2 else 0))
      as [_ H].
    + intros j. cbv beta. destruct (j <? 5); lia.
    + apply H. vm_compute. discriminate.
Defined.
